(** * build2api: the proxy core of [unified-server.js]

    A shallow embedding of the gateway: credential index rotation
    ([AuthSource], [RequestHandler._getNextAuthIndex]), configuration and the
    API-key middleware ([ProxyServerSystem]), the chat-to-native request
    translation, the per-request [MessageQueue], the [ConnectionRegistry]
    with its reconnection grace timer, and the admission / rotation logic of
    [RequestHandler].

    Conventions.
    - A JavaScript string is a [string]; its characters stand for the code
      units of the JavaScript string (code units above 255 are outside the
      model).
    - A JavaScript number used as a counter, index or status code is a [Z].
    - A thrown [Error] is its message, a [string].
    - [null] / [undefined] results are [None]. *)

From Stdlib Require Import List String Ascii ZArith Lia Bool Arith PeanoNat.
From Stdlib Require Import DecimalString DecimalPos.
From Stdlib Require Import Sorting.Sorted Sorting.Permutation.
Import ListNotations.
Open Scope string_scope.
Open Scope Z_scope.

(* ===================================================================== *)
(** * Part I. Definitions                                                  *)
(* ===================================================================== *)

(** ** JavaScript helpers *)

Module JS.

(** [Array.prototype.indexOf] on numbers; [None] is JavaScript's [-1]. *)
Fixpoint indexOf (l : list Z) (x : Z) : option nat :=
  match l with
  | [] => None
  | y :: l' =>
      if Z.eqb y x then Some O
      else match indexOf l' x with
           | Some i => Some (S i)
           | None => None
           end
  end.

(** [Array.prototype.includes] on numbers. *)
Definition includes (l : list Z) (x : Z) : bool := existsb (Z.eqb x) l.

(** [Array.prototype.includes] on strings. *)
Definition includes_str (l : list string) (x : string) : bool :=
  existsb (String.eqb x) l.

(** [Array.prototype.join]. *)
Fixpoint join (sep : string) (l : list string) : string :=
  match l with
  | [] => ""
  | [x] => x
  | x :: l' => x ++ sep ++ join sep l'
  end.

(** [String.prototype.startsWith]. *)
Definition startsWith (s p : string) : bool := String.prefix p s.

(** [s.substring(n)] for [0 <= n]. *)
Fixpoint drop (n : nat) (s : string) : string :=
  match n, s with
  | O, _ => s
  | S n', String _ s' => drop n' s'
  | S _, EmptyString => EmptyString
  end.

(** [String.prototype.includes]: does [needle] occur in [s]? *)
Fixpoint str_includes (s needle : string) : bool :=
  String.prefix needle s ||
  match s with
  | EmptyString => false
  | String _ s' => str_includes s' needle
  end.

(** A JavaScript value is falsy as a string exactly when it is empty. *)
Definition truthy (s : string) : bool := negb (String.eqb s "").

End JS.

(** ** Credential indices: [AuthSource] and [_getNextAuthIndex] *)

Module AuthSource.

(** [[...new Set(indices)]]: a [Set] keeps the first insertion of each
    value, in insertion order. *)
Fixpoint dedup_from (seen : list Z) (l : list Z) : list Z :=
  match l with
  | [] => []
  | x :: l' =>
      if JS.includes seen x then dedup_from seen l'
      else x :: dedup_from (x :: seen) l'
  end.

Definition set_of (l : list Z) : list Z := dedup_from [] l.

(** [.sort((a, b) => a - b)]: ascending numeric sort. *)
Fixpoint insert_sorted (x : Z) (l : list Z) : list Z :=
  match l with
  | [] => [x]
  | y :: l' => if Z.leb x y then x :: l else y :: insert_sorted x l'
  end.

Fixpoint sort (l : list Z) : list Z :=
  match l with
  | [] => []
  | x :: l' => insert_sorted x (sort l')
  end.

(** [_discoverAvailableIndices]: [indices] are the numbers parsed from the
    environment keys or the file names. *)
Definition _discoverAvailableIndices (indices : list Z) : list Z :=
  sort (set_of indices).

(** [_preValidateAndFilter]: [parses i] tells whether the content of
    source [i] can be read and is well-formed JSON. *)
Definition _preValidateAndFilter (parses : Z -> bool) (available : list Z)
  : list Z :=
  filter parses available.

(** The [availableIndices] field after the constructor ran. *)
Definition availableIndices (parses : Z -> bool) (indices : list Z) : list Z :=
  _preValidateAndFilter parses (_discoverAvailableIndices indices).

End AuthSource.

(** [RequestHandler._getNextAuthIndex], as a function of the two values it
    reads: [authSource.availableIndices] and [currentAuthIndex]. *)
Definition _getNextAuthIndex (available : list Z) (currentAuthIndex : Z)
  : option Z :=
  match available with
  | [] => None
  | _ :: _ =>
      match JS.indexOf available currentAuthIndex with
      | None => nth_error available 0
      | Some currentIndexInArray =>
          let nextIndexInArray :=
            Nat.modulo (currentIndexInArray + 1) (List.length available) in
          nth_error available nextIndexInArray
      end
  end.

(** ** Configuration and the API-key middleware: [ProxyServerSystem] *)

Module Config.

(** The characters [String.prototype.trim] strips, among the code units
    below 256: tab, line feed, vertical tab, form feed, carriage return,
    space and the no-break space. *)
Definition is_whitespace (c : ascii) : bool :=
  let n := nat_of_ascii c in
  (Nat.eqb n 9 || Nat.eqb n 10 || Nat.eqb n 11 || Nat.eqb n 12 ||
   Nat.eqb n 13 || Nat.eqb n 32 || Nat.eqb n 160)%bool.

Fixpoint trimStart (s : string) : string :=
  match s with
  | EmptyString => EmptyString
  | String c s' => if is_whitespace c then trimStart s' else s
  end.

Fixpoint trimEnd (s : string) : string :=
  match s with
  | EmptyString => EmptyString
  | String c s' =>
      let r := trimEnd s' in
      if (is_whitespace c && String.eqb r "")%bool then EmptyString
      else String c r
  end.

Definition trim (s : string) : string := trimEnd (trimStart s).

(** [s.split(",")]. *)
Fixpoint split_comma (s : string) : list string :=
  match s with
  | EmptyString => [EmptyString]
  | String c s' =>
      if Ascii.eqb c ","%char then EmptyString :: split_comma s'
      else match split_comma s' with
           | h :: t => String c h :: t
           | [] => [String c EmptyString]
           end
  end.

(** The part of [_loadConfiguration] that computes [config.apiKeys] from
    [process.env.API_KEYS] ([None] when the variable is unset). *)
Definition _loadConfiguration_apiKeys (API_KEYS : option string)
  : list string :=
  let apiKeys0 :=
    match API_KEYS with
    | Some s => if JS.truthy s then split_comma s else []
    | None => []
    end in
  let apiKeys1 := filter JS.truthy (map trim apiKeys0) in
  if (0 <? List.length apiKeys1)%nat then apiKeys1 else ["123456"].

(** What the middleware reads from a request. A header or query entry
    that is absent is [None]. *)
Record AuthRequest := {
  x_goog_api_key : option string;
  authorization : option string;
  x_api_key : option string;
  query_key : option string
}.

Inductive AuthResult :=
| Next (req : AuthRequest)       (* [next()], with the request as it is left *)
| Respond401.                    (* [res.status(401).json(...)] *)

Definition opt_truthy (o : option string) : bool :=
  match o with
  | Some s => JS.truthy s
  | None => false
  end.

(** The key the middleware picks, in its priority order. *)
Definition clientKey (req : AuthRequest) : option string :=
  if opt_truthy (x_goog_api_key req) then x_goog_api_key req
  else if (opt_truthy (authorization req) &&
           match authorization req with
           | Some a => JS.startsWith a "Bearer "
           | None => false
           end)%bool
  then match authorization req with
       | Some a => Some (JS.drop 7 a)
       | None => None
       end
  else if opt_truthy (x_api_key req) then x_api_key req
  else if opt_truthy (query_key req) then query_key req
  else None.

(** The function returned by [_createAuthMiddleware], applied to
    [config.apiKeys]. *)
Definition authMiddleware (serverApiKeys : list string) (req : AuthRequest)
  : AuthResult :=
  if (List.length serverApiKeys =? 0)%nat then Next req
  else
    match clientKey req with
    | Some k =>
        if (JS.truthy k && JS.includes_str serverApiKeys k)%bool then
          Next (if opt_truthy (query_key req)
                then {| x_goog_api_key := x_goog_api_key req;
                        authorization := authorization req;
                        x_api_key := x_api_key req;
                        query_key := None |}
                else req)
        else Respond401
    | None => Respond401
    end.

(** The keys a request presents through the four accepted channels. *)
Definition presented_keys (req : AuthRequest) : list string :=
  (match x_goog_api_key req with Some k => [k] | None => [] end) ++
  (match authorization req with
   | Some a => if JS.startsWith a "Bearer " then [JS.drop 7 a] else []
   | None => []
   end) ++
  (match x_api_key req with Some k => [k] | None => [] end) ++
  (match query_key req with Some k => [k] | None => [] end).

(** No key configured: the variable is unset, or every comma-separated
    entry is blank after trimming. *)
Definition no_keys_configured (API_KEYS : option string) : Prop :=
  match API_KEYS with
  | None => True
  | Some s => Forall (fun k => trim k = "") (split_comma s)
  end.

End Config.

(** ** Request translation, chat dialect to native dialect *)

Module Translator.

(** One element of an array-valued [content]. The parts are objects; the
    model keeps the fields the translation reads. *)
Inductive ContentPart :=
| TextPart (text : string)                 (* [{type: "text", text}] *)
| ImageUrlPart (image_url : option string) (* [{type: "image_url", image_url: {url}}];
                                              [None] when [image_url] is missing *)
| OtherPart (type : string).               (* any other [type] *)

(** [message.content]. [OtherContent str] is a value that is neither a
    string nor an array; [str] is what [Array.prototype.join] makes of it
    (the empty string for [null] and [undefined]). *)
Inductive Content :=
| StringContent (s : string)
| ArrayContent (parts : list ContentPart)
| OtherContent (str : string).

Record Message := { role : string; content : Content }.

(** The fields of the request body the translation reads. The generation
    parameters are opaque JSON values ([None] when absent). *)
Record OpenAIBody := {
  messages : list Message;
  temperature : option string;
  top_p : option string;
  top_k : option string;
  max_tokens : option string;
  stop : option string
}.

Inductive GooglePart :=
| GText (text : string)                    (* [{text}] *)
| GInlineData (mimeType data : string).    (* [{inlineData: {mimeType, data}}] *)

Record GoogleContent := { g_role : string; g_parts : list GooglePart }.

Record GenerationConfig := {
  g_temperature : option string;
  g_topP : option string;
  g_topK : option string;
  g_maxOutputTokens : option string;
  g_stopSequences : option string;
  g_thinkingConfig : option bool           (* [{includeThoughts: b}] *)
}.

Record SafetySetting := { category : string; threshold : string }.

Record GoogleRequest := {
  contents : list GoogleContent;
  systemInstruction : option (list GooglePart);
  generationConfig : GenerationConfig;
  safetySettings : list SafetySetting
}.

(** The regular expression [/./] does not match a line terminator: line
    feed, carriage return, and the separators U+2028 and U+2029, which
    are three bytes each in the UTF-8 text of the model. *)
Definition is_line_terminator (c : ascii) : bool :=
  (Nat.eqb (nat_of_ascii c) 10 || Nat.eqb (nat_of_ascii c) 13)%bool.

Definition line_separator : string :=
  String (ascii_of_nat 226) (String (ascii_of_nat 128)
    (String (ascii_of_nat 168) EmptyString)).

Definition paragraph_separator : string :=
  String (ascii_of_nat 226) (String (ascii_of_nat 128)
    (String (ascii_of_nat 169) EmptyString)).

Fixpoint no_line_terminator (s : string) : bool :=
  match s with
  | EmptyString => true
  | String c s' =>
      (negb (is_line_terminator c) &&
       negb (String.prefix line_separator s) &&
       negb (String.prefix paragraph_separator s) &&
       no_line_terminator s')%bool
  end.

(** Split [s] at the first occurrence of [";base64,"]. *)
Fixpoint split_at_marker (s : string) : option (string * string) :=
  if String.prefix ";base64," s then Some (EmptyString, JS.drop 8 s)
  else match s with
       | EmptyString => None
       | String c s' =>
           match split_at_marker s' with
           | Some (x, r) => Some (String c x, r)
           | None => None
           end
       end.

(** [dataUrl.match(re)] for the anchored expression that reads: the text
    "data:", a lazy group "image/" followed by any characters, the text
    ";base64,", and a greedy group of any characters up to the end. The
    result is the two captured groups, or [None] when there is no match.
    The lazy group stops at the first ";base64,"; when the text before or
    after that occurrence holds a line terminator, no later occurrence
    can match either. *)
Definition match_data_url (dataUrl : string) : option (string * string) :=
  if String.prefix "data:image/" dataUrl then
    match split_at_marker (JS.drop 11 dataUrl) with
    | Some (x, r) =>
        if (no_line_terminator x && no_line_terminator r)%bool
        then Some ("image/" ++ x, r)
        else None
    | None => None
    end
  else None.

(** What [join] makes of one [msg.content]. *)
Definition content_to_string (c : Content) : string :=
  match c with
  | StringContent s => s
  | ArrayContent parts =>
      JS.join "," (map (fun _ => "[object Object]") parts)
  | OtherContent str => str
  end.

(** The body of the loop over [message.content] when it is an array. *)
Definition translate_part (part : ContentPart) : list GooglePart :=
  match part with
  | TextPart text => [GText text]
  | ImageUrlPart (Some dataUrl) =>
      match match_data_url dataUrl with
      | Some (mime, data) => [GInlineData mime data]
      | None => []
      end
  | ImageUrlPart None => []
  | OtherPart _ => []
  end.

(** The body of the loop over [conversationMessages]. *)
Definition translate_message (message : Message) : GoogleContent :=
  let googleParts :=
    match content message with
    | StringContent s => [GText s]
    | ArrayContent parts => flat_map translate_part parts
    | OtherContent _ => []
    end in
  {| g_role := if String.eqb (role message) "assistant" then "model" else "user";
     g_parts := googleParts |}.

Definition is_system (msg : Message) : bool := String.eqb (role msg) "system".

Definition default_safetySettings : list SafetySetting :=
  [ {| category := "HARM_CATEGORY_HARASSMENT"; threshold := "BLOCK_NONE" |};
    {| category := "HARM_CATEGORY_HATE_SPEECH"; threshold := "BLOCK_NONE" |};
    {| category := "HARM_CATEGORY_SEXUALLY_EXPLICIT"; threshold := "BLOCK_NONE" |};
    {| category := "HARM_CATEGORY_DANGEROUS_CONTENT"; threshold := "BLOCK_NONE" |} ].

(** [_translateOpenAIToGoogle]; [enableReasoning] is the
    [serverSystem.enableReasoning] switch. *)
Definition _translateOpenAIToGoogle (enableReasoning : bool)
  (openaiBody : OpenAIBody) (modelName : string) : GoogleRequest :=
  let systemMessages := filter is_system (messages openaiBody) in
  let systemInstruction :=
    if (0 <? List.length systemMessages)%nat then
      let systemContent :=
        JS.join (String (ascii_of_nat 10) EmptyString)
                (map (fun msg => content_to_string (content msg)) systemMessages) in
      Some [GText systemContent]
    else None in
  let conversationMessages :=
    filter (fun msg => negb (is_system msg)) (messages openaiBody) in
  let googleContents := map translate_message conversationMessages in
  {| contents := googleContents;
     systemInstruction := systemInstruction;
     generationConfig :=
       {| g_temperature := temperature openaiBody;
          g_topP := top_p openaiBody;
          g_topK := top_k openaiBody;
          g_maxOutputTokens := max_tokens openaiBody;
          g_stopSequences := stop openaiBody;
          g_thinkingConfig := if enableReasoning then Some true else None |};
     safetySettings := default_safetySettings |}.


End Translator.

(** ** Backchannel frames *)

(** A frame received on the backchannel, after [JSON.parse]. Absent fields
    are [None]. The frames carry no [type] field of their own. *)
Record ParsedMessage := {
  request_id : option string;
  event_type : option string;
  status : option Z;
  data : option string;
  message : option string
}.

(** What a [MessageQueue] holds: a frame enqueued verbatim, or the
    sentinel [{type: "STREAM_END"}]. *)
Inductive QueueMessage :=
| Frame (m : ParsedMessage)
| STREAM_END.

(** ** [MessageQueue] *)

Module MessageQueue.

(** The object [{resolve, reject, timeoutId}] pushed by [dequeue]. The
    promise it settles is named by [promise]; two resolvers are the same
    object exactly when they settle the same promise. *)
Record Resolver := { promise : nat; timeoutId : nat }.

Record t := {
  messages : list QueueMessage;
  waitingResolvers : list Resolver;
  closed : bool
}.

(** [new MessageQueue()]. *)
Definition create : t :=
  {| messages := []; waitingResolvers := []; closed := false |}.

(** What a queue method does to the world outside the queue object. *)
Inductive Action :=
| Resolve (p : nat) (m : QueueMessage)        (* [resolver.resolve(m)] *)
| Reject (p : nat) (err : string)             (* [resolver.reject(new Error(err))] *)
| ClearTimeout (timer : nat)                  (* [clearTimeout(timer)] *)
| SetTimeout (timer : nat) (delay : Z) (p : nat).
    (* [setTimeout(cb, delay)] where [cb] times out the resolver of [p] *)

Definition defaultTimeout : Z := 600000.

(** [enqueue(message)]. *)
Definition enqueue (q : t) (m : QueueMessage) : t * list Action :=
  if closed q then (q, [])
  else
    match waitingResolvers q with
    | resolver :: rest =>
        ({| messages := messages q; waitingResolvers := rest; closed := closed q |},
         [Resolve (promise resolver) m])
    | [] =>
        ({| messages := messages q ++ [m];
            waitingResolvers := waitingResolvers q;
            closed := closed q |}, [])
    end.

(** The result of calling [dequeue]: the call throws (the returned promise
    is already rejected), or it returns the promise [p], with the queue
    and the world changed as given. *)
Inductive DequeueResult :=
| Throws (err : string)
| Returns (q : t) (acts : list Action).

(** [dequeue(timeoutMs)]; [p] names the promise the call returns and
    [timer] the timer it may set. *)
Definition dequeue (q : t) (timeoutMs : Z) (p timer : nat) : DequeueResult :=
  if closed q then Throws "Queue is closed"
  else
    match messages q with
    | m :: rest =>
        Returns {| messages := rest;
                   waitingResolvers := waitingResolvers q;
                   closed := closed q |}
                [Resolve p m]
    | [] =>
        Returns {| messages := messages q;
                   waitingResolvers :=
                     waitingResolvers q ++ [{| promise := p; timeoutId := timer |}];
                   closed := closed q |}
                [SetTimeout timer timeoutMs p]
    end.

Definition is_resolver (p : nat) (r : Resolver) : bool := Nat.eqb (promise r) p.

(** [waitingResolvers.splice(index, 1)] at the index of the resolver of [p]. *)
Fixpoint splice_resolver (p : nat) (l : list Resolver) : list Resolver :=
  match l with
  | [] => []
  | r :: l' => if is_resolver p r then l' else r :: splice_resolver p l'
  end.

(** The callback of the timer set by [dequeue], for the resolver of [p]:
    [indexOf] finds the resolver, or the callback does nothing. *)
Definition on_timeout (q : t) (p : nat) : t * list Action :=
  if existsb (is_resolver p) (waitingResolvers q) then
    ({| messages := messages q;
        waitingResolvers := splice_resolver p (waitingResolvers q);
        closed := closed q |},
     [Reject p "Queue timeout"])
  else (q, []).

(** [close()]. *)
Definition close (q : t) : t * list Action :=
  ({| messages := []; waitingResolvers := []; closed := true |},
   flat_map (fun resolver =>
               [ClearTimeout (timeoutId resolver);
                Reject (promise resolver) "Queue closed"])
            (waitingResolvers q)).

End MessageQueue.

(** ** [ConnectionRegistry], with the timers and promises of the runtime *)

Module Registry.

Inductive Settlement :=
| Resolved (m : QueueMessage)
| Rejected (err : string).

(** The callbacks the registry and its queues hand to [setTimeout]. *)
Inductive TimerCallback :=
| DequeueTimeout (queue : nat) (p : nat)   (* the timer of one [dequeue] call *)
| GraceCleanup.                            (* the callback of [_removeConnection] *)

Record Timer := { timer_id : nat; deadline : Z; callback : TimerCallback }.

Inductive Emitted :=
| connectionAdded (ws : nat)
| connectionRemoved (ws : nat)
| connectionLost.

(** The registry object, the queue objects it refers to, and the part of
    the runtime they act on. Times are in milliseconds. *)
Record World := {
  now : Z;
  fresh : nat;                                (* next unused object / timer / promise name *)
  timers : list Timer;                        (* the pending timers *)
  settled : list (nat * Settlement);          (* promise settlements, oldest first *)
  heap : list (nat * MessageQueue.t);         (* the queue objects *)
  connections : list nat;                     (* [this.connections], a [Set] *)
  messageQueues : list (string * nat);        (* [this.messageQueues], a [Map], in insertion order *)
  reconnectGraceTimer : option nat;
  emitted : list Emitted;                     (* events emitted, oldest first *)
  close_calls : list nat                      (* ghost: the queue objects [close()] was called on, oldest first *)
}.

(** [new ConnectionRegistry(logger)] at time 0. *)
Definition init : World :=
  {| now := 0; fresh := O; timers := []; settled := []; heap := [];
     connections := []; messageQueues := []; reconnectGraceTimer := None;
     emitted := []; close_calls := [] |}.

Definition set_now (t : Z) (w : World) : World :=
  {| now := t; fresh := fresh w; timers := timers w; settled := settled w;
     heap := heap w; connections := connections w;
     messageQueues := messageQueues w;
     reconnectGraceTimer := reconnectGraceTimer w; emitted := emitted w;
     close_calls := close_calls w |}.

Definition set_fresh (n : nat) (w : World) : World :=
  {| now := now w; fresh := n; timers := timers w; settled := settled w;
     heap := heap w; connections := connections w;
     messageQueues := messageQueues w;
     reconnectGraceTimer := reconnectGraceTimer w; emitted := emitted w;
     close_calls := close_calls w |}.

Definition set_timers (l : list Timer) (w : World) : World :=
  {| now := now w; fresh := fresh w; timers := l; settled := settled w;
     heap := heap w; connections := connections w;
     messageQueues := messageQueues w;
     reconnectGraceTimer := reconnectGraceTimer w; emitted := emitted w;
     close_calls := close_calls w |}.

Definition set_settled (l : list (nat * Settlement)) (w : World) : World :=
  {| now := now w; fresh := fresh w; timers := timers w; settled := l;
     heap := heap w; connections := connections w;
     messageQueues := messageQueues w;
     reconnectGraceTimer := reconnectGraceTimer w; emitted := emitted w;
     close_calls := close_calls w |}.

Definition set_heap (h : list (nat * MessageQueue.t)) (w : World) : World :=
  {| now := now w; fresh := fresh w; timers := timers w; settled := settled w;
     heap := h; connections := connections w;
     messageQueues := messageQueues w;
     reconnectGraceTimer := reconnectGraceTimer w; emitted := emitted w;
     close_calls := close_calls w |}.

Definition set_connections (l : list nat) (w : World) : World :=
  {| now := now w; fresh := fresh w; timers := timers w; settled := settled w;
     heap := heap w; connections := l;
     messageQueues := messageQueues w;
     reconnectGraceTimer := reconnectGraceTimer w; emitted := emitted w;
     close_calls := close_calls w |}.

Definition set_messageQueues (l : list (string * nat)) (w : World) : World :=
  {| now := now w; fresh := fresh w; timers := timers w; settled := settled w;
     heap := heap w; connections := connections w;
     messageQueues := l;
     reconnectGraceTimer := reconnectGraceTimer w; emitted := emitted w;
     close_calls := close_calls w |}.

Definition set_reconnectGraceTimer (o : option nat) (w : World) : World :=
  {| now := now w; fresh := fresh w; timers := timers w; settled := settled w;
     heap := heap w; connections := connections w;
     messageQueues := messageQueues w;
     reconnectGraceTimer := o; emitted := emitted w;
     close_calls := close_calls w |}.

Definition emit (e : Emitted) (w : World) : World :=
  {| now := now w; fresh := fresh w; timers := timers w; settled := settled w;
     heap := heap w; connections := connections w;
     messageQueues := messageQueues w;
     reconnectGraceTimer := reconnectGraceTimer w; emitted := emitted w ++ [e];
     close_calls := close_calls w |}.

(** *** The runtime: timers and promises *)

Definition clearTimeout (id : nat) (w : World) : World :=
  set_timers (filter (fun tm => negb (Nat.eqb (timer_id tm) id)) (timers w)) w.

Definition setTimeout (id : nat) (delay : Z) (cb : TimerCallback) (w : World)
  : World :=
  set_timers (timers w ++ [{| timer_id := id; deadline := now w + delay;
                               callback := cb |}]) w.

Definition settle (p : nat) (o : Settlement) (w : World) : World :=
  set_settled (settled w ++ [(p, o)]) w.

(** *** Queue objects *)

Fixpoint lookup_queue (h : list (nat * MessageQueue.t)) (q : nat)
  : option MessageQueue.t :=
  match h with
  | [] => None
  | (q', s) :: h' => if Nat.eqb q' q then Some s else lookup_queue h' q
  end.

Fixpoint store_queue (h : list (nat * MessageQueue.t)) (q : nat)
  (s : MessageQueue.t) : list (nat * MessageQueue.t) :=
  match h with
  | [] => [(q, s)]
  | (q', s') :: h' =>
      if Nat.eqb q' q then (q, s) :: h' else (q', s') :: store_queue h' q s
  end.

(** The effect of one queue action on the runtime; [q] is the queue object
    whose method issued it. *)
Definition apply_action (q : nat) (a : MessageQueue.Action) (w : World) : World :=
  match a with
  | MessageQueue.Resolve p m => settle p (Resolved m) w
  | MessageQueue.Reject p err => settle p (Rejected err) w
  | MessageQueue.ClearTimeout id => clearTimeout id w
  | MessageQueue.SetTimeout id delay p => setTimeout id delay (DequeueTimeout q p) w
  end.

Definition apply_actions (q : nat) (acts : list MessageQueue.Action) (w : World)
  : World :=
  fold_left (fun w a => apply_action q a w) acts w.

(** Run a queue method on the object [q]. *)
Definition on_queue (q : nat)
  (method : MessageQueue.t -> MessageQueue.t * list MessageQueue.Action)
  (w : World) : World :=
  match lookup_queue (heap w) q with
  | Some s =>
      let '(s', acts) := method s in
      apply_actions q acts (set_heap (store_queue (heap w) q s') w)
  | None => w
  end.

Definition log_close (q : nat) (w : World) : World :=
  {| now := now w; fresh := fresh w; timers := timers w; settled := settled w;
     heap := heap w; connections := connections w;
     messageQueues := messageQueues w;
     reconnectGraceTimer := reconnectGraceTimer w; emitted := emitted w;
     close_calls := close_calls w ++ [q] |}.

Definition queue_close (q : nat) (w : World) : World :=
  on_queue q MessageQueue.close (log_close q w).

Definition queue_enqueue (q : nat) (m : QueueMessage) (w : World) : World :=
  on_queue q (fun s => MessageQueue.enqueue s m) w.

(** [queue.dequeue(timeoutMs)] on the object [q]: the world after the call
    and either the error thrown or the promise returned. *)
Definition queue_dequeue (q : nat) (timeoutMs : Z) (w : World)
  : World * (string + nat) :=
  match lookup_queue (heap w) q with
  | Some s =>
      let p := fresh w in
      let timer := S (fresh w) in
      match MessageQueue.dequeue s timeoutMs p timer with
      | MessageQueue.Throws err => (w, inl err)
      | MessageQueue.Returns s' acts =>
          (apply_actions q acts
             (set_heap (store_queue (heap w) q s')
                (set_fresh (S (S (fresh w))) w)),
           inr p)
      end
  | None => (w, inl "no such queue")
  end.

(** *** The registry's methods *)

(** [Map.prototype.set]. *)
Fixpoint map_set (m : list (string * nat)) (k : string) (v : nat)
  : list (string * nat) :=
  match m with
  | [] => [(k, v)]
  | (k', v') :: m' =>
      if String.eqb k' k then (k, v) :: m' else (k', v') :: map_set m' k v
  end.

(** [Map.prototype.get]. *)
Fixpoint map_get (m : list (string * nat)) (k : string) : option nat :=
  match m with
  | [] => None
  | (k', v) :: m' => if String.eqb k' k then Some v else map_get m' k
  end.

(** [Map.prototype.delete]. *)
Definition map_delete (m : list (string * nat)) (k : string)
  : list (string * nat) :=
  filter (fun kv => negb (String.eqb (fst kv) k)) m.

Definition addConnection (websocket : nat) (w : World) : World :=
  let w1 :=
    match reconnectGraceTimer w with
    | Some id => set_reconnectGraceTimer None (clearTimeout id w)
    | None => w
    end in
  let w2 :=
    set_connections
      (if existsb (Nat.eqb websocket) (connections w1) then connections w1
       else connections w1 ++ [websocket]) w1 in
  emit (connectionAdded websocket) w2.

Definition graceDelay : Z := 5000.

Definition _removeConnection (websocket : nat) (w : World) : World :=
  let w1 :=
    set_connections
      (filter (fun c => negb (Nat.eqb c websocket)) (connections w)) w in
  let id := fresh w1 in
  let w2 := setTimeout id graceDelay GraceCleanup (set_fresh (S id) w1) in
  let w3 := set_reconnectGraceTimer (Some id) w2 in
  emit (connectionRemoved websocket) w3.

(** The callback [_removeConnection] hands to [setTimeout]. *)
Definition graceCleanup (w : World) : World :=
  let w1 :=
    fold_left (fun w kv => queue_close (snd kv) w) (messageQueues w) w in
  let w2 := set_messageQueues [] w1 in
  emit connectionLost w2.

Definition _routeMessage (m : ParsedMessage) (queue : nat) (w : World) : World :=
  match event_type m with
  | Some et =>
      if (String.eqb et "response_headers" || String.eqb et "chunk" ||
          String.eqb et "error")%bool
      then queue_enqueue queue (Frame m) w
      else if String.eqb et "stream_close"
      then queue_enqueue queue STREAM_END w
      else w
  | None => w
  end.

(** [_handleIncomingMessage]; [parsed] is [None] when [JSON.parse] throws. *)
Definition _handleIncomingMessage (parsed : option ParsedMessage) (w : World)
  : World :=
  match parsed with
  | Some m =>
      match request_id m with
      | Some requestId =>
          if JS.truthy requestId then
            match map_get (messageQueues w) requestId with
            | Some queue => _routeMessage m queue w
            | None => w
            end
          else w
      | None => w
      end
  | None => w
  end.

Definition hasActiveConnections (w : World) : bool :=
  (0 <? List.length (connections w))%nat.

Definition getFirstConnection (w : World) : option nat := hd_error (connections w).

Definition createMessageQueue (requestId : string) (w : World) : World * nat :=
  let queue := fresh w in
  let w1 := set_heap (heap w ++ [(queue, MessageQueue.create)])
              (set_fresh (S queue) w) in
  (set_messageQueues (map_set (messageQueues w1) requestId queue) w1, queue).

Definition removeMessageQueue (requestId : string) (w : World) : World :=
  match map_get (messageQueues w) requestId with
  | Some queue =>
      let w1 := queue_close queue w in
      set_messageQueues (map_delete (messageQueues w1) requestId) w1
  | None => w
  end.

(** *** Time *)

(** Run the callback of a timer that is still pending, at its deadline. *)
Definition fire (tm : Timer) (w : World) : World :=
  if existsb (fun tm' => Nat.eqb (timer_id tm') (timer_id tm)) (timers w) then
    let w1 := clearTimeout (timer_id tm) (set_now (Z.max (now w) (deadline tm)) w) in
    match callback tm with
    | DequeueTimeout q p => on_queue q (fun s => MessageQueue.on_timeout s p) w1
    | GraceCleanup => graceCleanup w1
    end
  else w.

Fixpoint insert_timer (tm : Timer) (l : list Timer) : list Timer :=
  match l with
  | [] => [tm]
  | tm' :: l' =>
      if Z.leb (deadline tm') (deadline tm) then tm' :: insert_timer tm l'
      else tm :: l
  end.

(** Timers in the order the runtime fires them: by deadline, and for equal
    deadlines in the order they were set. *)
Definition by_deadline (l : list Timer) : list Timer :=
  fold_left (fun acc tm => insert_timer tm acc) l [].

Definition fire_all (l : list Timer) (w : World) : World :=
  fold_left (fun w tm => fire tm w) l w.

(** Let time pass until [t]: every pending timer whose deadline has come
    fires. (No callback of this module sets a new timer.) *)
Definition advance (t : Z) (w : World) : World :=
  let due := filter (fun tm => Z.leb (deadline tm) t) (timers w) in
  set_now (Z.max (now w) t) (fire_all (by_deadline due) w).

End Registry.

(** ** Observations on queues and on the registry *)

Module Observe.

(** A call of one of the four queue methods, and the queue after it. *)
Inductive Call :=
| Enqueue (m : QueueMessage)
| Dequeue (timeoutMs : Z) (p timer : nat)
| Timeout (p : nat)
| Close.

Definition call (q : MessageQueue.t) (c : Call) : MessageQueue.t :=
  match c with
  | Enqueue m => fst (MessageQueue.enqueue q m)
  | Dequeue timeoutMs p timer =>
      match MessageQueue.dequeue q timeoutMs p timer with
      | MessageQueue.Throws _ => q
      | MessageQueue.Returns q' _ => q'
      end
  | Timeout p => fst (MessageQueue.on_timeout q p)
  | Close => fst (MessageQueue.close q)
  end.

(** The promises an action list rejects, with the error message. *)
Definition rejections (acts : list MessageQueue.Action) : list (nat * string) :=
  flat_map (fun a => match a with
                     | MessageQueue.Reject p err => [(p, err)]
                     | _ => []
                     end) acts.

(** The promises an action list resolves. *)
Definition resolutions (acts : list MessageQueue.Action) : list nat :=
  flat_map (fun a => match a with
                     | MessageQueue.Resolve p _ => [p]
                     | _ => []
                     end) acts.

(** The timers an action list clears. *)
Definition cleared (acts : list MessageQueue.Action) : list nat :=
  flat_map (fun a => match a with
                     | MessageQueue.ClearTimeout id => [id]
                     | _ => []
                     end) acts.

Definition is_grace (tm : Registry.Timer) : bool :=
  match Registry.callback tm with
  | Registry.GraceCleanup => true
  | Registry.DequeueTimeout _ _ => false
  end.

(** The pending timers that would run the grace cleanup. *)
Definition grace_pending (w : Registry.World) : list Registry.Timer :=
  filter is_grace (Registry.timers w).


(** How many times [connectionLost] was emitted. *)
Definition lost_count (w : Registry.World) : nat :=
  List.length
    (filter (fun e => match e with Registry.connectionLost => true | _ => false end)
            (Registry.emitted w)).


(** Names handed out so far are below [fresh]. *)
Definition timers_named (w : Registry.World) : Prop :=
  Forall (fun tm => (Registry.timer_id tm < Registry.fresh w)%nat)
         (Registry.timers w).


(** The settlements an action list makes. *)
Definition settlements (acts : list MessageQueue.Action) : list (nat * Registry.Settlement) :=
  flat_map (fun a => match a with
                     | MessageQueue.Resolve p m => [(p, Registry.Resolved m)]
                     | MessageQueue.Reject p err => [(p, Registry.Rejected err)]
                     | _ => []
                     end) acts.


End Observe.

(** ** A deployment with one backchannel *)

Module Session.
Import Registry.

(** What happens to the registry of a deployment with one browser tab.
    The source does not enforce this: its registry accepts any number of
    sockets. What is proved of these events is proved of such a
    deployment only. *)
Inductive Event :=
| Connect (websocket : nat)                  (* the tab's socket is accepted *)
| Disconnect (websocket : nat)               (* its [close] event *)
| Create (requestId : string)                (* [createMessageQueue] *)
| Remove (requestId : string)                (* [removeMessageQueue] *)
| Receive (parsed : option ParsedMessage)    (* a frame on the socket *)
| Wait (queue : nat) (timeoutMs : Z)         (* [queue.dequeue(timeoutMs)] *)
| Pass (t : Z).                              (* time passes until [t] *)

Definition step (e : Event) (w : World) : World :=
  match e with
  | Connect websocket => addConnection websocket w
  | Disconnect websocket => _removeConnection websocket w
  | Create requestId => fst (createMessageQueue requestId w)
  | Remove requestId => removeMessageQueue requestId w
  | Receive parsed => _handleIncomingMessage parsed w
  | Wait queue timeoutMs => fst (queue_dequeue queue timeoutMs w)
  | Pass t => advance t w
  end.

(** The tab connects when no socket is connected, and the socket that
    closes is a connected one. *)
Definition allowed (e : Event) (w : World) : bool :=
  match e with
  | Connect _ => match connections w with [] => true | _ :: _ => false end
  | Disconnect websocket => existsb (Nat.eqb websocket) (connections w)
  | _ => true
  end.

Fixpoint run (es : list Event) (w : World) : option World :=
  match es with
  | [] => Some w
  | e :: es' => if allowed e w then run es' (step e w) else None
  end.

(** What holds of the timers between events. *)
Record inv (w : World) : Prop := {
  inv_named : Observe.timers_named w;
  inv_one : (List.length (connections w) <= 1)%nat;
  inv_handle : forall tm, In tm (timers w) -> Observe.is_grace tm = true ->
                          reconnectGraceTimer w = Some (timer_id tm);
  inv_connected : connections w <> [] -> Observe.grace_pending w = []
}.

(** What the events other than connecting and disconnecting leave alone. *)
Record quiet (w w' : World) : Prop := {
  q_connections : connections w' = connections w;
  q_handle : reconnectGraceTimer w' = reconnectGraceTimer w;
  q_fresh : (fresh w <= fresh w')%nat;
  q_timers : forall tm, In tm (timers w') ->
      In tm (timers w) \/
      (Observe.is_grace tm = false /\ (timer_id tm < fresh w')%nat)
}.

(** Every timer an action list sets has a name below [n]. *)
Definition sets_below (n : nat) (acts : list MessageQueue.Action) : Prop :=
  forall id d p, In (MessageQueue.SetTimeout id d p) acts -> (id < n)%nat.

End Session.

(** A registry with one connection and one request waiting on its queue. *)
Definition one_waiting_request : Registry.World :=
  let w1 := Registry.addConnection 1 Registry.init in
  let '(w2, q) := Registry.createMessageQueue "r1" w1 in
  fst (Registry.queue_dequeue q 600000 w2).

(** ** [RequestHandler]: admission, delivery and rotation *)

Module Handler.

(** *** State *)

(** The rotation and concurrency fields of [RequestHandler], with
    [browserManager.currentAuthIndex], which the handler reads through its
    [currentAuthIndex] getter. *)
Record HandlerState := {
  usageCount : Z;
  activeRequestCount : Z;
  pendingSwitch : bool;
  isAuthSwitching : bool;
  isSystemBusy : bool;
  currentAuthIndex : Z
}.

(** [new RequestHandler(...)] on a browser manager at index [i]. *)
Definition initial (i : Z) : HandlerState :=
  {| usageCount := 0; activeRequestCount := 0; pendingSwitch := false;
     isAuthSwitching := false; isSystemBusy := false; currentAuthIndex := i |}.

(** The Express response object of the request at hand. *)
Record Response := {
  statusCode : Z;
  headersSent : bool;
  writableEnded : bool
}.

Definition fresh_response : Response :=
  {| statusCode := 200; headersSent := false; writableEnded := false |}.

(** The configuration the handler reads: [config] and the switches of
    [serverSystem]. *)
Record Config := {
  switchOnUses : Z;
  immediateSwitchStatusCodes : list Z;
  availableIndices : list Z;           (* [authSource.availableIndices] *)
  streamingMode : string;              (* [serverSystem.streamingMode] *)
  redirect25to30 : bool;
  enableReasoning : bool
}.

(** An inbound native-dialect request. *)
Record Request := {
  method : string;
  path : string;
  accept : option string               (* [req.headers.accept] *)
}.

(** An inbound chat-dialect request. [chat] is [None] for a body on which
    the translation throws (no [messages] array, for instance). *)
Record OpenAIRequest := {
  stream : bool;                       (* [req.body.stream === true] *)
  model : option string;
  chat : option Translator.OpenAIBody
}.

(** The envelope sent on the backchannel. The fields copied from the
    request unchanged (headers, query, resume settings) are left out. *)
Record ProxyRequest := {
  pr_path : string;
  pr_method : string;
  pr_body : option string;               (* [None] is null *)
  pr_request_id : string;
  pr_streaming_mode : string;
  pr_is_generative : bool
}.

(** What is written to the client. *)
Inductive Chunk :=
| KeepAlive                            (* ": keep-alive" *)
| ErrorChunk (errorMessage : string)   (* the payload of [_sendErrorChunkToClient] *)
| Data (text : string)
| Done.                                (* "data: [DONE]" *)

(** What a request does to the world around the handler. *)
Inductive Effect :=
| OnClose (requestId : string)                  (* [res.on("close", ...)] *)
| LaunchOrSwitchContext (authIndex : option Z)  (* [browserManager.launchOrSwitchContext] *)
| SwitchAccount (newAuthIndex : option Z)       (* [browserManager.switchAccount] *)
| CreateMessageQueue (requestId : string)
| RemoveMessageQueue (requestId : string)
| Forward (proxyRequest : ProxyRequest)         (* [connection.send(...)] *)
| Dequeue (timeoutMs : Z)                       (* [messageQueue.dequeue(timeoutMs)] *)
| SendError (status : Z) (message : string)     (* the send of [_sendErrorResponse] *)
| SendBody (status : Z) (body : string)         (* [res.status(..).send(..)] or [.json(..)] *)
| SetHeaders (status : Z)                       (* [res.status(..).set(..)] *)
| Write (chunk : Chunk)                         (* [res.write(..)] *)
| End_.                                         (* [res.end()] *)

(** An effect, with the handler state and the response as they are when it
    happens. *)
Record Snapshot := {
  at_state : HandlerState;
  at_response : Response;
  effect : Effect
}.

(** What the next [dequeue] of this request's queue yields. *)
Inductive DequeueOutcome :=
| Arrives (m : QueueMessage)
| Fails (err : string).

(** The surroundings of one request: what the collaborators answer. The
    last six fields are the payload transformations, which build the
    text that is sent and decide nothing else. *)
Record Env := {
  requestIds : nat -> string;          (* the results of [_generateRequestId], in order *)
  connected : nat -> bool;             (* is there a backchannel connection, at each look *)
  browser : nat -> option string;      (* each attempt to establish a session on an
                                          available index: [None] succeeds, [Some e] throws [e] *)
  ticks : nat -> nat;                  (* keep-alive intervals elapsing during each wait of
                                          the pseudo-stream handler *)
  buildBody : Request -> string;       (* the body of [_buildProxyRequest] *)
  stringifyBody : Translator.GoogleRequest -> string;  (* [JSON.stringify] of the translated body *)
  rewriteInlineImage : string -> string;               (* the post-processing of the non-stream body *)
  translateChunk : string -> string -> option string;  (* [_translateGoogleToOpenAIStream] *)
  makeResponse : string -> string -> string -> string + string;
    (* the chat-dialect response built from the full body, or the parse error *)
  makeModelList : string -> string + string
    (* the reshaped model list, or the error thrown while reshaping *)
}.

Record World := {
  hs : HandlerState;
  res : Response;
  queue : list DequeueOutcome;         (* what this request's queue will yield *)
  ids_used : nat;
  looks : nat;
  browser_calls : nat;
  trace : list Snapshot
}.

(** A request in delivery: the handler is in state [s], the response is
    untouched, the queue will yield [q]; [i], [l] and [b] count the request
    ids drawn, the looks at the connection and the sessions attempted so
    far. *)
Definition delivering (i l b : nat) (s : HandlerState)
  (q : list DequeueOutcome) : World :=
  {| hs := s; res := {| statusCode := 200; headersSent := false;
                        writableEnded := false |};
     queue := q; ids_used := i; looks := l; browser_calls := b; trace := [] |}.

(** A request that arrives. *)
Definition start (s : HandlerState) (r : Response) (q : list DequeueOutcome) : World :=
  {| hs := s; res := r; queue := q; ids_used := O; looks := O;
     browser_calls := O; trace := [] |}.

(** *** The monad: state, and exceptions as error messages *)

Inductive Result (A : Type) :=
| Ok (a : A)
| Throw (err : string).
Arguments Ok {A} a.
Arguments Throw {A} err.

Definition M (A : Type) : Type := World -> Result A * World.

Definition ret {A} (a : A) (w : World) : Result A * World := (Ok a, w).

Definition throw {A} (err : string) (w : World) : Result A * World :=
  (Throw err, w).

Definition bind {A B} (m : M A) (k : A -> M B) (w : World)
  : Result B * World :=
  match m w with
  | (Ok a, w') => k a w'
  | (Throw e, w') => (Throw e, w')
  end.

Notation "x <- c1 ;; c2" := (bind c1 (fun x => c2))
  (at level 61, c1 at next level, right associativity).
Notation "c1 ;; c2" := (bind c1 (fun _ => c2))
  (at level 61, right associativity).

(** [try { m } catch (e) { h e }]. *)
Definition try_catch {A} (m : M A) (h : string -> M A) (w : World)
  : Result A * World :=
  match m w with
  | (Ok a, w') => (Ok a, w')
  | (Throw e, w') => h e w'
  end.

(** [try { m } finally { f }]. *)
Definition try_finally {A} (m : M A) (f : M unit) (w : World)
  : Result A * World :=
  match m w with
  | (r, w') =>
      match f w' with
      | (Ok _, w'') => (r, w'')
      | (Throw e, w'') => (Throw e, w'')
      end
  end.

Definition when (b : bool) (m : M unit) : M unit := if b then m else ret tt.

Definition get (w : World) : Result HandlerState * World := (Ok (hs w), w).

Definition get_res (w : World) : Result Response * World := (Ok (res w), w).

Definition modify (f : HandlerState -> HandlerState) (w : World)
  : Result unit * World :=
  (Ok tt,
   {| hs := f (hs w); res := res w; queue := queue w;
      ids_used := ids_used w; looks := looks w;
      browser_calls := browser_calls w; trace := trace w |}).

Definition modify_res (f : Response -> Response) (w : World)
  : Result unit * World :=
  (Ok tt,
   {| hs := hs w; res := f (res w); queue := queue w;
      ids_used := ids_used w; looks := looks w;
      browser_calls := browser_calls w; trace := trace w |}).

(** Record an effect, with the state it happens in. *)
Definition emit (e : Effect) (w : World) : Result unit * World :=
  (Ok tt,
   {| hs := hs w; res := res w; queue := queue w;
      ids_used := ids_used w; looks := looks w;
      browser_calls := browser_calls w;
      trace := (trace w ++
                [{| at_state := hs w; at_response := res w; effect := e |}])%list |}).

(** *** Field updates of the handler *)

Definition set_usageCount (n : Z) (s : HandlerState) : HandlerState :=
  {| usageCount := n; activeRequestCount := activeRequestCount s;
     pendingSwitch := pendingSwitch s; isAuthSwitching := isAuthSwitching s;
     isSystemBusy := isSystemBusy s; currentAuthIndex := currentAuthIndex s |}.

Definition set_activeRequestCount (n : Z) (s : HandlerState) : HandlerState :=
  {| usageCount := usageCount s; activeRequestCount := n;
     pendingSwitch := pendingSwitch s; isAuthSwitching := isAuthSwitching s;
     isSystemBusy := isSystemBusy s; currentAuthIndex := currentAuthIndex s |}.

Definition set_pendingSwitch (b : bool) (s : HandlerState) : HandlerState :=
  {| usageCount := usageCount s; activeRequestCount := activeRequestCount s;
     pendingSwitch := b; isAuthSwitching := isAuthSwitching s;
     isSystemBusy := isSystemBusy s; currentAuthIndex := currentAuthIndex s |}.

Definition set_isAuthSwitching (b : bool) (s : HandlerState) : HandlerState :=
  {| usageCount := usageCount s; activeRequestCount := activeRequestCount s;
     pendingSwitch := pendingSwitch s; isAuthSwitching := b;
     isSystemBusy := isSystemBusy s; currentAuthIndex := currentAuthIndex s |}.

Definition set_isSystemBusy (b : bool) (s : HandlerState) : HandlerState :=
  {| usageCount := usageCount s; activeRequestCount := activeRequestCount s;
     pendingSwitch := pendingSwitch s; isAuthSwitching := isAuthSwitching s;
     isSystemBusy := b; currentAuthIndex := currentAuthIndex s |}.

Definition set_currentAuthIndex (i : Z) (s : HandlerState) : HandlerState :=
  {| usageCount := usageCount s; activeRequestCount := activeRequestCount s;
     pendingSwitch := pendingSwitch s; isAuthSwitching := isAuthSwitching s;
     isSystemBusy := isSystemBusy s; currentAuthIndex := i |}.

(** [this.activeRequestCount++] and [this.activeRequestCount--]. *)
Definition incr_active : M unit :=
  modify (fun s => set_activeRequestCount (activeRequestCount s + 1) s).

Definition decr_active : M unit :=
  modify (fun s => set_activeRequestCount (activeRequestCount s - 1) s).

(** [if (this.activeRequestCount < 0) this.activeRequestCount = 0]. *)
Definition clamp_active : M unit :=
  modify (fun s => if activeRequestCount s <? 0
                   then set_activeRequestCount 0 s else s).

(** *** The response object *)

Definition res_write (c : Chunk) : M unit :=
  emit (Write c) ;;
  modify_res (fun r => {| statusCode := statusCode r; headersSent := true;
                          writableEnded := writableEnded r |}).

Definition res_end : M unit :=
  emit End_ ;;
  modify_res (fun r => {| statusCode := statusCode r; headersSent := true;
                          writableEnded := true |}).

(** [res.status(status).set(...)]: Express throws once the headers are out. *)
Definition res_set (status : Z) : M unit :=
  r <- get_res ;;
  if headersSent r then throw "Cannot set headers after they are sent to the client"
  else
    emit (SetHeaders status) ;;
    modify_res (fun r => {| statusCode := status; headersSent := headersSent r;
                            writableEnded := writableEnded r |}).

(** [res.status(status).type(..).send(body)] and [res.status(status).json(..)]. *)
Definition res_send (status : Z) (body : string) : M unit :=
  r <- get_res ;;
  if headersSent r then throw "Cannot set headers after they are sent to the client"
  else
    emit (SendBody status body) ;;
    modify_res (fun _ => {| statusCode := status; headersSent := true;
                            writableEnded := true |}).

(** [status || dflt]. *)
Definition status_or (status : option Z) (dflt : Z) : Z :=
  match status with
  | Some n => if n =? 0 then dflt else n
  | None => dflt
  end.

Definition _sendErrorResponse (status : option Z) (message : string) : M unit :=
  r <- get_res ;;
  if negb (headersSent r) then
    emit (SendError (status_or status 500) message) ;;
    modify_res (fun _ => {| statusCode := status_or status 500;
                            headersSent := true; writableEnded := true |})
  else ret tt.

Definition _sendErrorChunkToClient (errorMessage : string) : M unit :=
  r <- get_res ;;
  when (negb (writableEnded r)) (res_write (ErrorChunk errorMessage)).

(** *** The collaborators *)

Section Methods.

Variable cfg : Config.
Variable env : Env.

(** The keep-alive interval of the pseudo-stream handler, one firing. The
    interval is cleared in the handler's [finally]; it runs during the
    handler's waits on the queue, and during [_handleRequestFailureAndSwitch]
    only when the response has ended, where a firing writes nothing. *)
Definition keepAlive_tick : M unit :=
  r <- get_res ;;
  when (negb (writableEnded r)) (res_write KeepAlive).

Fixpoint repeat_ticks (n : nat) : M unit :=
  match n with
  | O => ret tt
  | S n' => keepAlive_tick ;; repeat_ticks n'
  end.

Definition _generateRequestId (w : World) : Result string * World :=
  (Ok (requestIds env (ids_used w)),
   {| hs := hs w; res := res w; queue := queue w;
      ids_used := S (ids_used w); looks := looks w;
      browser_calls := browser_calls w; trace := trace w |}).

(** [connectionRegistry.hasActiveConnections()], and whether
    [getFirstConnection()] returns a connection. *)
Definition hasActiveConnections (w : World) : Result bool * World :=
  (Ok (connected env (looks w)),
   {| hs := hs w; res := res w; queue := queue w;
      ids_used := ids_used w; looks := S (looks w);
      browser_calls := browser_calls w; trace := trace w |}).

Definition _forwardRequest (proxyRequest : ProxyRequest) : M unit :=
  connection <- hasActiveConnections ;;
  if connection then emit (Forward proxyRequest)
  else throw "无法转发请求：没有可用的WebSocket连接。".

(** What the queue yields next. When it yields nothing more, the wait ends
    with the error [onSilence]. *)
Definition pop (onSilence : string) (w : World) : Result QueueMessage * World :=
  match queue w with
  | [] => (Throw onSilence, w)
  | o :: rest =>
      let w' := {| hs := hs w; res := res w; queue := rest;
                   ids_used := ids_used w; looks := looks w;
                   browser_calls := browser_calls w; trace := trace w |} in
      match o with
      | Arrives m => (Ok m, w')
      | Fails err => (Throw err, w')
      end
  end.

(** [await messageQueue.dequeue(timeoutMs)]. *)
Definition dequeue (timeoutMs : Z) : M QueueMessage :=
  emit (Dequeue timeoutMs) ;;
  pop "Queue timeout".

(** The same wait while the keep-alive interval of the pseudo-stream
    handler runs: it fires [ticks env k] times during the [k]-th wait. *)
Definition dequeue_ticking (k : nat) (onSilence : string) (timeoutMs : Z)
  : M QueueMessage :=
  emit (Dequeue timeoutMs) ;;
  repeat_ticks (ticks env k) ;;
  pop onSilence.

Definition show_index (i : option Z) : string :=
  match i with
  | Some n => NilZero.string_of_int (Z.to_int n)
  | None => "null"
  end.

(** One attempt of the browser manager to set up a session on an available
    index; the collaborator decides how it ends. *)
Definition establish_session (w : World) : Result unit * World :=
  let w' := {| hs := hs w; res := res w; queue := queue w;
               ids_used := ids_used w; looks := looks w;
               browser_calls := S (browser_calls w); trace := trace w |} in
  match browser env (browser_calls w) with
  | None => (Ok tt, w')
  | Some err => (Throw err, w')
  end.

(** [await browserManager.launchOrSwitchContext(authIndex)]: it throws for
    an index [getAuth] does not know; otherwise the collaborator decides,
    and on success [currentAuthIndex] becomes [authIndex]. *)
Definition launchOrSwitchContext (authIndex : option Z) : M unit :=
  emit (LaunchOrSwitchContext authIndex) ;;
  match authIndex with
  | Some i =>
      if JS.includes (availableIndices cfg) i then
        establish_session ;;
        modify (set_currentAuthIndex i)
      else throw ("Failed to get or parse auth source for index " ++
                  show_index authIndex ++ ".")
  | None => throw "Failed to get or parse auth source for index null."
  end.

(** [await browserManager.switchAccount(newAuthIndex)]. *)
Definition switchAccount (newAuthIndex : option Z) : M unit :=
  emit (SwitchAccount newAuthIndex) ;;
  launchOrSwitchContext newAuthIndex.

Definition createMessageQueue (requestId : string) : M unit :=
  emit (CreateMessageQueue requestId).

Definition removeMessageQueue (requestId : string) : M unit :=
  emit (RemoveMessageQueue requestId).

(** *** Rotation *)

(** The object [_switchToNextAuth] returns. *)
Record SwitchResult := {
  success : bool;
  fallback : bool;
  newIndex : option Z;
  reason : option string
}.

Definition _switchToNextAuth : M SwitchResult :=
  s <- get ;;
  if isAuthSwitching s then
    ret {| success := false; fallback := false; newIndex := None;
           reason := Some "Switch already in progress." |}
  else
    modify (set_isSystemBusy true) ;;
    modify (set_isAuthSwitching true) ;;
    try_finally
      (s <- get ;;
       let previousAuthIndex := currentAuthIndex s in
       let nextAuthIndex :=
         _getNextAuthIndex (availableIndices cfg) (currentAuthIndex s) in
       try_catch
         (switchAccount nextAuthIndex ;;
          modify (set_usageCount 0) ;;
          s <- get ;;
          ret {| success := true; fallback := false;
                 newIndex := Some (currentAuthIndex s); reason := None |})
         (fun error =>
            try_catch
              (launchOrSwitchContext (Some previousAuthIndex) ;;
               modify (set_usageCount 0) ;;
               s <- get ;;
               ret {| success := false; fallback := true;
                      newIndex := Some (currentAuthIndex s); reason := None |})
              (fun fallbackError => throw fallbackError)))
      (modify (set_isAuthSwitching false) ;;
       modify (set_isSystemBusy false)).

Definition _tryExecutePendingSwitch : M unit :=
  s <- get ;;
  if (pendingSwitch s && (activeRequestCount s =? 0) &&
      negb (isAuthSwitching s))%bool
  then
    try_finally
      (try_catch (_switchToNextAuth ;; ret tt) (fun err => ret tt))
      (modify (set_pendingSwitch false))
  else ret tt.

Definition show_status (status : option Z) : string :=
  match status with
  | Some n => NilZero.string_of_int (Z.to_int n)
  | None => "undefined"
  end.

(** The message the client gets when an immediate switch is triggered. *)
Definition userMsg (status : option Z) : string :=
  "[System] 检测到上游服务限制 (Code " ++ show_status status ++
  ")，正在自动切换账号，请稍后重试。".

Definition is_immediate (status : option Z) : bool :=
  match status with
  | Some n => JS.includes (immediateSwitchStatusCodes cfg) n
  | None => false
  end.

Definition _handleRequestFailureAndSwitch (errorDetails : ParsedMessage)
  : M bool :=
  let isImmediateSwitch := is_immediate (status errorDetails) in
  if isImmediateSwitch then
    r <- get_res ;;
    (if negb (headersSent r) then
       _sendErrorResponse (Some 503) (userMsg (status errorDetails)) ;;
       r <- get_res ;;
       when (negb (writableEnded r)) res_end
     else if negb (writableEnded r) then
       _sendErrorChunkToClient (userMsg (status errorDetails)) ;;
       res_end
     else ret tt) ;;
    try_catch (result <- _switchToNextAuth ;; ret tt) (fun error => ret tt) ;;
    ret true
  else ret false.

(** *** Delivery *)

Definition _handleRequestError (error : string) : M unit :=
  r <- get_res ;;
  if headersSent r then
    when (String.eqb (streamingMode cfg) "fake")
         (_sendErrorChunkToClient ("处理失败: " ++ error)) ;;
    r <- get_res ;;
    when (negb (writableEnded r)) res_end
  else
    let status := if JS.str_includes error "超时" then 504 else 500 in
    _sendErrorResponse (Some status) ("代理错误: " ++ error).

Definition is_error (m : QueueMessage) : bool :=
  match m with
  | Frame f => match event_type f with
               | Some et => String.eqb et "error"
               | None => false
               end
  | STREAM_END => false
  end.

Definition is_chunk (f : ParsedMessage) : bool :=
  match event_type f with
  | Some et => String.eqb et "chunk"
  | None => false
  end.

(** The fields of a dequeued message; the sentinel has none of them. *)
Definition fields (m : QueueMessage) : ParsedMessage :=
  match m with
  | Frame f => f
  | STREAM_END =>
      {| request_id := None; event_type := None; status := None;
         data := None; message := None |}
  end.

Definition opt_string (o : option string) : string :=
  match o with
  | Some s => s
  | None => ""
  end.

(** [m.message && m.message.includes("The user aborted a request")]. *)
Definition user_aborted (f : ParsedMessage) : bool :=
  match message f with
  | Some msg => JS.str_includes msg "The user aborted a request"
  | None => false
  end.

(** [while (true) { const m = await dequeue(timeoutMs); if (m.type ===
    "STREAM_END") break; step }], with the value the loop builds. A loop
    over a queue that yields nothing more ends by the timeout error of
    [dequeue]; [fuel] only has to exceed the number of outcomes left. *)
Fixpoint drain {S : Type} (fuel : nat) (timeoutMs : Z)
  (step : S -> ParsedMessage -> M S) (acc : S) : M S :=
  match fuel with
  | O => throw "Queue timeout"
  | Datatypes.S fuel' =>
      m <- dequeue timeoutMs ;;
      match m with
      | STREAM_END => ret acc
      | Frame f => acc' <- step acc f ;; drain fuel' timeoutMs step acc'
      end
  end.

Definition drain_queue {S : Type} (timeoutMs : Z)
  (step : S -> ParsedMessage -> M S) (acc : S) (w : World) : Result S * World :=
  drain (Datatypes.S (List.length (queue w))) timeoutMs step acc w.

(** A loop body that leaves the queue to the loop. *)
Definition keeps_queue {S : Type} (step : S -> ParsedMessage -> M S) : Prop :=
  forall acc f w, queue (snd (step acc f w)) = queue w.

(** The loop body that collects the data of the chunk frames. *)
Definition collect (fullBody : string) (f : ParsedMessage) : M string :=
  ret (if (is_chunk f && Config.opt_truthy (data f))%bool
       then fullBody ++ opt_string (data f) else fullBody).

Definition _handleRealStreamResponse (proxyRequest : ProxyRequest) : M unit :=
  _forwardRequest proxyRequest ;;
  headerMessage <- dequeue MessageQueue.defaultTimeout ;;
  if is_error headerMessage then
    if user_aborted (fields headerMessage) then
      r <- get_res ;;
      when (negb (writableEnded r)) res_end
    else
      handled <- _handleRequestFailureAndSwitch (fields headerMessage) ;;
      if handled then ret tt
      else _sendErrorResponse (status (fields headerMessage))
                              (opt_string (message (fields headerMessage)))
  else
    res_set (status_or (status (fields headerMessage)) 200) ;;
    try_finally
      (try_catch
         (drain_queue 30000
            (fun (_ : unit) f =>
               when (Config.opt_truthy (data f))
                    (res_write (Data (opt_string (data f)))))
            tt)
         (fun error =>
            if String.eqb error "Queue timeout" then ret tt else throw error))
      (r <- get_res ;; when (negb (writableEnded r)) res_end).

Definition _handleNonStreamResponse (proxyRequest : ProxyRequest) : M unit :=
  _forwardRequest proxyRequest ;;
  try_catch
    (headerMessage <- dequeue MessageQueue.defaultTimeout ;;
     if is_error headerMessage then
       handled <-
         (if user_aborted (fields headerMessage) then ret false
          else _handleRequestFailureAndSwitch (fields headerMessage)) ;;
       if handled then ret tt
       else _sendErrorResponse
              (Some (status_or (status (fields headerMessage)) 500))
              (opt_string (message (fields headerMessage)))
     else
       fullBody <- drain_queue 300000 collect "" ;;
       let fullBody := rewriteInlineImage env fullBody in
       res_send (status_or (status (fields headerMessage)) 200)
                (if JS.truthy fullBody then fullBody else "{}"))
    (fun error => _handleRequestError error).

Definition _handlePseudoStreamResponse (proxyRequest : ProxyRequest) : M unit :=
  res_set 200 ;;
  try_finally
    (try_catch
       (_forwardRequest proxyRequest ;;
        lastMessage <-
          try_catch
            (dequeue_ticking 0 "Response from browser timed out after 300 seconds"
                             MessageQueue.defaultTimeout)
            (fun timeoutError =>
               ret (Frame {| request_id := None; event_type := Some "error";
                             status := Some 504; data := None;
                             message := Some timeoutError |})) ;;
        if is_error lastMessage then
          if user_aborted (fields lastMessage) then ret tt
          else
            handled <- _handleRequestFailureAndSwitch (fields lastMessage) ;;
            when (negb handled)
                 (_sendErrorChunkToClient
                    ("请求失败: " ++ opt_string (message (fields lastMessage))))
        else
          dataMessage <- dequeue_ticking 1 "Queue timeout" MessageQueue.defaultTimeout ;;
          endMessage <- dequeue_ticking 2 "Queue timeout" MessageQueue.defaultTimeout ;;
          when (Config.opt_truthy (data (fields dataMessage)))
               (res_write (Data ("data: " ++ opt_string (data (fields dataMessage))))) ;;
          res_write Done)
       (fun error => _handleRequestError error))
    (r <- get_res ;;
     when (negb (writableEnded r)) res_end).

(** *** The request handlers *)

Definition isGenerativeRequest (req : Request) : bool :=
  (String.eqb (method req) "POST" &&
   (JS.str_includes (path req) "generateContent" ||
    JS.str_includes (path req) "streamGenerateContent"))%bool.

Definition wantsStream (req : Request) : bool :=
  (match accept req with
   | Some a => JS.truthy a && JS.str_includes a "text/event-stream"
   | None => false
   end || JS.str_includes (path req) ":streamGenerateContent")%bool.

(** [String.prototype.replace] with a string pattern: the first occurrence. *)
Fixpoint replace_first (pat by_ s : string) : string :=
  if (JS.truthy pat && String.prefix pat s)%bool
  then by_ ++ JS.drop (String.length pat) s
  else match s with
       | EmptyString => EmptyString
       | String c s' => String c (replace_first pat by_ s')
       end.

Definition _buildProxyRequest (req : Request) (requestId : string) : ProxyRequest :=
  {| pr_path := path req; pr_method := method req;
     pr_body := Some (buildBody env req);
     pr_request_id := requestId; pr_streaming_mode := streamingMode cfg;
     pr_is_generative := false |}.

(** The usage accounting of an admitted request. *)
Definition count_usage (counts : bool) : M unit :=
  s <- get ;;
  when ((0 <? switchOnUses cfg) && counts && negb (pendingSwitch s))%bool
       (modify (fun s => set_usageCount (usageCount s + 1) s) ;;
        s <- get ;;
        when (switchOnUses cfg <=? usageCount s)
             (modify (set_pendingSwitch true))).

Definition msg_rotating : string :=
  "Server is rotating accounts, please retry shortly.".

Definition msg_maintenance : string :=
  "服务器正在进行内部维护（账号切换/恢复），请稍后重试。".

Definition msg_crashed : string :=
  "服务暂时不可用：后端浏览器实例崩溃且无法自动恢复，请联系管理员。".

(** The [finally] block of [processRequest], with the rotation it may
    start run to its end. The call of [_tryExecutePendingSwitch] is not
    awaited: the handler returns while that rotation is still running,
    with both guards held, and nothing follows the call in the handler, so
    that the run of the routine is the rest of the request's effects. What
    holds of the state after [processRequest] holds once that rotation is
    over; the state at the return of the handler is that of
    [Returning.processRequest_returns]. *)
Definition completeRequest (requestId : string) : M unit :=
  removeMessageQueue requestId ;;
  decr_active ;;
  clamp_active ;;
  _tryExecutePendingSwitch.

(** The [finally] block of [processOpenAIRequest], in the same way: the
    state at the return of the handler is that of
    [Returning.processOpenAIRequest_returns]. *)
Definition completeOpenAIRequest (requestId : string) : M unit :=
  removeMessageQueue requestId ;;
  r <- get_res ;;
  when (negb (writableEnded r)) res_end ;;
  decr_active ;;
  clamp_active ;;
  _tryExecutePendingSwitch.

(** The outcome of the crash-recovery block of [processRequest]. *)
Inductive Recovery := Proceed | Returned.

(** The admission part of [processRequest], up to the second busy check:
    the id of the request when it is admitted, [None] when the handler has
    answered and returned. *)
Definition admitRequest : M (option string) :=
  s <- get ;;
  if (pendingSwitch s || isAuthSwitching s)%bool then
    _sendErrorResponse (Some 503) msg_rotating ;;
    ret None
  else
    incr_active ;;
    requestId <- _generateRequestId ;;
    emit (OnClose requestId) ;;
    connection <- hasActiveConnections ;;
    recovery <-
      (if negb connection then
         s <- get ;;
         if isSystemBusy s then
           decr_active ;;
           _sendErrorResponse (Some 503) msg_maintenance ;;
           ret Returned
         else
           modify (set_isSystemBusy true) ;;
           try_finally
             (try_catch
                (s <- get ;;
                 launchOrSwitchContext (Some (currentAuthIndex s)) ;;
                 ret Proceed)
                (fun error =>
                   decr_active ;;
                   modify (set_isSystemBusy false) ;;
                   _sendErrorResponse (Some 503) msg_crashed ;;
                   ret Returned))
             (modify (set_isSystemBusy false))
       else ret Proceed) ;;
    match recovery with
    | Returned => ret None
    | Proceed =>
        s <- get ;;
        if isSystemBusy s then
          decr_active ;;
          _sendErrorResponse (Some 503) msg_maintenance ;;
          ret None
        else ret (Some requestId)
    end.

Definition processRequest (req : Request) : M unit :=
  granted <- admitRequest ;;
  match granted with
  | None => ret tt
  | Some requestId =>
      count_usage (isGenerativeRequest req) ;;
      let proxyRequest0 := _buildProxyRequest req requestId in
      let path1 :=
        if (redirect25to30 cfg && JS.truthy (pr_path proxyRequest0) &&
            JS.str_includes (pr_path proxyRequest0) "gemini-2.5-pro")%bool
        then replace_first "gemini-2.5-pro" "gemini-3-pro-preview"
                           (pr_path proxyRequest0)
        else pr_path proxyRequest0 in
      let proxyRequest :=
        {| pr_path := path1; pr_method := pr_method proxyRequest0;
           pr_body := pr_body proxyRequest0;
           pr_request_id := requestId;
           pr_streaming_mode :=
             if wantsStream req then pr_streaming_mode proxyRequest0
             else "fake";
           pr_is_generative := isGenerativeRequest req |} in
      createMessageQueue requestId ;;
      try_finally
        (try_catch
           (if wantsStream req then
              if String.eqb (streamingMode cfg) "fake"
              then _handlePseudoStreamResponse proxyRequest
              else _handleRealStreamResponse proxyRequest
            else _handleNonStreamResponse proxyRequest)
           (fun error => _handleRequestError error))
        (completeRequest requestId)
  end.

(** The [try] block of [processOpenAIRequest]. *)
Definition deliverOpenAI (isOpenAIStream : bool) (model requestId : string)
  (proxyRequest : ProxyRequest) : M unit :=
  _forwardRequest proxyRequest ;;
  initialMessage <- dequeue MessageQueue.defaultTimeout ;;
  if is_error initialMessage then
    handled <- _handleRequestFailureAndSwitch (fields initialMessage) ;;
    if handled then ret tt
    else if isOpenAIStream then
      r <- get_res ;;
      when (negb (writableEnded r)) (res_write Done ;; res_end)
    else
      _sendErrorResponse
        (Some (status_or (status (fields initialMessage)) 500))
        (opt_string (message (fields initialMessage)))
  else if isOpenAIStream then
    res_set 200 ;;
    drain_queue 300000
      (fun (_ : unit) f =>
         when (Config.opt_truthy (data f))
              (match translateChunk env (opt_string (data f)) model with
               | Some translatedChunk => res_write (Data translatedChunk)
               | None => ret tt
               end))
      tt ;;
    res_write Done
  else
    fullBody <- drain_queue 300000 collect "" ;;
    match makeResponse env fullBody model requestId with
    | inl openaiResponse => res_send 200 openaiResponse
    | inr parseError => throw parseError
    end.

Definition processOpenAIRequest (req : OpenAIRequest) : M unit :=
  s <- get ;;
  if (pendingSwitch s || isAuthSwitching s)%bool then
    _sendErrorResponse (Some 503) msg_rotating
  else
    incr_active ;;
    count_usage true ;;
    requestId <- _generateRequestId ;;
    let isOpenAIStream := stream req in
    let model0 :=
      match model req with
      | Some m => if JS.truthy m then m else "gemini-1.5-pro-latest"
      | None => "gemini-1.5-pro-latest"
      end in
    let model1 :=
      if (redirect25to30 cfg && String.eqb model0 "gemini-2.5-pro")%bool
      then "gemini-3-pro-preview" else model0 in
    match chat req with
    | None =>
        decr_active ;;
        _sendErrorResponse (Some 400) "Invalid OpenAI request format."
    | Some body =>
        let googleBody :=
          Translator._translateOpenAIToGoogle (enableReasoning cfg) body model1 in
        let googleEndpoint :=
          if isOpenAIStream then "streamGenerateContent" else "generateContent" in
        let proxyRequest :=
          {| pr_path := "/v1beta/models/" ++ model1 ++ ":" ++ googleEndpoint;
             pr_method := "POST";
             pr_body := Some (stringifyBody env googleBody);
             pr_request_id := requestId;
             pr_streaming_mode := "real";
             pr_is_generative := true |} in
        createMessageQueue requestId ;;
        try_finally
          (try_catch
             (deliverOpenAI isOpenAIStream model1 requestId proxyRequest)
             (fun error => _handleRequestError error))
          (completeOpenAIRequest requestId)
    end.

Definition processModelListRequest (req : Request) : M unit :=
  requestId <- _generateRequestId ;;
  let proxyRequest0 := _buildProxyRequest req requestId in
  let proxyRequest :=
    {| pr_path := "/v1beta/models"; pr_method := "GET"; pr_body := None;
       pr_request_id := requestId; pr_streaming_mode := "fake";
       pr_is_generative := false |} in
  createMessageQueue requestId ;;
  try_finally
    (try_catch
       (_forwardRequest proxyRequest ;;
        headerMessage <- dequeue MessageQueue.defaultTimeout ;;
        if is_error headerMessage then
          throw (match message (fields headerMessage) with
                 | Some msg => if JS.truthy msg then msg else "Upstream error"
                 | None => "Upstream error"
                 end)
        else
          fullBody <- drain_queue 60000 collect "" ;;
          match makeModelList env fullBody with
          | inl list => res_send 200 list
          | inr error => throw error
          end)
       (fun error => _sendErrorResponse (Some 500) "Failed to fetch model list."))
    (removeMessageQueue requestId).

(** *** Observations *)

(** How an attempt to establish a session on [authIndex] ends when it is
    the [n]-th one handed to the browser: [None] when it succeeds, the
    error otherwise. *)
Definition session_error (authIndex : option Z) (n : nat) : option string :=
  match authIndex with
  | Some i =>
      if JS.includes (availableIndices cfg) i then browser env n
      else Some ("Failed to get or parse auth source for index " ++
                 show_index authIndex ++ ".")
  | None => Some "Failed to get or parse auth source for index null."
  end.

(** The number of attempts handed to the browser after one on [authIndex]. *)
Definition next_call (authIndex : option Z) (n : nat) : nat :=
  match authIndex with
  | Some i => if JS.includes (availableIndices cfg) i then S n else n
  | None => n
  end.

End Methods.

Definition effects (tr : list Snapshot) : list Effect := map effect tr.

(** A rotation executes when [_switchToNextAuth] passes its guard and calls
    [switchAccount]. *)
Definition is_rotation (e : Effect) : bool :=
  match e with
  | SwitchAccount _ => true
  | _ => false
  end.

Definition rotations (tr : list Snapshot) : nat :=
  List.length (filter (fun x => is_rotation (effect x)) tr).

(** What the completion of the last active request adds to the trace when
    a switch is pending: exactly one rotation, started with no request
    active and the pending flag still set. *)
Definition one_deferred_rotation (new : list Snapshot) : Prop :=
  rotations new = 1%nat /\
  Forall (fun x => is_rotation (effect x) = true ->
                   activeRequestCount (at_state x) = 0 /\
                   pendingSwitch (at_state x) = true) new.

(** No snapshot of the trace shows a counter other than in [s0]. *)
Definition counters_untouched (s0 : HandlerState) (tr : list Snapshot) : Prop :=
  Forall (fun x => usageCount (at_state x) = usageCount s0 /\
                   activeRequestCount (at_state x) = activeRequestCount s0) tr.

(** The order of an immediate switch: nothing ends the response and no
    rotation starts before the error response; the response is the 503
    with [msg] when the headers are unsent, and the error chunk with [msg]
    followed by the end of the stream otherwise; everything after it sees
    an ended response; and after it a rotation to [next] starts, unless a
    switch is already in progress ([switching]), in which case none does. *)
Definition immediate_switch_order (msg : string) (switching : bool)
  (next : option Z) (tr : list Snapshot) : Prop :=
  exists pre resp post,
    tr = (pre ++ resp ++ post)%list /\
    Forall (fun x => is_rotation (effect x) = false /\
                     writableEnded (at_response x) = false) pre /\
    ((effects resp = [SendError 503 msg] /\
      Forall (fun x => headersSent (at_response x) = false) resp) \/
     (effects resp = [Write (ErrorChunk msg); End_] /\
      Forall (fun x => headersSent (at_response x) = true) resp)) /\
    Forall (fun x => writableEnded (at_response x) = true) post /\
    (if switching then rotations post = 0%nat
     else exists post', effects post = SwitchAccount next :: post').




(** The effects of a run that started with an empty trace. *)
Definition run {A} (m : M A) (w : World) : list Snapshot := trace (snd (m w)).

End Handler.

(** ** Scenarios *)

Module Scenario.
Import Handler.

(** Three credentials, rotation after every use, the default immediate
    switch codes, real streaming. *)
Definition cfg : Config :=
  {| switchOnUses := 1; immediateSwitchStatusCodes := [401; 403; 429];
     availableIndices := [1; 3; 7]; streamingMode := "real";
     redirect25to30 := false; enableReasoning := false |}.

(** Collaborators that always answer: a connection is there, every session
    is established, no keep-alive interval elapses. *)
Definition env : Env :=
  {| requestIds := fun _ => "r1"; connected := fun _ => true;
     browser := fun _ => None; ticks := fun _ => O;
     buildBody := fun _ => "{}"; stringifyBody := fun _ => "{}";
     rewriteInlineImage := fun body => body;
     translateChunk := fun chunk _ => Some chunk;
     makeResponse := fun body _ _ => inl body;
     makeModelList := fun body => inl body |}.

(** No backchannel, and the browser cannot be brought back. *)
Definition env_down : Env :=
  {| requestIds := fun _ => "r1"; connected := fun _ => false;
     browser := fun _ => Some "crashed"; ticks := fun _ => O;
     buildBody := fun _ => "{}"; stringifyBody := fun _ => "{}";
     rewriteInlineImage := fun body => body;
     translateChunk := fun chunk _ => Some chunk;
     makeResponse := fun body _ _ => inl body;
     makeModelList := fun body => inl body |}.

Definition generate : Request :=
  {| method := "POST"; path := "/v1beta/models/gemini-pro:generateContent";
     accept := None |}.

Definition error_frame (code : Z) (text : string) : QueueMessage :=
  Frame {| request_id := Some "r1"; event_type := Some "error";
           status := Some code; data := None; message := Some text |}.

(** A chat request whose body has no [messages] array. *)
Definition malformed_chat : OpenAIRequest :=
  {| stream := false; model := None; chat := None |}.

Definition envelope : ProxyRequest :=
  {| pr_path := path generate; pr_method := method generate;
     pr_body := Some "{}";
     pr_request_id := "r1"; pr_streaming_mode := "fake";
     pr_is_generative := true |}.

(** Rotation after forty uses, as the configuration defaults to. *)
Definition cfg40 : Config :=
  {| switchOnUses := 40; immediateSwitchStatusCodes := [401; 403; 429];
     availableIndices := [1; 3; 7]; streamingMode := "real";
     redirect25to30 := false; enableReasoning := false |}.

End Scenario.

(** ** Sequences of calls on one queue *)

Module QueueRuns.
Import MessageQueue Observe.

(** What one call does outside the queue object. A [dequeue] on a closed
    queue throws before it touches anything. *)
Definition actions_of (q : t) (c : Call) : list Action :=
  match c with
  | Enqueue m => snd (enqueue q m)
  | Dequeue timeoutMs p timer =>
      match dequeue q timeoutMs p timer with
      | Throws _ => []
      | Returns _ acts => acts
      end
  | Timeout p => snd (on_timeout q p)
  | Close => snd (close q)
  end.

(** A sequence of calls on one queue object: the queue after them, and
    what they did, in order. *)
Fixpoint calls (q : t) (cs : list Call) : t * list Action :=
  match cs with
  | [] => (q, [])
  | c :: cs' =>
      let '(q', acts) := calls (call q c) cs' in
      (q', (actions_of q c ++ acts)%list)
  end.

(** The messages enqueued by a sequence of calls, in order. *)
Definition enqueued (cs : list Call) : list QueueMessage :=
  flat_map (fun c => match c with Enqueue m => [m] | _ => [] end) cs.

(** The promises its [dequeue] calls return, in order. *)
Definition promised (cs : list Call) : list nat :=
  flat_map (fun c => match c with Dequeue _ p _ => [p] | _ => [] end) cs.

(** Only [enqueue] and [dequeue] calls: no timer fires, nobody closes. *)
Definition is_traffic (c : Call) : bool :=
  match c with
  | Enqueue _ | Dequeue _ _ _ => true
  | Timeout _ | Close => false
  end.

(** The messages handed to consumers, with the promise each one resolves. *)
Definition deliveries (acts : list Action) : list (nat * QueueMessage) :=
  flat_map (fun a => match a with Resolve p m => [(p, m)] | _ => [] end) acts.

(** The promises of the waiting consumers. *)
Definition waiting (q : t) : list nat := map promise (waitingResolvers q).

End QueueRuns.

(** ** Frames and the queue table *)

Module Routing.
Import Registry.

(** Queue objects carry names handed out before. *)
Definition heap_named (w : World) : Prop :=
  Forall (fun qs => (fst qs < fresh w)%nat) (heap w).

(** The event types [_routeMessage] hands on as they are. *)
Definition frame_events : list string := ["response_headers"; "chunk"; "error"].

End Routing.

(** ** The operator's switch *)

Module Operator.
Import Handler.

Section Methods.

Variable cfg : Config.
Variable env : Env.

(** [_switchToSpecificAuth(targetIndex)], for a number [targetIndex]. *)
Definition _switchToSpecificAuth (targetIndex : Z) : M SwitchResult :=
  s <- get ;;
  if isAuthSwitching s then
    ret {| success := false; fallback := false; newIndex := None;
           reason := Some "Switch already in progress." |}
  else if negb (JS.includes (availableIndices cfg) targetIndex) then
    ret {| success := false; fallback := false; newIndex := None;
           reason := Some ("切换失败：账号 #" ++ show_index (Some targetIndex) ++
                           " 无效或不存在。") |}
  else
    modify (set_isSystemBusy true) ;;
    modify (set_isAuthSwitching true) ;;
    try_finally
      (try_catch
         (switchAccount cfg env (Some targetIndex) ;;
          modify (set_usageCount 0) ;;
          modify (set_pendingSwitch false) ;;
          s <- get ;;
          ret {| success := true; fallback := false;
                 newIndex := Some (currentAuthIndex s); reason := None |})
         (fun error => throw error))
      (modify (set_isAuthSwitching false) ;;
       modify (set_isSystemBusy false)).

(** Whether a call reported success; [None] when it threw. *)
Definition success_of (r : Result SwitchResult) : option bool :=
  match r with
  | Ok result => Some (success result)
  | Throw _ => None
  end.

Definition opt_text (o : option string) : string :=
  match o with
  | Some s => s
  | None => "undefined"
  end.

(** The handler of [POST /api/switch-account]: the status and the text it
    sends. [targetIndex] is [None] when the body has none (or null). *)
Definition switch_account (targetIndex : option Z) : M (Z * string) :=
  try_catch
    (match targetIndex with
     | Some target =>
         result <- _switchToSpecificAuth target ;;
         if success result then
           ret (200, "切换成功！已激活账号 #" ++ show_index (newIndex result) ++ "。")
         else ret (400, opt_text (reason result))
     | None =>
         if (List.length (availableIndices cfg) <=? 1)%nat then
           ret (400, "切换操作已取消：只有一个可用账号，无法切换。")
         else
           result <- _switchToNextAuth cfg env ;;
           if success result then
             ret (200, "切换成功！已切换到账号 #" ++ show_index (newIndex result) ++ "。")
           else if fallback result then
             ret (200, "切换失败，但已成功回退到账号 #" ++
                       show_index (newIndex result) ++ "。")
           else ret (409, "操作未执行: " ++ opt_text (reason result))
     end)
    (fun error =>
       ret (500, "致命错误：操作失败！请检查日志。错误: " ++ error)).

End Methods.

End Operator.

(** ** What a handler keeps *)

Module Keeps.
Import Handler.

(** The computation [c] keeps the invariant [I] of the world, however it
    ends. *)
Definition keeps {A} (I : World -> Prop) (c : M A) : Prop :=
  forall w, I w -> I (snd (c w)).

(** From a world in [P], the computation [c] returns [a] in a world in
    [Q a], or throws in a world in [T]. *)
Definition triple {A} (P : World -> Prop) (c : M A)
  (Q : A -> World -> Prop) (T : World -> Prop) : Prop :=
  forall w, P w ->
    match fst (c w) with
    | Ok a => Q a (snd (c w))
    | Throw _ => T (snd (c w))
    end.

(** Invariants of the handler state, and of the response. *)
Definition on_hs (P : HandlerState -> Prop) (w : World) : Prop := P (hs w).
Definition on_res (P : Response -> Prop) (w : World) : Prop := P (res w).

(** The two guards are free. *)
Definition guards_free (s : HandlerState) : Prop :=
  isAuthSwitching s = false /\ isSystemBusy s = false.

(** The response has been ended. *)
Definition ended : World -> Prop := on_res (fun r => writableEnded r = true).

(** Nothing was sent yet, or the response has been ended. *)
Definition unsent_or_ended : World -> Prop :=
  on_res (fun r => headersSent r = false \/ writableEnded r = true).

(** The count of active requests is [n]. *)
Definition active_is (n : Z) : World -> Prop :=
  on_hs (fun s => activeRequestCount s = n).



(** Writing to an open stream, or ending it. *)
Definition is_stream_effect (e : Effect) : bool :=
  match e with
  | Write _ | End_ => true
  | _ => false
  end.


(** [n] requests counted one after the other. *)
Fixpoint count_n (cfg : Config) (n : nat) : M unit :=
  match n with
  | O => ret tt
  | S n' => count_usage cfg true ;; count_n cfg n'
  end.



End Keeps.

(** ** The handlers at their return *)

Module Returning.
Import Handler.

Section Methods.

Variable cfg : Config.
Variable env : Env.

(** What a call of [_tryExecutePendingSwitch()] that is not awaited has
    done when control is back in the caller. The routine runs up to the
    first [await] that yields, the one on
    [browserManager.launchOrSwitchContext] inside [switchAccount]: by then
    [_switchToNextAuth] has passed its guard and set both flags, and the
    two calls on the browser manager have been made. What the browser
    answers, the reset of the counter, the release of the flags and the
    clearing of [pendingSwitch] come later, after the caller has
    returned. *)
Definition _tryExecutePendingSwitch_begun : M unit :=
  s <- get ;;
  if (pendingSwitch s && (activeRequestCount s =? 0) &&
      negb (isAuthSwitching s))%bool
  then
    modify (set_isSystemBusy true) ;;
    modify (set_isAuthSwitching true) ;;
    s <- get ;;
    let nextAuthIndex :=
      _getNextAuthIndex (availableIndices cfg) (currentAuthIndex s) in
    emit (SwitchAccount nextAuthIndex) ;;
    emit (LaunchOrSwitchContext nextAuthIndex)
  else ret tt.

(** The [finally] block of [processRequest], with what its last
    statement, the call that is not awaited, does before the handler
    returns given as [deferred]. *)
Definition completeRequest_with (deferred : M unit) (requestId : string)
  : M unit :=
  removeMessageQueue requestId ;;
  decr_active ;;
  clamp_active ;;
  deferred.

(** The [finally] block of [processOpenAIRequest], in the same way. *)
Definition completeOpenAIRequest_with (deferred : M unit) (requestId : string)
  : M unit :=
  removeMessageQueue requestId ;;
  r <- get_res ;;
  when (negb (writableEnded r)) res_end ;;
  decr_active ;;
  clamp_active ;;
  deferred.

(** [processRequest] with that [finally] block. *)
Definition processRequest_with (deferred : M unit) (req : Request) : M unit :=
  granted <- admitRequest cfg env ;;
  match granted with
  | None => ret tt
  | Some requestId =>
      count_usage cfg (isGenerativeRequest req) ;;
      let proxyRequest0 := _buildProxyRequest cfg env req requestId in
      let path1 :=
        if (redirect25to30 cfg && JS.truthy (pr_path proxyRequest0) &&
            JS.str_includes (pr_path proxyRequest0) "gemini-2.5-pro")%bool
        then replace_first "gemini-2.5-pro" "gemini-3-pro-preview"
                           (pr_path proxyRequest0)
        else pr_path proxyRequest0 in
      let proxyRequest :=
        {| pr_path := path1; pr_method := pr_method proxyRequest0;
           pr_body := pr_body proxyRequest0;
           pr_request_id := requestId;
           pr_streaming_mode :=
             if wantsStream req then pr_streaming_mode proxyRequest0
             else "fake";
           pr_is_generative := isGenerativeRequest req |} in
      createMessageQueue requestId ;;
      try_finally
        (try_catch
           (if wantsStream req then
              if String.eqb (streamingMode cfg) "fake"
              then _handlePseudoStreamResponse cfg env proxyRequest
              else _handleRealStreamResponse cfg env proxyRequest
            else _handleNonStreamResponse cfg env proxyRequest)
           (fun error => _handleRequestError cfg error))
        (completeRequest_with deferred requestId)
  end.

(** [processOpenAIRequest] with that [finally] block. *)
Definition processOpenAIRequest_with (deferred : M unit) (req : OpenAIRequest)
  : M unit :=
  s <- get ;;
  if (pendingSwitch s || isAuthSwitching s)%bool then
    _sendErrorResponse (Some 503) msg_rotating
  else
    incr_active ;;
    count_usage cfg true ;;
    requestId <- _generateRequestId env ;;
    let isOpenAIStream := stream req in
    let model0 :=
      match model req with
      | Some m => if JS.truthy m then m else "gemini-1.5-pro-latest"
      | None => "gemini-1.5-pro-latest"
      end in
    let model1 :=
      if (redirect25to30 cfg && String.eqb model0 "gemini-2.5-pro")%bool
      then "gemini-3-pro-preview" else model0 in
    match chat req with
    | None =>
        decr_active ;;
        _sendErrorResponse (Some 400) "Invalid OpenAI request format."
    | Some body =>
        let googleBody :=
          Translator._translateOpenAIToGoogle (enableReasoning cfg) body model1 in
        let googleEndpoint :=
          if isOpenAIStream then "streamGenerateContent" else "generateContent" in
        let proxyRequest :=
          {| pr_path := "/v1beta/models/" ++ model1 ++ ":" ++ googleEndpoint;
             pr_method := "POST";
             pr_body := Some (stringifyBody env googleBody);
             pr_request_id := requestId;
             pr_streaming_mode := "real";
             pr_is_generative := true |} in
        createMessageQueue requestId ;;
        try_finally
          (try_catch
             (deliverOpenAI cfg env isOpenAIStream model1 requestId proxyRequest)
             (fun error => _handleRequestError cfg error))
          (completeOpenAIRequest_with deferred requestId)
    end.

(** The handlers as they are when they return, with the rotation they may
    have started still running. *)
Definition processRequest_returns : Request -> M unit :=
  processRequest_with _tryExecutePendingSwitch_begun.

Definition processOpenAIRequest_returns : OpenAIRequest -> M unit :=
  processOpenAIRequest_with _tryExecutePendingSwitch_begun.

End Methods.

(** A rotation has been started for the pending switch and is running:
    both guards are held, the switch is still pending and no request is
    active. *)
Definition rotation_running (s : HandlerState) : Prop :=
  isAuthSwitching s = true /\ isSystemBusy s = true /\
  pendingSwitch s = true /\ activeRequestCount s = 0.

End Returning.

(** ** Start-up: [ProxyServerSystem.start] and the sources it reads *)

Module Startup.

(** The order in which [start(initialAuthIndex)] tries the available
    indices. [initialAuthIndex] is [None] for [null]; a zero is falsy. *)
Definition startupOrder (allAvailableIndices : list Z)
  (initialAuthIndex : option Z) : list Z :=
  match initialAuthIndex with
  | Some i =>
      if (negb (i =? 0) && JS.includes allAvailableIndices i)%bool
      then i :: filter (fun j => negb (j =? i)) allAvailableIndices
      else allAvailableIndices
  | None => allAvailableIndices
  end.

(** The loop of [start] over the start-up order. [launch n index] is how
    the [n]-th call of [launchOrSwitchContext], on [index], ends: [None]
    when it succeeds, the error when it throws. The result is the index
    the service started with and the number of failed attempts before it,
    or [None] when every attempt failed. *)
Fixpoint try_each (launch : nat -> Z -> option string) (n : nat)
  (order : list Z) : option (Z * nat) :=
  match order with
  | [] => None
  | index :: rest =>
      match launch n index with
      | None => Some (index, n)
      | Some _ => try_each launch (S n) rest
      end
  end.

Inductive StartResult :=
| Started (index : Z) (failed : nat)   (* the servers are started next *)
| Refused (err : string).              (* the error [start] throws *)

(** [start(initialAuthIndex)], up to the point where the account is
    chosen. *)
Definition start (allAvailableIndices : list Z) (initialAuthIndex : option Z)
  (launch : nat -> Z -> option string) : StartResult :=
  match allAvailableIndices with
  | [] => Refused "没有任何可用的认证源，无法启动。"
  | _ :: _ =>
      match try_each launch 0 (startupOrder allAvailableIndices initialAuthIndex) with
      | Some (index, failed) => Started index failed
      | None => Refused "所有认证源均尝试失败，服务器无法启动。"
      end
  end.

Section Sources.

(** The parsed content of a source. *)
Variable J : Type.

(** [_getAuthContent(index)]: the text of the environment variable or of
    the file; [None] when there is none or it cannot be read. *)
Variable content : Z -> option string.

(** [JSON.parse]: [None] when it throws, [Some None] for the value [null]. *)
Variable parse : string -> option (option J).

(** The test of [_preValidateAndFilter] on one index: the content is
    there and [JSON.parse] returns. The index is pushed before
    [accountName] is read, so it is kept for the value [null] too. *)
Definition validates (index : Z) : bool :=
  match content index with
  | Some authContent =>
      (JS.truthy authContent &&
       match parse authContent with
       | Some _ => true
       | None => false
       end)%bool
  | None => false
  end.

(** [getAuth(index)]; [None] is [null]. *)
Definition getAuth (availableIndices : list Z) (index : Z) : option J :=
  if negb (JS.includes availableIndices index) then None
  else
    match content index with
    | Some jsonString =>
        if JS.truthy jsonString then
          match parse jsonString with
          | Some value => value
          | None => None
          end
        else None
    | None => None
    end.

End Sources.

(** The [invalidIndices] of [GET /api/status]. *)
Definition invalidIndices (initialIndices availableIndices : list Z) : list Z :=
  filter (fun i => negb (JS.includes availableIndices i)) initialIndices.

(** Its [accountDetails]; [names] is [accountNameMap.get]. *)
Definition accountDetails (initialIndices availableIndices : list Z)
  (names : Z -> option string) : list (Z * string) :=
  map (fun index =>
         let isInvalid :=
           JS.includes (invalidIndices initialIndices availableIndices) index in
         (index,
          if isInvalid then "N/A (JSON格式错误)"
          else match names index with
               | Some n => if JS.truthy n then n else "N/A (未命名)"
               | None => "N/A (未命名)"
               end))
      initialIndices.

End Startup.

(** ** Response translation, native dialect to chat dialect *)

Module StreamTranslator.

(** One element of [candidate.content.parts], as the translation reads
    it: the [inlineData] object when there is one, with its two fields as
    a template literal prints them; whether [thought] is truthy; and
    [text]. *)
Record Part := {
  inlineData : option (string * string);     (* [(mimeType, data)] *)
  thought : bool;
  text : option string
}.

(** [candidates[0]]: [parts] is [None] unless [content.parts] is an array. *)
Record Candidate := {
  parts : option (list Part);
  finishReason : option string
}.

(** The parsed chunk: [candidate] is [None] when [candidates?.[0]] is falsy,
    [promptFeedback] is the printed [blockReason] of a truthy
    [promptFeedback]. *)
Record GoogleResponse := {
  candidate : option Candidate;
  promptFeedback : option string
}.

Record Delta := {
  content : option string;
  reasoning_content : option string
}.

(** The object the translation serialises, without its [id] and [created]
    fields, which come from the random generator and the clock. *)
Record OpenAIChunk := {
  model : string;
  delta : Delta;
  finish_reason : option string
}.

Inductive Outcome :=
| Skipped                          (* [null] *)
| Emitted (chunk : OpenAIChunk)    (* "data: " + JSON + two line feeds *)
| Thrown.                          (* a [TypeError]: the chunk is the JSON [null] *)

Definition or_empty (o : option string) : string :=
  match o with
  | Some s => s
  | None => ""
  end.

Definition truthy_or_none (s : string) : option string :=
  if JS.truthy s then Some s else None.

Definition image_markdown (image : string * string) : string :=
  "![Generated Image](data:" ++ fst image ++ ";base64," ++ snd image ++ ")".

(** The [forEach] over the parts: the two accumulators after it. *)
Fixpoint gather (ps : list Part) (content reasoningContent : string)
  : string * string :=
  match ps with
  | [] => (content, reasoningContent)
  | p :: ps' =>
      match inlineData p with
      | Some image => gather ps' (content ++ image_markdown image) reasoningContent
      | None =>
          if thought p
          then gather ps' content (reasoningContent ++ or_empty (text p))
          else gather ps' (content ++ or_empty (text p)) reasoningContent
      end
  end.

(** The part of [_translateGoogleToOpenAIStream] after [JSON.parse]. *)
Definition of_response (googleResponse : GoogleResponse) (modelName : string)
  : Outcome :=
  match candidate googleResponse with
  | None =>
      match promptFeedback googleResponse with
      | Some blockReason =>
          Emitted
            {| model := modelName;
               delta :=
                 {| content :=
                      Some ("[ProxySystem Error] Request blocked due to safety settings. Finish Reason: "
                            ++ blockReason);
                    reasoning_content := None |};
               finish_reason := Some "stop" |}
      | None => Skipped
      end
  | Some c =>
      let '(content, reasoningContent) :=
        match parts c with
        | Some ps => gather ps "" ""
        | None => ("", "")
        end in
      let delta := {| content := truthy_or_none content;
                      reasoning_content := truthy_or_none reasoningContent |} in
      if (negb (JS.truthy content) && negb (JS.truthy reasoningContent) &&
          negb (Config.opt_truthy (finishReason c)))%bool
      then Skipped
      else Emitted
             {| model := modelName; delta := delta;
                finish_reason :=
                  match finishReason c with
                  | Some r => truthy_or_none r
                  | None => None
                  end |}
  end.

(** [_translateGoogleToOpenAIStream(googleChunk, modelName)]. [parse] is
    [JSON.parse]: [None] when it throws, [Some None] for the value [null]. *)
Definition _translateGoogleToOpenAIStream
  (parse : string -> option (option GoogleResponse))
  (googleChunk : string) (modelName : string) : Outcome :=
  if (negb (JS.truthy googleChunk) || String.eqb (Config.trim googleChunk) "")%bool
  then Skipped
  else
    let jsonString :=
      if JS.startsWith googleChunk "data: "
      then Config.trim (JS.drop 6 googleChunk) else googleChunk in
    if (negb (JS.truthy jsonString) || String.eqb jsonString "[DONE]")%bool
    then Skipped
    else
      match parse jsonString with
      | None => Skipped
      | Some None => Thrown
      | Some (Some googleResponse) => of_response googleResponse modelName
      end.

(** What the client sees of the parts, and what goes to the reasoning
    channel. *)
Definition visible (p : Part) : string :=
  match inlineData p with
  | Some image => image_markdown image
  | None => if thought p then "" else or_empty (text p)
  end.

Definition hidden (p : Part) : string :=
  match inlineData p with
  | Some _ => ""
  | None => if thought p then or_empty (text p) else ""
  end.

(** The texts of a list, one after the other. *)
Definition concat_text (l : list string) : string :=
  fold_right String.append "" l.

End StreamTranslator.

(** ** Response headers *)

Module Headers.

(** [String.prototype.toLowerCase] on the ASCII letters; header names are
    ASCII. *)
Definition lower_char (c : ascii) : ascii :=
  let n := nat_of_ascii c in
  if (Nat.leb 65 n && Nat.leb n 90)%bool then ascii_of_nat (n + 32) else c.

Fixpoint toLowerCase (s : string) : string :=
  match s with
  | EmptyString => EmptyString
  | String c s' => String (lower_char c) (toLowerCase s')
  end.

(** [_setResponseHeaders(res, headerMessage, isStream)]: the status it
    sets and its calls of [res.set], in order. [headers] are the entries
    of [headerMessage.headers]. *)
Definition _setResponseHeaders (status : option Z)
  (headers : list (string * string)) (isStream : bool)
  : Z * list (string * string) :=
  (Handler.status_or status 200,
   (filter (fun entry =>
              (negb (String.eqb (toLowerCase (fst entry)) "content-length") &&
               negb (isStream &&
                     String.eqb (toLowerCase (fst entry)) "content-type"))%bool)
           headers ++
    (if isStream
     then [("Content-Type", "text/event-stream"); ("Cache-Control", "no-cache");
           ("Connection", "keep-alive")]
     else []))%list).

(** The value of a header after a sequence of [res.set] calls: names are
    compared without case, and the last call wins. *)
Fixpoint header_of (sets : list (string * string)) (name : string)
  : option string :=
  match sets with
  | [] => None
  | (n, v) :: rest =>
      match header_of rest name with
      | Some v' => Some v'
      | None => if String.eqb (toLowerCase n) (toLowerCase name) then Some v else None
      end
  end.

End Headers.


(** ** Numbers read from the environment *)

Module Numbers.

Definition is_digit (c : ascii) : bool :=
  let n := nat_of_ascii c in (Nat.leb 48 n && Nat.leb n 57)%bool.

Definition digit_value (c : ascii) : Z := Z.of_nat (nat_of_ascii c - 48).

(** The value of the longest prefix of decimal digits of [s], read after the
    digits whose value is [acc]; [None] when no digit was read at all. *)
Fixpoint read_digits (s : string) (acc : option Z) : option Z :=
  match s with
  | EmptyString => acc
  | String c s' =>
      if is_digit c
      then read_digits s'
             (Some (10 * match acc with Some a => a | None => 0 end
                    + digit_value c))
      else acc
  end.

(** [parseInt(s, 10)], up to the conversion to a number: leading white
    space is skipped, one sign is read, then the longest run of digits;
    [None] is [NaN]. The result is the integer the digits denote, with its
    sign ([-0] is [0]). It is the JavaScript number exactly when it is
    below 2^53 in absolute value; from there on JavaScript has [toNumber]
    of it. *)
Definition parseInt (s : string) : option Z :=
  let S := Config.trimStart s in
  let '(sign, rest) :=
    match S with
    | String "-" r => (-1, r)
    | String "+" r => (1, r)
    | _ => (1, S)
    end in
  match read_digits rest None with
  | Some mathInt => Some (sign * mathInt)
  | None => None
  end.

(** [String(n)] for an integer [n] (below 10^21 in absolute value). *)
Definition toString (n : Z) : string := NilZero.string_of_int (Z.to_int n).

(** A JavaScript number that holds an integer. Below 2^53 in absolute
    value it is the integer itself. From 2^53 on [parseInt] rounds to a
    double, and past twenty digits the digits it keeps are left to the
    implementation: all the model says of such a number is its sign, and
    that it is at least 2^53 in absolute value (infinity included). *)
Inductive Number :=
| Int (n : Z)
| Huge (negative : bool).

(** The number JavaScript has for the integer [mathInt] that [parseInt]
    read. *)
Definition toNumber (mathInt : Z) : Number :=
  if Z.abs mathInt <? 2 ^ 53 then Int mathInt else Huge (mathInt <? 0).

(** [if (process.env.V) config.x = parseInt(process.env.V, 10) || config.x],
    with [default] the value [config.x] has before. *)
Definition number_or (V : option string) (default : Z) : Number :=
  match V with
  | Some s =>
      if JS.truthy s
      then match parseInt s with
           | Some n => if n =? 0 then Int default else toNumber n
           | None => Int default
           end
      else Int default
  | None => Int default
  end.

(** [config.httpPort] and [config.switchOnUses] after [_loadConfiguration]. *)
Definition _loadConfiguration_httpPort (PORT : option string) : Number :=
  number_or PORT 7860.

Definition _loadConfiguration_switchOnUses (SWITCH_ON_USES : option string)
  : Number :=
  number_or SWITCH_ON_USES 40.

(** [.map((code) => parseInt(String(code).trim(), 10))
     .filter((code) => !isNaN(code) && code >= 400 && code <= 599)]. The
    filter decides the same on the integer read as on the number: rounding
    keeps an integer of 2^53 or more above 599, and a negative one below
    400. *)
Fixpoint parse_codes (l : list string) : list Z :=
  match l with
  | [] => []
  | code :: l' =>
      match parseInt (Config.trim code) with
      | Some n =>
          if ((400 <=? n) && (n <=? 599))%bool then n :: parse_codes l'
          else parse_codes l'
      | None => parse_codes l'
      end
  end.

(** [config.immediateSwitchStatusCodes] after [_loadConfiguration], from
    [process.env.IMMEDIATE_SWITCH_STATUS_CODES]. The default list is printed
    with [join(",")] and read back like a value of the variable. *)
Definition _loadConfiguration_immediateSwitchStatusCodes
  (IMMEDIATE_SWITCH_STATUS_CODES : option string) : list Z :=
  let rawCodes :=
    if Config.opt_truthy IMMEDIATE_SWITCH_STATUS_CODES
    then match IMMEDIATE_SWITCH_STATUS_CODES with Some s => s | None => "" end
    else JS.join "," (map toString [401; 403; 429]) in
  if JS.truthy rawCodes
  then parse_codes (Config.split_comma rawCodes)
  else [].

(** The value of a decimal numeral read after the digits of value [acc]. *)
Fixpoint uint_value (d : Decimal.uint) (acc : Z) : Z :=
  match d with
  | Decimal.Nil => acc
  | Decimal.D0 d' => uint_value d' (10 * acc + 0)
  | Decimal.D1 d' => uint_value d' (10 * acc + 1)
  | Decimal.D2 d' => uint_value d' (10 * acc + 2)
  | Decimal.D3 d' => uint_value d' (10 * acc + 3)
  | Decimal.D4 d' => uint_value d' (10 * acc + 4)
  | Decimal.D5 d' => uint_value d' (10 * acc + 5)
  | Decimal.D6 d' => uint_value d' (10 * acc + 6)
  | Decimal.D7 d' => uint_value d' (10 * acc + 7)
  | Decimal.D8 d' => uint_value d' (10 * acc + 8)
  | Decimal.D9 d' => uint_value d' (10 * acc + 9)
  end.

End Numbers.

(** ** The order of rotation *)

(** [k] rotations one after the other, each successful, from the index
    [current]: the index that is current after them. *)
Fixpoint rotate_n (available : list Z) (k : nat) (current : Z) : option Z :=
  match k with
  | O => Some current
  | S k' =>
      match _getNextAuthIndex available current with
      | Some next => rotate_n available k' next
      | None => None
      end
  end.

(** ** The log buffer: [LoggingService] *)

Module LoggingService.

Record t := {
  serviceName : string;
  logBuffer : list string;
  maxBufferSize : nat
}.

(** [new LoggingService(serviceName)]. *)
Definition create (serviceName : string) : t :=
  {| serviceName := serviceName; logBuffer := []; maxBufferSize := 100 |}.

(** The line [_formatMessage] builds; [timestamp] is what the clock
    prints. *)
Definition formatted (svc : t) (level timestamp message : string) : string :=
  "[" ++ level ++ "] " ++ timestamp ++ " [" ++ serviceName svc ++ "] - " ++ message.

(** [_formatMessage(level, message)]: the service after it, and the line
    it returns. *)
Definition _formatMessage (svc : t) (level timestamp message : string)
  : t * string :=
  let line := formatted svc level timestamp message in
  let pushed := (logBuffer svc ++ [line])%list in
  ({| serviceName := serviceName svc;
      logBuffer := if (maxBufferSize svc <? List.length pushed)%nat
                   then tl pushed else pushed;
      maxBufferSize := maxBufferSize svc |},
   line).

(** One call of [info], [error], [warn] or [debug]: its level, the time and
    the message. *)
Definition Entry : Type := string * string * string.

Definition log (svc : t) (e : Entry) : t :=
  let '(level, timestamp, message) := e in
  fst (_formatMessage svc level timestamp message).

Definition line_of (svc : t) (e : Entry) : string :=
  let '(level, timestamp, message) := e in formatted svc level timestamp message.

End LoggingService.

(** ** The console: login and settings *)

Module Console.

(** The settings of [ProxyServerSystem] that the console changes. *)
Record Panel := {
  streamingMode : string;
  enableReasoning : bool;
  enableNativeReasoning : bool;
  enableResume : bool;
  resumeLimit : Z;
  redirect25to30 : bool
}.

(** The settings after the constructor ran, for the configured mode. *)
Definition initial (configured : string) : Panel :=
  {| streamingMode := configured; enableReasoning := false;
     enableNativeReasoning := false; enableResume := false; resumeLimit := 3;
     redirect25to30 := false |}.

(** The [POST] routes of the console. A field of the body that is absent
    is [None]; [limit] is the text of [req.body.limit], as [parseInt]
    reads it. *)
Inductive Route :=
| Login (apiKey : option string)
| SetMode (mode : option string)
| ToggleReasoning
| ToggleNativeReasoning
| SetResumeConfig (limit : string)
| ToggleRedirect2530.

Inductive Answer :=
| Redirect (location : string)
| Send (status : Z) (text : string).

Definition quote : string := String (ascii_of_nat 34) EmptyString.

Definition enabled_text (b : bool) : string :=
  if b then "已启用" else "已禁用".

Definition set_streamingMode (v : string) (p : Panel) : Panel :=
  {| streamingMode := v; enableReasoning := enableReasoning p;
     enableNativeReasoning := enableNativeReasoning p;
     enableResume := enableResume p; resumeLimit := resumeLimit p;
     redirect25to30 := redirect25to30 p |}.

Definition set_enableReasoning (v : bool) (p : Panel) : Panel :=
  {| streamingMode := streamingMode p; enableReasoning := v;
     enableNativeReasoning := enableNativeReasoning p;
     enableResume := enableResume p; resumeLimit := resumeLimit p;
     redirect25to30 := redirect25to30 p |}.

Definition set_enableNativeReasoning (v : bool) (p : Panel) : Panel :=
  {| streamingMode := streamingMode p; enableReasoning := enableReasoning p;
     enableNativeReasoning := v;
     enableResume := enableResume p; resumeLimit := resumeLimit p;
     redirect25to30 := redirect25to30 p |}.

Definition set_resume (on : bool) (limit : Z) (p : Panel) : Panel :=
  {| streamingMode := streamingMode p; enableReasoning := enableReasoning p;
     enableNativeReasoning := enableNativeReasoning p;
     enableResume := on; resumeLimit := limit;
     redirect25to30 := redirect25to30 p |}.

Definition set_redirect25to30 (v : bool) (p : Panel) : Panel :=
  {| streamingMode := streamingMode p; enableReasoning := enableReasoning p;
     enableNativeReasoning := enableNativeReasoning p;
     enableResume := enableResume p; resumeLimit := resumeLimit p;
     redirect25to30 := v |}.

Definition invalid_mode : string :=
  "无效模式. 请用 " ++ quote ++ "fake" ++ quote ++ " 或 " ++ quote ++ "real" ++
  quote ++ ".".

(** The handlers behind [isAuthenticated]: the settings after the request
    and the answer. *)
Definition set_mode (newMode : option string) (p : Panel) : Panel * Answer :=
  match newMode with
  | Some m =>
      if (String.eqb m "fake" || String.eqb m "real")%bool
      then (set_streamingMode m p, Send 200 ("流式模式已切换为: " ++ m))
      else (p, Send 400 invalid_mode)
  | None => (p, Send 400 invalid_mode)
  end.

Definition toggle_reasoning (p : Panel) : Panel * Answer :=
  let b := negb (enableReasoning p) in
  (set_enableReasoning b p,
   Send 200 ("强制OAI格式推理(Thinking)" ++ enabled_text b ++
             "。所有新的 OpenAI 格式请求都将受此影响。")).

Definition toggle_native_reasoning (p : Panel) : Panel * Answer :=
  let b := negb (enableNativeReasoning p) in
  (set_enableNativeReasoning b p,
   Send 200 ("强制原生格式推理" ++ enabled_text b ++
             "。所有新的原生 Gemini 格式请求都将受此影响。")).

Definition set_resume_config (limit : string) (p : Panel) : Panel * Answer :=
  match Numbers.parseInt limit with
  | Some n =>
      if n <? 0 then (p, Send 400 "无效的重试次数数值。")
      else
        let on := 0 <? n in
        (set_resume on n p,
         Send 200 ("自动续写功能" ++
                   (if on
                    then "已启用 (重试限制: " ++ Numbers.toString n ++ ")"
                    else "已关闭") ++ "。"))
  | None => (p, Send 400 "无效的重试次数数值。")
  end.

Definition toggle_redirect_25_30 (p : Panel) : Panel * Answer :=
  let b := negb (redirect25to30 p) in
  (set_redirect25to30 b p,
   Send 200 ("2.5Pro重定向为3.0Pro 功能" ++ enabled_text b ++ "。")).

(** The middleware [isAuthenticated] before a handler [next];
    [authenticated] is [req.session.isAuthenticated]. *)
Definition isAuthenticated (authenticated : bool) (p : Panel)
  (next : Panel -> Panel * Answer) : bool * Panel * Answer :=
  if authenticated then (authenticated, fst (next p), snd (next p))
  else (authenticated, p, Redirect "/login").

(** One request of a session. Every route but the login goes through
    [isAuthenticated] first. *)
Definition handle (apiKeys : list string) (r : Route)
  (authenticated : bool) (p : Panel) : bool * Panel * Answer :=
  match r with
  | Login apiKey =>
      match apiKey with
      | Some k =>
          if (JS.truthy k && JS.includes_str apiKeys k)%bool
          then (true, p, Redirect "/")
          else (authenticated, p, Redirect "/login?error=1")
      | None => (authenticated, p, Redirect "/login?error=1")
      end
  | SetMode newMode => isAuthenticated authenticated p (set_mode newMode)
  | ToggleReasoning => isAuthenticated authenticated p toggle_reasoning
  | ToggleNativeReasoning =>
      isAuthenticated authenticated p toggle_native_reasoning
  | SetResumeConfig limit =>
      isAuthenticated authenticated p (set_resume_config limit)
  | ToggleRedirect2530 => isAuthenticated authenticated p toggle_redirect_25_30
  end.

(** The requests of one session, one after the other: the session and the
    settings after them, and the answers. *)
Fixpoint serve (apiKeys : list string) (rs : list Route)
  (authenticated : bool) (p : Panel) : bool * Panel * list Answer :=
  match rs with
  | [] => (authenticated, p, [])
  | r :: rs' =>
      let '(a1, p1, answer) := handle apiKeys r authenticated p in
      let '(a2, p2, answers) := serve apiKeys rs' a1 p1 in
      (a2, p2, answer :: answers)
  end.

(** A login with a configured key. *)
Definition good_login (apiKeys : list string) (r : Route) : bool :=
  match r with
  | Login (Some k) => (JS.truthy k && JS.includes_str apiKeys k)%bool
  | _ => false
  end.

Definition is_redirect (a : Answer) : bool :=
  match a with
  | Redirect _ => true
  | Send _ _ => false
  end.

End Console.

(* ===================================================================== *)
(** * Part II. Theorems                                                    *)
(* ===================================================================== *)

(** ** Credential rotation order *)

Lemma indexOf_None l x : JS.indexOf l x = None <-> ~ In x l.
Proof.
  induction l as [|y l IH]; simpl.
  - tauto.
  - destruct (Z.eqb_spec y x) as [->|Hne].
    + split; [discriminate | intros H; exfalso; apply H; now left].
    + destruct (JS.indexOf l x) eqn:E.
      * split; [discriminate |].
        intros H; exfalso. destruct IH as [_ IH].
        assert (Hn : ~ In x l) by (intros Hin; apply H; now right).
        specialize (IH Hn). discriminate.
      * split; [| reflexivity].
        intros _ [Heq | Hin]; [congruence | now apply IH].
Qed.

Lemma indexOf_nth l : forall i d,
  NoDup l -> (i < List.length l)%nat -> JS.indexOf l (nth i l d) = Some i.
Proof.
  induction l as [|y l IH]; intros i d Hnd Hi; simpl in *; [lia|].
  inversion Hnd as [|? ? Hnotin Hnd']; subst.
  destruct i as [|i].
  - now rewrite Z.eqb_refl.
  - destruct (Z.eqb_spec y (nth i l d)) as [Heq|Hne].
    + exfalso. apply Hnotin. rewrite Heq. apply nth_In. lia.
    + rewrite IH by (auto; lia). reflexivity.
Qed.

Lemma includes_In l x : JS.includes l x = true <-> In x l.
Proof.
  unfold JS.includes. rewrite existsb_exists. split.
  - intros [y [Hin Heq]]. apply Z.eqb_eq in Heq. now subst.
  - intros Hin. exists x. split; [assumption | apply Z.eqb_refl].
Qed.

Lemma dedup_from_spec l : forall seen x,
  In x (AuthSource.dedup_from seen l) <-> In x l /\ ~ In x seen.
Proof.
  induction l as [|y l IH]; intros seen x; simpl.
  - tauto.
  - destruct (JS.includes seen y) eqn:E.
    + apply includes_In in E. rewrite IH. split.
      * intros [H1 H2]. tauto.
      * intros [[->|H1] H2]; [contradiction | tauto].
    + assert (Hy : ~ In y seen).
      { intros H. apply includes_In in H. congruence. }
      simpl. rewrite IH. simpl. split.
      * intros [->|[H1 H2]]; [tauto|]. split; [tauto|]. intros H. apply H2. now right.
      * intros [[->|H1] H2]; [now left|].
        destruct (Z.eq_dec y x) as [->|Hne]; [now left|]. right. split; [assumption|].
        intros [H|H]; [congruence | contradiction].
Qed.

Lemma dedup_from_NoDup l : forall seen, NoDup (AuthSource.dedup_from seen l).
Proof.
  induction l as [|y l IH]; intros seen; simpl.
  - constructor.
  - destruct (JS.includes seen y); [apply IH|].
    constructor; [| apply IH].
    rewrite dedup_from_spec. intros [_ H]. apply H. now left.
Qed.

Lemma insert_sorted_In x l y :
  In y (AuthSource.insert_sorted x l) <-> y = x \/ In y l.
Proof.
  induction l as [|z l IH]; simpl.
  - intuition.
  - destruct (Z.leb x z); simpl; [intuition|]. rewrite IH. intuition.
Qed.

Lemma sort_In l y : In y (AuthSource.sort l) <-> In y l.
Proof.
  induction l as [|x l IH]; simpl; [tauto|].
  rewrite insert_sorted_In, IH. intuition.
Qed.

Lemma insert_sorted_strict x l :
  StronglySorted Z.lt l -> ~ In x l ->
  StronglySorted Z.lt (AuthSource.insert_sorted x l).
Proof.
  induction l as [|z l IH]; simpl; intros Hs Hn.
  - repeat constructor.
  - inversion Hs as [|? ? Hs' Hall]; subst.
    destruct (Z.leb_spec x z) as [Hle|Hgt].
    + assert (x < z) by (assert (x <> z) by (intros ->; apply Hn; now left); lia).
      constructor; [assumption|]. constructor; [assumption|].
      rewrite Forall_forall in *. intros w Hw. specialize (Hall w Hw). lia.
    + constructor.
      * apply IH; [assumption|]. intros H. apply Hn. now right.
      * rewrite Forall_forall in *. intros w Hw.
        apply insert_sorted_In in Hw. destruct Hw as [->|Hw]; [lia | auto].
Qed.

Lemma sort_strict l : NoDup l -> StronglySorted Z.lt (AuthSource.sort l).
Proof.
  induction 1 as [|x l Hn Hnd IH]; simpl.
  - constructor.
  - apply insert_sorted_strict; [assumption|]. now rewrite sort_In.
Qed.

Lemma filter_strict (f : Z -> bool) l :
  StronglySorted Z.lt l -> StronglySorted Z.lt (filter f l).
Proof.
  induction 1 as [|x l Hs IH Hall]; simpl; [constructor|].
  destruct (f x); [|assumption].
  constructor; [assumption|].
  rewrite Forall_forall in *. intros w Hw. apply filter_In in Hw. apply Hall, Hw.
Qed.

Lemma strict_NoDup l : StronglySorted Z.lt l -> NoDup l.
Proof.
  induction 1 as [|x l Hs IH Hall]; constructor; [|assumption].
  intros Hin. rewrite Forall_forall in Hall. specialize (Hall x Hin). lia.
Qed.

(** The eligible list built at start-up is strictly ascending, holds exactly
    the discovered indices whose content parses, and has no duplicates. *)
Lemma availableIndices_sorted parses indices :
  StronglySorted Z.lt (AuthSource.availableIndices parses indices).
Proof.
  unfold AuthSource.availableIndices, AuthSource._preValidateAndFilter,
    AuthSource._discoverAvailableIndices, AuthSource.set_of.
  apply filter_strict, sort_strict, dedup_from_NoDup.
Qed.

Lemma availableIndices_In parses indices x :
  In x (AuthSource.availableIndices parses indices) <->
  In x indices /\ parses x = true.
Proof.
  unfold AuthSource.availableIndices, AuthSource._preValidateAndFilter,
    AuthSource._discoverAvailableIndices, AuthSource.set_of.
  rewrite filter_In, sort_In, dedup_from_spec. simpl. tauto.
Qed.

(** C4. [next] is round-robin over the valid sorted index list: over
    [{1,3,7}] it maps 1 to 3, 3 to 7 and 7 back to 1; on any strictly
    ascending list the index at position [i] is followed by the one at
    position [(i+1) mod n]; the list built at start-up is strictly
    ascending; and an index that is not in the list is followed by the
    first valid index. *)
Theorem next_round_robin :
  (_getNextAuthIndex [1; 3; 7] 1 = Some 3 /\
   _getNextAuthIndex [1; 3; 7] 3 = Some 7 /\
   _getNextAuthIndex [1; 3; 7] 7 = Some 1) /\
  (forall parses indices,
      StronglySorted Z.lt (AuthSource.availableIndices parses indices)) /\
  (forall available i,
      StronglySorted Z.lt available -> (i < List.length available)%nat ->
      _getNextAuthIndex available (nth i available 0) =
      nth_error available (Nat.modulo (i + 1) (List.length available))) /\
  (forall available afterIndex,
      ~ In afterIndex available ->
      _getNextAuthIndex available afterIndex = hd_error available).
Proof.
  split; [repeat split; reflexivity|].
  split; [apply availableIndices_sorted|].
  split.
  - intros available i Hs Hi. unfold _getNextAuthIndex.
    destruct available as [|a l] eqn:E; [simpl in Hi; lia|].
    rewrite <- E in *. rewrite indexOf_nth; auto using strict_NoDup.
  - intros available afterIndex Hn. unfold _getNextAuthIndex.
    destruct available as [|a l]; [reflexivity|].
    apply indexOf_None in Hn. rewrite Hn. reflexivity.
Qed.

Lemma next_round_robin_witness :
  StronglySorted Z.lt [1; 3; 7] /\ (2 < List.length [1; 3; 7])%nat /\
  ~ In 5 [1; 3; 7] /\
  _getNextAuthIndex [1; 3; 7] (nth 2 [1; 3; 7] 0) = Some 1 /\
  _getNextAuthIndex [1; 3; 7] 5 = Some 1.
Proof.
  assert (Hs : StronglySorted Z.lt [1; 3; 7]).
  { repeat constructor; lia. }
  assert (Hl : (2 < List.length [1; 3; 7])%nat) by (simpl; lia).
  assert (Hn : ~ In 5 [1; 3; 7]).
  { simpl. intros [H|[H|[H|H]]]; try discriminate; contradiction. }
  split; [exact Hs|]. split; [exact Hl|]. split; [exact Hn|].
  destruct next_round_robin as [_ [_ [Hrr Hout]]].
  split.
  - exact (Hrr [1; 3; 7] 2%nat Hs Hl).
  - exact (Hout [1; 3; 7] 5 Hn).
Defined.

(** ** Configuration and the API-key check *)

Lemma includes_str_In l x : JS.includes_str l x = true <-> In x l.
Proof.
  unfold JS.includes_str. rewrite existsb_exists. split.
  - intros [y [Hin Heq]]. apply String.eqb_eq in Heq. now subst.
  - intros Hin. exists x. split; [assumption | apply String.eqb_refl].
Qed.

Lemma filter_truthy_blank l :
  Forall (fun k => Config.trim k = "") l ->
  filter JS.truthy (map Config.trim l) = [].
Proof.
  induction 1 as [|k l Hk Hl IH]; simpl; [reflexivity|].
  rewrite Hk. simpl. exact IH.
Qed.

Lemma apiKeys_nonempty API_KEYS : Config._loadConfiguration_apiKeys API_KEYS <> [].
Proof.
  unfold Config._loadConfiguration_apiKeys.
  set (l := filter JS.truthy _). destruct l as [|k l']; simpl; discriminate.
Qed.

Lemma clientKey_presented req k :
  Config.clientKey req = Some k -> In k (Config.presented_keys req).
Proof.
  unfold Config.clientKey, Config.presented_keys.
  destruct req as [g a x q]; simpl.
  destruct g as [g|]; simpl.
  - destruct (JS.truthy g) eqn:Eg.
    + intros [= ->]. now left.
    + intros H. right. revert H.
      destruct a as [a|]; simpl.
      * destruct (JS.truthy a && JS.startsWith a "Bearer ")%bool eqn:Ea.
        -- apply andb_prop in Ea as [_ Ea]. rewrite Ea.
           intros [= ->]. now left.
        -- intros H. apply in_or_app. right. revert H.
           destruct x as [x|]; simpl.
           ++ destruct (JS.truthy x); [intros [= ->]; now left|].
              intros H. right. destruct q as [q|]; simpl in *;
                [destruct (JS.truthy q); [injection H as ->; now left | discriminate]
                | discriminate].
           ++ destruct q as [q|]; simpl;
                [destruct (JS.truthy q); [intros [= ->]; now left | discriminate]
                | discriminate].
      * destruct x as [x|]; simpl.
        -- destruct (JS.truthy x); [intros [= ->]; now left|].
           intros H. right. destruct q as [q|]; simpl in *;
             [destruct (JS.truthy q); [injection H as ->; now left | discriminate]
             | discriminate].
        -- destruct q as [q|]; simpl;
             [destruct (JS.truthy q); [intros [= ->]; now left | discriminate]
             | discriminate].
  - destruct a as [a|]; simpl.
    + destruct (JS.truthy a && JS.startsWith a "Bearer ")%bool eqn:Ea.
      * apply andb_prop in Ea as [_ Ea]. rewrite Ea.
        intros [= ->]. now left.
      * intros H. apply in_or_app. right. revert H.
        destruct x as [x|]; simpl.
        -- destruct (JS.truthy x); [intros [= ->]; now left|].
           intros H. right. destruct q as [q|]; simpl in *;
             [destruct (JS.truthy q); [injection H as ->; now left | discriminate]
             | discriminate].
        -- destruct q as [q|]; simpl;
             [destruct (JS.truthy q); [intros [= ->]; now left | discriminate]
             | discriminate].
    + destruct x as [x|]; simpl.
      * destruct (JS.truthy x); [intros [= ->]; now left|].
        intros H. right. destruct q as [q|]; simpl in *;
          [destruct (JS.truthy q); [injection H as ->; now left | discriminate]
          | discriminate].
      * destruct q as [q|]; simpl;
          [destruct (JS.truthy q); [intros [= ->]; now left | discriminate]
          | discriminate].
Qed.

(** C10. With no API key configured the valid-key set is exactly the
    default key; the loaded key list is never empty, so the middleware
    never takes its pass-through branch; and a request none of whose
    presented keys is configured is answered with 401. *)
Theorem default_key_keeps_check_enabled (API_KEYS : option string) :
  let apiKeys := Config._loadConfiguration_apiKeys API_KEYS in
  (Config.no_keys_configured API_KEYS -> apiKeys = ["123456"]) /\
  apiKeys <> [] /\
  (forall req,
      (forall k, In k (Config.presented_keys req) -> ~ In k apiKeys) ->
      Config.authMiddleware apiKeys req = Config.Respond401).
Proof.
  intros apiKeys. split; [|split].
  - subst apiKeys. unfold Config._loadConfiguration_apiKeys, Config.no_keys_configured.
    destruct API_KEYS as [s|]; [|reflexivity].
    intros Hblank. destruct (JS.truthy s); [|reflexivity].
    rewrite filter_truthy_blank by assumption. reflexivity.
  - apply apiKeys_nonempty.
  - intros req Hnone. unfold Config.authMiddleware.
    pose proof (apiKeys_nonempty API_KEYS) as Hne. fold apiKeys in Hne.
    destruct apiKeys as [|k0 ks] eqn:E; [congruence|]. simpl List.length. simpl Nat.eqb.
    destruct (Config.clientKey req) as [k|] eqn:Ek; [|reflexivity].
    apply clientKey_presented in Ek. specialize (Hnone k Ek).
    destruct (JS.includes_str (k0 :: ks) k) eqn:Ei.
    + apply includes_str_In in Ei. contradiction.
    + now rewrite andb_false_r.
Qed.

Lemma default_key_keeps_check_enabled_witness :
  Config.no_keys_configured (Some " , ") /\
  Config._loadConfiguration_apiKeys (Some " , ") = ["123456"] /\
  Config.authMiddleware (Config._loadConfiguration_apiKeys (Some " , "))
    {| Config.x_goog_api_key := None;
       Config.authorization := Some "Bearer secret";
       Config.x_api_key := None;
       Config.query_key := Some "" |} = Config.Respond401.
Proof.
  assert (Hb : Config.no_keys_configured (Some " , ")).
  { simpl. repeat constructor. }
  split; [exact Hb|].
  destruct (default_key_keeps_check_enabled (Some " , ")) as [H1 [_ H3]].
  split; [exact (H1 Hb)|].
  apply H3. intros k Hin.
  rewrite (H1 Hb). simpl in Hin.
  destruct Hin as [<-|[<-|[]]]; simpl; intros [H|[]]; discriminate.
Defined.

(** ** Request translation *)

Lemma prefix_cons a b p s :
  String.prefix (String a p) (String b s) =
  (Ascii.eqb a b && String.prefix p s)%bool.
Proof.
  cbn [String.prefix]. destruct (ascii_dec a b) as [->|Hne].
  - now rewrite Ascii.eqb_refl.
  - apply Ascii.eqb_neq in Hne. now rewrite Hne.
Qed.

Lemma prefix_nil s : String.prefix "" s = true.
Proof. now destruct s. Qed.

Ltac split_prefix H :=
  repeat (rewrite prefix_cons in H;
          let E := fresh "E" in
          apply andb_prop in H as [E H];
          first [ discriminate E | apply Ascii.eqb_eq in E; subst ]).

Lemma prefix_drop p s :
  String.prefix p s = true -> s = p ++ JS.drop (String.length p) s.
Proof.
  revert s. induction p as [|a p IH]; intros s H; [reflexivity|].
  destruct s as [|b s]; [discriminate H|].
  rewrite prefix_cons in H. apply andb_prop in H as [E H].
  apply Ascii.eqb_eq in E. subst b. cbn [append String.length JS.drop].
  f_equal. now apply IH.
Qed.

Section DataUrl.
Import Translator.

Let marker : string := ";base64,".

(** An occurrence of the marker cannot start inside [x] and run over the
    end of [x] into a following marker: the marker has no border. *)
Lemma prefix_marker_app x rest :
  x <> "" ->
  String.prefix marker (x ++ marker ++ rest) = true ->
  String.prefix marker x = true.
Proof.
  unfold marker. intros Hne H.
  destruct x as [|c1 x]; [congruence|]. clear Hne.
  do 7 (destruct x as [|? x];
        [ exfalso; cbn [append] in H; split_prefix H | ]).
  cbn [append] in H. split_prefix H.
  rewrite !prefix_cons. cbn. apply prefix_nil.
Qed.

Lemma split_at_marker_app x r :
  JS.str_includes x marker = false ->
  split_at_marker (x ++ marker ++ r) = Some (x, r).
Proof.
  induction x as [|c x IH]; intros Hno.
  - unfold marker. cbn [append split_at_marker].
    rewrite !prefix_cons, prefix_nil. reflexivity.
  - assert (Hp : String.prefix marker (String c x ++ marker ++ r) = false).
    { destruct (String.prefix marker (String c x ++ marker ++ r)) eqn:E; [|reflexivity].
      apply prefix_marker_app in E; [|discriminate].
      cbn [JS.str_includes] in Hno. apply orb_false_iff in Hno as [Hno _].
      unfold marker in *. congruence. }
    assert (Hx : JS.str_includes x marker = false).
    { cbn [JS.str_includes] in Hno. apply orb_false_iff in Hno as [_ Hno]. exact Hno. }
    change (String c x ++ marker ++ r) with (String c (x ++ marker ++ r)) in *.
    cbn [split_at_marker].
    unfold marker in *. rewrite Hp.
    rewrite (IH Hx). reflexivity.
Qed.

(** A data URI whose mime type is ["image/" ++ x] is decoded into that
    mime type and the payload, provided neither holds a line terminator
    and the marker does not already occur inside the mime type. *)
Lemma match_data_url_decodes x payload :
  JS.str_includes x marker = false ->
  no_line_terminator x = true ->
  no_line_terminator payload = true ->
  match_data_url ("data:image/" ++ x ++ marker ++ payload) =
  Some ("image/" ++ x, payload).
Proof.
  intros Hno Hx Hp. unfold match_data_url.
  change ("data:image/" ++ x ++ marker ++ payload)
    with ("data:image/" ++ (x ++ marker ++ payload)).
  cbn [append]. rewrite !prefix_cons, prefix_nil. cbn [Ascii.eqb Bool.eqb andb].
  cbn [JS.drop].
  rewrite split_at_marker_app by assumption.
  rewrite Hx, Hp. reflexivity.
Qed.

(** Conversely, whatever is decoded was a data URI of an image type:
    the match is the URL cut at its first marker. *)
Lemma split_at_marker_sound s x r :
  split_at_marker s = Some (x, r) -> s = x ++ ";base64," ++ r.
Proof.
  revert x r. induction s as [|c s IH]; intros x r H.
  - cbn in H. discriminate H.
  - cbn [split_at_marker] in H.
    destruct (String.prefix ";base64," (String c s)) eqn:E.
    + injection H as <- <-. apply (prefix_drop _ _ E).
    + destruct (split_at_marker s) as [[x' r']|]; [|discriminate H].
      injection H as <- <-. cbn [append]. f_equal. now apply IH.
Qed.

(** The decoded parts put back together are the URL. *)
Lemma match_data_url_sound dataUrl mime data :
  match_data_url dataUrl = Some (mime, data) ->
  dataUrl = "data:" ++ mime ++ ";base64," ++ data /\
  String.prefix "image/" mime = true /\
  no_line_terminator mime = true /\ no_line_terminator data = true.
Proof.
  unfold match_data_url. intros H.
  destruct (String.prefix "data:image/" dataUrl) eqn:E; [|discriminate H].
  apply prefix_drop in E. cbn [String.length] in E.
  destruct (split_at_marker (JS.drop 11 dataUrl)) as [[x r]|] eqn:Es; [|discriminate H].
  destruct (no_line_terminator x && no_line_terminator r)%bool eqn:En; [|discriminate H].
  injection H as <- <-. apply andb_prop in En as [Hx Hr].
  apply split_at_marker_sound in Es. rewrite Es in E.
  split; [exact E|]. split; [|split].
  - cbn [append]. rewrite !prefix_cons, prefix_nil. reflexivity.
  - change ("image/" ++ x) with (String "i" (String "m" (String "a" (String "g" (String "e" (String "/" x)))))).
    cbn [no_line_terminator]. rewrite Hx. reflexivity.
  - exact Hr.
Qed.

End DataUrl.

Section Translation.
Import Translator.





(** An image part is decoded only when its URL is a data URI of an image
    type on one line; any other URL, a data URI of another type included,
    adds no part. *)
Example only_image_data_uris_are_decoded :
  translate_part (ImageUrlPart (Some "data:application/pdf;base64,JVBERi0=")) = [] /\
  translate_part (ImageUrlPart (Some "https://example.com/cat.png")) = [] /\
  translate_part
    (ImageUrlPart (Some ("data:image/png;base64,iVBO" ++
                         String (ascii_of_nat 10) "Rw0K"))) = [].
Proof. vm_compute. auto. Qed.

(** A system message whose content is an array of parts is not
    translated: the system instruction holds what JavaScript prints for
    the array, not the texts of the parts. *)
Example system_list_content_is_not_translated :
  systemInstruction
    (_translateOpenAIToGoogle false
       {| messages :=
            [ {| role := "system";
                 content := ArrayContent [TextPart "be brief"; TextPart "be kind"] |};
              {| role := "user"; content := StringContent "hello" |} ];
          temperature := None; top_p := None; top_k := None;
          max_tokens := None; stop := None |} "") =
  Some [GText "[object Object],[object Object]"].
Proof. reflexivity. Qed.

End Translation.

(** ** The message queue *)

Section QueueClose.
Import MessageQueue Observe.

Lemma close_rejections l :
  rejections
    (flat_map (fun resolver =>
                 [ClearTimeout (timeoutId resolver);
                  Reject (promise resolver) "Queue closed"]) l) =
  map (fun r => (promise r, "Queue closed")) l.
Proof. induction l as [|r l IH]; simpl; [reflexivity | now rewrite IH]. Qed.

Lemma close_cleared l :
  cleared
    (flat_map (fun resolver =>
                 [ClearTimeout (timeoutId resolver);
                  Reject (promise resolver) "Queue closed"]) l) =
  map timeoutId l.
Proof. induction l as [|r l IH]; simpl; [reflexivity | now rewrite IH]. Qed.

Lemma close_resolutions l :
  resolutions
    (flat_map (fun resolver =>
                 [ClearTimeout (timeoutId resolver);
                  Reject (promise resolver) "Queue closed"]) l) = [].
Proof. induction l as [|r l IH]; simpl; [reflexivity | exact IH]. Qed.

(** Once closed, a queue stays closed whatever is called on it. *)
Lemma call_keeps_closed q c : closed q = true -> closed (call q c) = true.
Proof.
  intros Hc. destruct c as [m|timeoutMs p timer|p|]; simpl.
  - unfold enqueue. now rewrite Hc.
  - unfold dequeue. now rewrite Hc.
  - unfold on_timeout. destruct (existsb _ _); simpl; assumption.
  - reflexivity.
Qed.

Lemma calls_keep_closed calls : forall q,
  closed q = true -> closed (fold_left call calls q) = true.
Proof.
  induction calls as [|c calls IH]; intros q Hc; simpl; [assumption|].
  apply IH, call_keeps_closed, Hc.
Qed.

(** C6. [close()] marks the queue closed; it rejects every waiting
    consumer, each once and in order, with "Queue closed" (which is not
    the timeout error), clears their timers and resolves nobody; every
    later [dequeue], after any other calls, throws at once; and a second
    [close()] changes nothing and does nothing. *)
Theorem close_rejects_waiters_and_is_idempotent (q : MessageQueue.t) :
  let q' := fst (close q) in
  let acts := snd (close q) in
  closed q' = true /\
  rejections acts =
    map (fun r => (promise r, "Queue closed")) (waitingResolvers q) /\
  cleared acts = map timeoutId (waitingResolvers q) /\
  resolutions acts = [] /\
  "Queue closed" <> "Queue timeout" /\
  (forall calls timeoutMs p timer,
      dequeue (fold_left call calls q') timeoutMs p timer =
      Throws "Queue is closed") /\
  close q' = (q', []).
Proof.
  cbn zeta. unfold close at 1 2 3 4; cbn [fst snd closed].
  split; [reflexivity|].
  split; [apply close_rejections|].
  split; [apply close_cleared|].
  split; [apply close_resolutions|].
  split; [discriminate|].
  split.
  - intros calls timeoutMs p timer. unfold dequeue.
    rewrite calls_keep_closed; reflexivity.
  - reflexivity.
Qed.

End QueueClose.

(** ** The reconnection grace timer *)

Section Grace.
Import Registry Observe.

Lemma lookup_store h q s q' :
  lookup_queue (store_queue h q s) q' =
  if Nat.eqb q q' then Some s else lookup_queue h q'.
Proof.
  induction h as [|[k v] h IH]; simpl.
  - destruct (Nat.eqb_spec q q'); reflexivity.
  - destruct (Nat.eqb_spec k q) as [->|Hkq]; simpl.
    + destruct (Nat.eqb_spec q q'); reflexivity.
    + destruct (Nat.eqb_spec k q') as [->|Hkq'].
      * destruct (Nat.eqb_spec q q'); [congruence | reflexivity].
      * exact IH.
Qed.















Lemma no_grace_In w tm :
  grace_pending w = [] -> In tm (timers w) -> is_grace tm = false.
Proof.
  intros Hg Hin. destruct (is_grace tm) eqn:E; [|reflexivity].
  assert (H : In tm (grace_pending w)) by (apply filter_In; auto).
  rewrite Hg in H. contradiction.
Qed.



Lemma apply_actions_fields q acts : forall w,
  let w' := apply_actions q acts w in
  heap w' = heap w /\ messageQueues w' = messageQueues w /\
  emitted w' = emitted w /\ close_calls w' = close_calls w /\
  settled w' = (settled w ++ settlements acts)%list.
Proof.
  induction acts as [|a acts IH]; intros w; cbn zeta.
  - cbn. now rewrite app_nil_r.
  - cbn [apply_actions fold_left]. fold (apply_actions q acts (apply_action q a w)).
    destruct (IH (apply_action q a w)) as [H1 [H2 [H3 [H4 H5]]]].
    rewrite H1, H2, H3, H4, H5.
    destruct a; cbn; repeat split; try reflexivity;
      rewrite <- ?app_assoc; reflexivity.
Qed.












End Grace.


(** The hypothesis of [grace_window] matters: the registry keeps a set of
    connections and one timer handle. When two connections were open and
    both close, the second [_removeConnection] overwrites the timer handle
    of the first, a connection added afterwards cancels only the second
    timer, and the first one still runs the cleanup. *)
Example second_disconnect_keeps_first_timer :
  let w1 := Registry.addConnection 2 one_waiting_request in
  let w2 := Registry._removeConnection 1 w1 in
  let w3 := Registry._removeConnection 2 (Registry.advance 1000 w2) in
  let w4 := Registry.addConnection 3 (Registry.advance 2000 w3) in
  let w5 := Registry.advance 5000 w4 in
  Registry.messageQueues w5 = [] /\
  Observe.lost_count w5 = 1%nat /\
  Registry.settled w5 = [(1%nat, Registry.Rejected "Queue closed")].
Proof. vm_compute. auto. Qed.


(** ** The disconnects of a deployment with one backchannel *)

Section SessionProofs.
Import Registry Observe Session.

Lemma quiet_refl w : quiet w w.
Proof. constructor; auto. Qed.

Lemma quiet_trans w1 w2 w3 : quiet w1 w2 -> quiet w2 w3 -> quiet w1 w3.
Proof.
  intros [C1 H1 F1 T1] [C2 H2 F2 T2]. constructor; try congruence; try lia.
  intros tm Hin. destruct (T2 tm Hin) as [Hin2|Hnew]; [|now right].
  destruct (T1 tm Hin2) as [Hin1|[Hg Hlt]]; [now left|].
  right. split; [exact Hg|lia].
Qed.

Lemma grace_pending_nil w :
  (forall tm, In tm (timers w) -> is_grace tm = false) -> grace_pending w = [].
Proof.
  unfold grace_pending. induction (timers w) as [|tm l IH]; intros H; [reflexivity|].
  cbn [filter]. rewrite (H tm (or_introl eq_refl)). apply IH.
  intros tm' Hin. apply H. now right.
Qed.

Lemma quiet_inv w w' : inv w -> quiet w w' -> inv w'.
Proof.
  intros [N O H C] [Qc Qh Qf Qt]. constructor.
  - apply Forall_forall. intros tm Hin. unfold timers_named in N.
    rewrite Forall_forall in N.
    destruct (Qt tm Hin) as [Hold|[_ Hlt]]; [|exact Hlt].
    specialize (N tm Hold). cbn beta in N. lia.
  - now rewrite Qc.
  - intros tm Hin Hg. rewrite Qh.
    destruct (Qt tm Hin) as [Hold|[Hng _]]; [now apply H | congruence].
  - rewrite Qc. intros Hc. apply grace_pending_nil. intros tm Hin.
    destruct (Qt tm Hin) as [Hold|[Hng _]]; [|exact Hng].
    apply (no_grace_In w); [apply C; exact Hc | exact Hold].
Qed.

Lemma apply_action_quiet q a w :
  sets_below (fresh w) [a] -> quiet w (apply_action q a w).
Proof.
  intros Hs. destruct a as [p m|p err|id|id d p]; cbn.
  - constructor; auto.
  - constructor; auto.
  - constructor; [reflexivity|reflexivity|cbn; lia|].
    cbn. intros tm Hin. apply filter_In in Hin. now left.
  - constructor; [reflexivity|reflexivity|cbn; lia|].
    cbn. intros tm Hin. apply in_app_or in Hin as [Hin|[<-|[]]]; [now left|].
    right. split; [reflexivity|]. cbn. apply (Hs id d p). now left.
Qed.

Lemma apply_actions_quiet q acts : forall w,
  sets_below (fresh w) acts -> quiet w (apply_actions q acts w).
Proof.
  induction acts as [|a acts IH]; intros w Hs; [apply quiet_refl|].
  cbn [apply_actions fold_left]. fold (apply_actions q acts (apply_action q a w)).
  assert (Q1 : quiet w (apply_action q a w)).
  { apply apply_action_quiet. intros id d p [E|[]]. apply (Hs id d p). now left. }
  apply (quiet_trans _ _ _ Q1). apply IH.
  intros id d p Hin. pose proof (q_fresh _ _ Q1). 
  assert (id < fresh w)%nat by (apply (Hs id d p); now right). lia.
Qed.

Lemma on_queue_quiet q method w :
  (forall s, sets_below (fresh w) (snd (method s))) -> quiet w (on_queue q method w).
Proof.
  intros Hs. unfold on_queue.
  destruct (lookup_queue (heap w) q) as [s|]; [|apply quiet_refl].
  specialize (Hs s). destruct (method s) as [s' acts]. cbn [snd] in Hs.
  apply (quiet_trans _ (set_heap (store_queue (heap w) q s') w)).
  - constructor; auto.
  - apply apply_actions_quiet. exact Hs.
Qed.

Lemma close_sets_nothing n s : sets_below n (snd (MessageQueue.close s)).
Proof.
  intros id d p Hin. cbn in Hin. apply in_flat_map in Hin as [r [_ Hin]].
  destruct Hin as [D|[D|[]]]; discriminate D.
Qed.

Lemma enqueue_sets_nothing n s m : sets_below n (snd (MessageQueue.enqueue s m)).
Proof.
  intros id d p Hin. unfold MessageQueue.enqueue in Hin.
  destruct (MessageQueue.closed s); [destruct Hin|].
  destruct (MessageQueue.waitingResolvers s); cbn in Hin;
    [destruct Hin | destruct Hin as [D|[]]; discriminate D].
Qed.

Lemma on_timeout_sets_nothing n s p : sets_below n (snd (MessageQueue.on_timeout s p)).
Proof.
  intros id d p' Hin. unfold MessageQueue.on_timeout in Hin.
  destruct (existsb _ _); cbn in Hin; [destruct Hin as [D|[]]; discriminate D | destruct Hin].
Qed.

Lemma queue_close_quiet q w : quiet w (queue_close q w).
Proof.
  unfold queue_close. apply (quiet_trans _ (log_close q w)).
  - constructor; auto.
  - apply on_queue_quiet. intros s. apply close_sets_nothing.
Qed.

Lemma queue_enqueue_quiet q m w : quiet w (queue_enqueue q m w).
Proof.
  unfold queue_enqueue. apply on_queue_quiet. intros s. apply enqueue_sets_nothing.
Qed.

Lemma queue_dequeue_quiet q timeoutMs w : quiet w (fst (queue_dequeue q timeoutMs w)).
Proof.
  unfold queue_dequeue.
  destruct (lookup_queue (heap w) q) as [s|]; [|apply quiet_refl].
  destruct (MessageQueue.dequeue s timeoutMs (fresh w) (S (fresh w))) as [err|s' acts] eqn:E;
    [apply quiet_refl|].
  cbn [fst].
  apply (quiet_trans _ (set_heap (store_queue (heap w) q s') (set_fresh (S (S (fresh w))) w))).
  - constructor; auto. cbn. lia.
  - apply apply_actions_quiet. cbn. intros id d p Hin.
    unfold MessageQueue.dequeue in E.
    destruct (MessageQueue.closed s); [discriminate E|].
    destruct (MessageQueue.messages s); injection E as <- <-;
      destruct Hin as [D|[]]; first [discriminate D | injection D as <- _ _; lia].
Qed.

Lemma createMessageQueue_quiet requestId w :
  quiet w (fst (createMessageQueue requestId w)).
Proof. constructor; auto. cbn. lia. Qed.

Lemma removeMessageQueue_quiet requestId w :
  quiet w (removeMessageQueue requestId w).
Proof.
  unfold removeMessageQueue.
  destruct (map_get (messageQueues w) requestId) as [q|]; [|apply quiet_refl].
  apply (quiet_trans _ (queue_close q w)); [apply queue_close_quiet|].
  constructor; auto.
Qed.

Lemma handleIncomingMessage_quiet parsed w :
  quiet w (_handleIncomingMessage parsed w).
Proof.
  unfold _handleIncomingMessage, _routeMessage.
  destruct parsed as [m|]; [|apply quiet_refl].
  destruct (request_id m) as [rid|]; [|apply quiet_refl].
  destruct (JS.truthy rid); [|apply quiet_refl].
  destruct (map_get (messageQueues w) rid) as [q|]; [|apply quiet_refl].
  destruct (event_type m) as [et|]; [|apply quiet_refl].
  destruct (_ || _ || _)%bool; [apply queue_enqueue_quiet|].
  destruct (String.eqb et "stream_close");
    [apply queue_enqueue_quiet | apply quiet_refl].
Qed.

Lemma fold_close_quiet l : forall w,
  quiet w (fold_left (fun w (kv : string * nat) => queue_close (snd kv) w) l w).
Proof.
  induction l as [|kv l IH]; intros w; [apply quiet_refl|].
  cbn [fold_left]. apply (quiet_trans _ (queue_close (snd kv) w));
    [apply queue_close_quiet | apply IH].
Qed.

Lemma graceCleanup_quiet w : quiet w (graceCleanup w).
Proof.
  unfold graceCleanup.
  apply (quiet_trans _ _ _ (fold_close_quiet (messageQueues w) w)).
  constructor; auto.
Qed.

Lemma fire_quiet tm w : quiet w (fire tm w).
Proof.
  unfold fire. destruct (existsb _ (timers w)); [|apply quiet_refl].
  set (w1 := clearTimeout _ _).
  assert (Q1 : quiet w w1).
  { subst w1. constructor; auto. cbn. intros tm' Hin.
    apply filter_In in Hin. now left. }
  apply (quiet_trans _ _ _ Q1).
  destruct (callback tm) as [q p|].
  - apply on_queue_quiet. intros s. apply on_timeout_sets_nothing.
  - apply graceCleanup_quiet.
Qed.

Lemma fire_all_quiet l : forall w, quiet w (fire_all l w).
Proof.
  induction l as [|tm l IH]; intros w; [apply quiet_refl|].
  cbn [fire_all fold_left]. apply (quiet_trans _ (fire tm w));
    [apply fire_quiet | apply IH].
Qed.

Lemma advance_quiet t w : quiet w (advance t w).
Proof.
  unfold advance.
  eapply quiet_trans; [apply fire_all_quiet|]. constructor; cbn; auto.
Qed.

Lemma init_inv : inv init.
Proof.
  constructor; cbn; auto.
  - constructor.
  - intros tm [].
Qed.

Lemma addConnection_inv ws w :
  connections w = [] -> inv w -> inv (addConnection ws w).
Proof.
  intros Hc [N O H C].
  assert (Hno : forall tm, In tm (timers (addConnection ws w)) -> is_grace tm = false).
  { intros tm Hin. destruct (is_grace tm) eqn:Eg; [|reflexivity]. exfalso.
    unfold addConnection in Hin. destruct (reconnectGraceTimer w) as [id|] eqn:Er.
    - cbn in Hin. apply filter_In in Hin as [Hin Hne].
      specialize (H tm Hin Eg). injection H as ->.
      rewrite Nat.eqb_refl in Hne. discriminate Hne.
    - cbn in Hin. specialize (H tm Hin Eg). discriminate H. }
  constructor.
  - unfold timers_named in *. rewrite Forall_forall in *. intros tm Hin.
    unfold addConnection in *. destruct (reconnectGraceTimer w) as [id|].
    + cbn in *. apply filter_In in Hin as [Hin _]. now apply N.
    + cbn in *. now apply N.
  - unfold addConnection. destruct (reconnectGraceTimer w); cbn; rewrite Hc; cbn; lia.
  - intros tm Hin Hg. rewrite (Hno tm Hin) in Hg. discriminate Hg.
  - intros _. now apply grace_pending_nil.
Qed.

Lemma removeConnection_inv ws w :
  existsb (Nat.eqb ws) (connections w) = true -> inv w ->
  inv (_removeConnection ws w).
Proof.
  intros Hc [N O H C].
  assert (Hne : connections w <> []).
  { intros E. rewrite E in Hc. discriminate Hc. }
  specialize (C Hne).
  assert (Hcs : connections w = [ws]).
  { destruct (connections w) as [|c [|c' l]]; [congruence| |cbn in O; lia].
    cbn in Hc. rewrite orb_false_r in Hc. apply Nat.eqb_eq in Hc. now subst. }
  constructor.
  - unfold timers_named in *. rewrite Forall_forall in *. cbn.
    intros tm Hin. apply in_app_or in Hin as [Hin|[<-|[]]].
    + specialize (N tm Hin). cbn beta in N. lia.
    + cbn. lia.
  - cbn. rewrite Hcs. cbn. rewrite Nat.eqb_refl. cbn. lia.
  - cbn. intros tm Hin Hg. apply in_app_or in Hin as [Hin|[<-|[]]].
    + rewrite (no_grace_In w tm C Hin) in Hg. discriminate Hg.
    + reflexivity.
  - cbn. rewrite Hcs. cbn. rewrite Nat.eqb_refl. cbn. congruence.
Qed.

Lemma step_inv e w : allowed e w = true -> inv w -> inv (step e w).
Proof.
  intros Ha Hi. destruct e as [ws|ws|rid|rid|parsed|q t|t]; cbn [step].
  - apply addConnection_inv; [|exact Hi].
    cbn in Ha. destruct (connections w); [reflexivity|discriminate Ha].
  - now apply removeConnection_inv.
  - apply (quiet_inv w); [exact Hi | apply createMessageQueue_quiet].
  - apply (quiet_inv w); [exact Hi | apply removeMessageQueue_quiet].
  - apply (quiet_inv w); [exact Hi | apply handleIncomingMessage_quiet].
  - apply (quiet_inv w); [exact Hi | apply queue_dequeue_quiet].
  - apply (quiet_inv w); [exact Hi | apply advance_quiet].
Qed.

Lemma run_inv es : forall w w', inv w -> run es w = Some w' -> inv w'.
Proof.
  induction es as [|e es IH]; intros w w' Hi Hr; cbn in Hr.
  - now injection Hr as <-.
  - destruct (allowed e w) eqn:Ea; [|discriminate Hr].
    apply (IH (step e w)); [now apply step_inv | exact Hr].
Qed.

(** With one browser tab, whenever a connected socket closes there is no
    older grace timer pending and the timers carry names handed out
    before, which is what the grace window is proved from. *)
Theorem disconnect_finds_no_grace_timer es w ws :
  run es init = Some w -> allowed (Disconnect ws) w = true ->
  grace_pending w = [] /\ timers_named w.
Proof.
  intros Hr Ha. destruct (run_inv es init w init_inv Hr) as [N O H C].
  split; [|exact N]. apply C. intros E. cbn in Ha. rewrite E in Ha. discriminate Ha.
Qed.

(** The registry with one waiting request is such a state. *)
Example one_waiting_request_reached :
  run [Connect 1; Create "r1"; Wait 0 600000] init = Some one_waiting_request.
Proof. reflexivity. Qed.

End SessionProofs.

(** ** The request handler *)

Section HandlerProofs.
Import Handler.

(** Run a handler method symbolically: unfold the monad and the methods,
    leaving arithmetic, strings and the collaborators' answers alone. *)
Ltac mrun :=
  cbv beta iota zeta delta
    [bind ret throw try_catch try_finally when get get_res modify modify_res emit
     incr_active decr_active clamp_active res_write res_end res_set res_send
     _sendErrorResponse _sendErrorChunkToClient keepAlive_tick
     _generateRequestId hasActiveConnections _forwardRequest pop dequeue
     dequeue_ticking establish_session launchOrSwitchContext switchAccount
     createMessageQueue removeMessageQueue
     _switchToNextAuth _tryExecutePendingSwitch _handleRequestFailureAndSwitch
     completeRequest completeOpenAIRequest admitRequest
     session_error next_call effects run start delivering fresh_response status_or
     hs res queue ids_used looks browser_calls trace
     usageCount activeRequestCount pendingSwitch isAuthSwitching isSystemBusy
     currentAuthIndex statusCode headersSent writableEnded
     set_usageCount set_activeRequestCount set_pendingSwitch set_isAuthSwitching
     set_isSystemBusy set_currentAuthIndex
     at_state at_response effect
     fst snd negb andb orb]; cbn [app map].

Ltac case_oracles :=
  repeat (match goal with
    | |- context [match _getNextAuthIndex ?a ?c with _ => _ end] =>
        destruct (_getNextAuthIndex a c)
    | |- context [if JS.includes ?a ?c then _ else _] =>
        destruct (JS.includes a c)
    | |- context [match browser ?e ?n with _ => _ end] =>
        destruct (browser e n)
    end; mrun).

Ltac split_new :=
  eexists; split; [rewrite <- ?app_assoc; reflexivity|].

(** *** The receive loop

    The loop ends by itself: past the outcomes the queue holds, more fuel
    changes nothing, so [drain_queue] is the loop of the source and not a
    truncation of it. *)

Lemma drain_fuel {S : Type} timeoutMs
  (step : S -> ParsedMessage -> M S) :
  keeps_queue step ->
  forall fuel1 fuel2 acc w,
    (List.length (queue w) < fuel1)%nat -> (List.length (queue w) < fuel2)%nat ->
    drain fuel1 timeoutMs step acc w =
    drain fuel2 timeoutMs step acc w.
Proof.
  intros Hk. induction fuel1 as [|n IH]; intros [|n2] acc w H1 H2; try lia.
  cbn [drain]. unfold dequeue, bind, emit, pop. cbn.
  destruct (queue w) as [|o q] eqn:Eq; [reflexivity|].
  destruct o as [[f|]|err]; try reflexivity.
  match goal with |- context [step acc f ?w1] =>
    specialize (Hk acc f w1); destruct (step acc f w1) as [[acc'|e] w2] end;
    [|reflexivity].
  cbn in Hk. apply IH; rewrite Hk; cbn in *; lia.
Qed.

Lemma drain_queue_any_fuel {S : Type} timeoutMs
  (step : S -> ParsedMessage -> M S) fuel acc w :
  keeps_queue step -> (List.length (queue w) < fuel)%nat ->
  drain fuel timeoutMs step acc w =
  drain_queue timeoutMs step acc w.
Proof.
  intros Hk Hf. unfold drain_queue. apply drain_fuel; [exact Hk|exact Hf|lia].
Qed.

Lemma collect_keeps_queue : keeps_queue collect.
Proof. intros acc f w. reflexivity. Qed.

Lemma write_keeps_queue (chunk : ParsedMessage -> option Chunk) :
  keeps_queue (fun (_ : unit) f =>
                 when (Config.opt_truthy (data f))
                      (match chunk f with
                       | Some c => res_write c
                       | None => ret tt
                       end)).
Proof.
  intros acc f w. unfold when.
  destruct (Config.opt_truthy (data f)); [|reflexivity].
  destruct (chunk f); reflexivity.
Qed.

Lemma completeRequest_last cfg env requestId w :
  pendingSwitch (hs w) = true -> isAuthSwitching (hs w) = false ->
  activeRequestCount (hs w) <= 1 ->
  let w' := snd (completeRequest cfg env requestId w) in
  (exists new, trace w' = (trace w ++ new)%list /\ one_deferred_rotation new) /\
  pendingSwitch (hs w') = false /\ activeRequestCount (hs w') = 0 /\
  isAuthSwitching (hs w') = false.
Proof.
  destruct w as [[u a p sw busy cur] r q i l b t].
  cbn [hs pendingSwitch isAuthSwitching activeRequestCount].
  intros -> -> Ha. unfold one_deferred_rotation, rotations. mrun.
  destruct (Z.ltb_spec (a - 1) 0) as [Hlt|Hge].
  - mrun. rewrite Z.eqb_refl. mrun. case_oracles.
    all: (split; [split_new; cbn; split; [reflexivity|];
                  repeat constructor; cbn; intros; try discriminate;
                  repeat split; try reflexivity; try lia
                 | repeat split; try reflexivity; try lia]).
  - mrun. replace (a - 1 =? 0) with true by (symmetry; apply Z.eqb_eq; lia).
    mrun. case_oracles.
    all: (split; [split_new; cbn; split; [reflexivity|];
                  repeat constructor; cbn; intros; try discriminate;
                  repeat split; try reflexivity; try lia
                 | repeat split; try reflexivity; try lia]).
Qed.

Lemma completeOpenAIRequest_last cfg env requestId w :
  pendingSwitch (hs w) = true -> isAuthSwitching (hs w) = false ->
  activeRequestCount (hs w) <= 1 ->
  let w' := snd (completeOpenAIRequest cfg env requestId w) in
  (exists new, trace w' = (trace w ++ new)%list /\ one_deferred_rotation new) /\
  pendingSwitch (hs w') = false /\ activeRequestCount (hs w') = 0 /\
  isAuthSwitching (hs w') = false.
Proof.
  destruct w as [[u a p sw busy cur] [sc hsent ended] q i l b t].
  cbn [hs pendingSwitch isAuthSwitching activeRequestCount].
  intros -> -> Ha. unfold one_deferred_rotation, rotations. mrun.
  destruct ended; mrun.
  all: destruct (Z.ltb_spec (a - 1) 0) as [Hlt|Hge]; mrun;
    [rewrite Z.eqb_refl
    |replace (a - 1 =? 0) with true by (symmetry; apply Z.eqb_eq; lia)];
    mrun; case_oracles.
  all: (split; [split_new; cbn; split; [reflexivity|];
                repeat constructor; cbn; intros; try discriminate;
                repeat split; try reflexivity; try lia
               | repeat split; try reflexivity; try lia]).
Qed.

Lemma tryExecutePendingSwitch_waits cfg env w :
  pendingSwitch (hs w) = true -> 0 < activeRequestCount (hs w) ->
  _tryExecutePendingSwitch cfg env w = (Ok tt, w).
Proof.
  destruct w as [[u a p sw busy cur] r q i l b t].
  cbn [hs pendingSwitch activeRequestCount]. intros -> Ha. mrun.
  replace (a =? 0) with false by (symmetry; apply Z.eqb_neq; lia).
  reflexivity.
Qed.

Lemma completeRequest_not_last cfg env requestId w :
  1 < activeRequestCount (hs w) ->
  let w' := snd (completeRequest cfg env requestId w) in
  rotations (trace w') = rotations (trace w) /\
  pendingSwitch (hs w') = pendingSwitch (hs w) /\
  activeRequestCount (hs w') = activeRequestCount (hs w) - 1.
Proof.
  destruct w as [[u a p sw busy cur] r q i l b t].
  cbn [hs pendingSwitch activeRequestCount]. intros Ha. unfold rotations. mrun.
  replace (a - 1 <? 0) with false by (symmetry; apply Z.ltb_ge; lia). mrun.
  replace (a - 1 =? 0) with false by (symmetry; apply Z.eqb_neq; lia).
  destruct p; mrun; rewrite filter_app, length_app; cbn; repeat split; lia.
Qed.

Lemma completeOpenAIRequest_not_last cfg env requestId w :
  1 < activeRequestCount (hs w) ->
  let w' := snd (completeOpenAIRequest cfg env requestId w) in
  rotations (trace w') = rotations (trace w) /\
  pendingSwitch (hs w') = pendingSwitch (hs w) /\
  activeRequestCount (hs w') = activeRequestCount (hs w) - 1.
Proof.
  destruct w as [[u a p sw busy cur] [sc hsent ended] q i l b t].
  cbn [hs pendingSwitch activeRequestCount]. intros Ha. unfold rotations. mrun.
  destruct ended; mrun.
  all: replace (a - 1 <? 0) with false by (symmetry; apply Z.ltb_ge; lia); mrun;
    replace (a - 1 =? 0) with false by (symmetry; apply Z.eqb_neq; lia);
    destruct p; mrun; rewrite ?filter_app, ?length_app; cbn; repeat split; lia.
Qed.

Lemma rotation_runs_while_requests_active :
  ~ (forall cfg env req s0 q x,
        In x (run (processRequest cfg env req) (start s0 fresh_response q)) ->
        is_rotation (effect x) = true ->
        ~ (pendingSwitch (at_state x) = true /\
           0 < activeRequestCount (at_state x))).
Proof.
  intros H.
  apply (H Scenario.cfg Scenario.env Scenario.generate (initial 1)
           [Arrives (Scenario.error_frame 429 "quota exceeded")]
           {| at_state :=
                {| usageCount := 1; activeRequestCount := 1; pendingSwitch := true;
                   isAuthSwitching := true; isSystemBusy := true;
                   currentAuthIndex := 1 |};
              at_response :=
                {| statusCode := 503; headersSent := true; writableEnded := true |};
              effect := SwitchAccount (Some 3) |}).
  - vm_compute. auto 10.
  - reflexivity.
  - split; [reflexivity | reflexivity].
Qed.

(** C5. When the single-flight guard is open, [_switchToNextAuth] computes
    the index after the current one and tries to establish a session on
    it. If that succeeds, the usage counter is 0, that index is current
    and the result reports success. If it fails, the previous index is
    re-established: when that succeeds the usage counter is 0, the
    previous index is current and the result reports a fallback without
    success; when that fails too, the fallback's error is thrown. In every
    case both guard flags are released and the pending flag and the
    active count are untouched. *)
Theorem rotate_outcomes cfg env w :
  isAuthSwitching (hs w) = false ->
  let previous := currentAuthIndex (hs w) in
  let next := _getNextAuthIndex (availableIndices cfg) previous in
  let n1 := browser_calls w in
  let n2 := next_call cfg next n1 in
  let r := fst (_switchToNextAuth cfg env w) in
  let w' := snd (_switchToNextAuth cfg env w) in
  isAuthSwitching (hs w') = false /\ isSystemBusy (hs w') = false /\
  pendingSwitch (hs w') = pendingSwitch (hs w) /\
  activeRequestCount (hs w') = activeRequestCount (hs w) /\
  match session_error cfg env next n1 with
  | None =>
      effects (trace w') =
        (effects (trace w) ++ [SwitchAccount next; LaunchOrSwitchContext next])%list /\
      r = Ok {| success := true; fallback := false; newIndex := next; reason := None |} /\
      usageCount (hs w') = 0 /\ Some (currentAuthIndex (hs w')) = next
  | Some _ =>
      effects (trace w') =
        (effects (trace w) ++
         [SwitchAccount next; LaunchOrSwitchContext next;
          LaunchOrSwitchContext (Some previous)])%list /\
      match session_error cfg env (Some previous) n2 with
      | None =>
          r = Ok {| success := false; fallback := true;
                    newIndex := Some previous; reason := None |} /\
          usageCount (hs w') = 0 /\ currentAuthIndex (hs w') = previous
      | Some err =>
          r = Throw err /\ usageCount (hs w') = usageCount (hs w) /\
          currentAuthIndex (hs w') = previous
      end
  end.
Proof.
  destruct w as [[u a p sw busy cur] r q i l b t].
  intros Hsw. cbn in Hsw. subst sw. mrun.
  destruct (_getNextAuthIndex (availableIndices cfg) cur) as [n|].
  - destruct (JS.includes (availableIndices cfg) n).
    + destruct (browser env b) as [e1|].
      * destruct (JS.includes (availableIndices cfg) cur).
        -- destruct (browser env (S b)) as [e2|];
             rewrite !map_app, <- !app_assoc; repeat split; reflexivity.
        -- rewrite !map_app, <- !app_assoc; repeat split; reflexivity.
      * rewrite !map_app, <- !app_assoc; repeat split; reflexivity.
    + destruct (JS.includes (availableIndices cfg) cur).
      * destruct (browser env b) as [e2|];
          rewrite !map_app, <- !app_assoc; repeat split; reflexivity.
      * rewrite !map_app, <- !app_assoc; repeat split; reflexivity.
  - destruct (JS.includes (availableIndices cfg) cur).
    + destruct (browser env b) as [e2|];
        rewrite !map_app, <- !app_assoc; repeat split; reflexivity.
    + rewrite !map_app, <- !app_assoc; repeat split; reflexivity.
Qed.

Lemma rotate_outcomes_witness :
  isAuthSwitching (hs (start (initial 1) fresh_response [])) = false /\
  fst (_switchToNextAuth Scenario.cfg Scenario.env
         (start (initial 1) fresh_response [])) =
  Ok {| success := true; fallback := false; newIndex := Some 3; reason := None |}.
Proof.
  split; [reflexivity|].
  destruct (rotate_outcomes Scenario.cfg Scenario.env
              (start (initial 1) fresh_response []) eq_refl)
    as [_ [_ [_ [_ H]]]].
  exact (proj1 (proj2 H)).
Defined.

(** The guard: while a switch is in progress, a second call does nothing
    and reports it. *)
Lemma rotate_single_flight cfg env w :
  isAuthSwitching (hs w) = true ->
  _switchToNextAuth cfg env w =
  (Ok {| success := false; fallback := false; newIndex := None;
         reason := Some "Switch already in progress." |}, w).
Proof.
  destruct w as [[u a p sw busy cur] r q i l b t].
  cbn [hs isAuthSwitching]. intros ->. reflexivity.
Qed.

(** C1, as the code has it. With a switch pending: the deferred routine
    [_tryExecutePendingSwitch] does nothing while a request is active;
    the completion of a request that is not the last one decrements the
    count, starts no rotation and leaves the switch pending; and the
    completion of the last one, with no switch running, starts exactly one
    rotation, at count 0, and clears the pending flag. (The immediate
    switch and the operator's switch do not wait for the count.) *)
Theorem deferred_rotation_waits_for_drain cfg env w requestId :
  pendingSwitch (hs w) = true ->
  (0 < activeRequestCount (hs w) ->
   _tryExecutePendingSwitch cfg env w = (Ok tt, w)) /\
  (1 < activeRequestCount (hs w) ->
   (let w' := snd (completeRequest cfg env requestId w) in
    rotations (trace w') = rotations (trace w) /\
    pendingSwitch (hs w') = true /\
    activeRequestCount (hs w') = activeRequestCount (hs w) - 1) /\
   (let w' := snd (completeOpenAIRequest cfg env requestId w) in
    rotations (trace w') = rotations (trace w) /\
    pendingSwitch (hs w') = true /\
    activeRequestCount (hs w') = activeRequestCount (hs w) - 1)) /\
  (isAuthSwitching (hs w) = false -> activeRequestCount (hs w) <= 1 ->
   (let w' := snd (completeRequest cfg env requestId w) in
    (exists new, trace w' = (trace w ++ new)%list /\ one_deferred_rotation new) /\
    pendingSwitch (hs w') = false /\ activeRequestCount (hs w') = 0 /\
    isAuthSwitching (hs w') = false) /\
   (let w' := snd (completeOpenAIRequest cfg env requestId w) in
    (exists new, trace w' = (trace w ++ new)%list /\ one_deferred_rotation new) /\
    pendingSwitch (hs w') = false /\ activeRequestCount (hs w') = 0 /\
    isAuthSwitching (hs w') = false)).
Proof.
  intros Hp. split; [|split].
  - intros Ha. now apply tryExecutePendingSwitch_waits.
  - intros Ha. split.
    + destruct (completeRequest_not_last cfg env requestId w Ha) as [H1 [H2 H3]].
      cbv zeta. repeat split; [exact H1 | rewrite H2; exact Hp | exact H3].
    + destruct (completeOpenAIRequest_not_last cfg env requestId w Ha) as [H1 [H2 H3]].
      cbv zeta. repeat split; [exact H1 | rewrite H2; exact Hp | exact H3].
  - intros Hs Ha. split.
    + now apply completeRequest_last.
    + now apply completeOpenAIRequest_last.
Qed.

Lemma deferred_rotation_waits_for_drain_witness :
  let w := start {| usageCount := 1; activeRequestCount := 1;
                    pendingSwitch := true; isAuthSwitching := false;
                    isSystemBusy := false; currentAuthIndex := 1 |}
                 fresh_response [] in
  pendingSwitch (hs w) = true /\ 0 < activeRequestCount (hs w) /\
  isAuthSwitching (hs w) = false /\ activeRequestCount (hs w) <= 1 /\
  _tryExecutePendingSwitch Scenario.cfg Scenario.env w = (Ok tt, w) /\
  pendingSwitch (hs (snd (completeRequest Scenario.cfg Scenario.env "r1" w))) = false.
Proof.
  cbv zeta.
  set (w := start _ _ _).
  assert (Hp : pendingSwitch (hs w) = true) by reflexivity.
  assert (Ha : 0 < activeRequestCount (hs w)) by reflexivity.
  assert (Hs : isAuthSwitching (hs w) = false) by reflexivity.
  assert (Hl : activeRequestCount (hs w) <= 1) by (cbn; lia).
  destruct (deferred_rotation_waits_for_drain Scenario.cfg Scenario.env w "r1" Hp)
    as [H1 [_ H3]].
  repeat (split; [assumption|]).
  split; [exact (H1 Ha)|].
  destruct (H3 Hs Hl) as [[_ [H _]] _]. exact H.
Defined.

(** A completion path without the deferred rotation: a chat request whose
    body cannot be translated is counted, may raise the pending flag, and
    returns after a bare decrement. With rotation after every use, the
    first such request leaves the switch pending with no request active
    and no rotation started, and the next request is turned away. *)
Example untranslatable_chat_request_leaves_switch_pending :
  let w1 := snd (processOpenAIRequest Scenario.cfg Scenario.env
                   Scenario.malformed_chat
                   (start (initial 1) fresh_response [])) in
  let w2 := snd (processRequest Scenario.cfg Scenario.env Scenario.generate
                   (start (hs w1) fresh_response [])) in
  pendingSwitch (hs w1) = true /\ activeRequestCount (hs w1) = 0 /\
  isAuthSwitching (hs w1) = false /\ rotations (trace w1) = 0%nat /\
  effects (trace w1) = [SendError 400 "Invalid OpenAI request format."] /\
  effects (trace w2) = [SendError 503 msg_rotating].
Proof. vm_compute. repeat split. Qed.

(** C2, as the code has it. Rule 1: with a switch pending or in progress,
    [processRequest] (in its admission part) and [processOpenAIRequest]
    answer 503 "rotating" and nothing else happens; no counter is touched
    at any point. Otherwise [processRequest] first increments
    [activeRequestCount]; each later rejection (busy, or no backchannel
    and a failed recovery) decrements it again before the 503 is sent, so
    the counters end as they began, and [usageCount] is never touched;
    an admitted request leaves the count incremented. *)
Theorem admission_rules cfg env s0 q :
  let w0 := start s0 fresh_response q in
  let bumped := set_activeRequestCount (activeRequestCount s0 + 1) s0 in
  let id := requestIds env 0 in
  let cur := Some (currentAuthIndex s0) in
  ((pendingSwitch s0 || isAuthSwitching s0)%bool = true ->
   (fst (admitRequest cfg env w0) = Ok None /\
    hs (snd (admitRequest cfg env w0)) = s0 /\
    effects (run (admitRequest cfg env) w0) = [SendError 503 msg_rotating] /\
    map at_state (run (admitRequest cfg env) w0) = [s0]) /\
   (forall req,
       hs (snd (processOpenAIRequest cfg env req w0)) = s0 /\
       effects (run (processOpenAIRequest cfg env req) w0) =
         [SendError 503 msg_rotating] /\
       map at_state (run (processOpenAIRequest cfg env req) w0) = [s0])) /\
  ((pendingSwitch s0 || isAuthSwitching s0)%bool = false ->
   (isSystemBusy s0 = true ->
    fst (admitRequest cfg env w0) = Ok None /\
    hs (snd (admitRequest cfg env w0)) = s0 /\
    effects (run (admitRequest cfg env) w0) = [OnClose id; SendError 503 msg_maintenance] /\
    map at_state (run (admitRequest cfg env) w0) = [bumped; s0]) /\
   (isSystemBusy s0 = false -> connected env 0 = false ->
    forall err, session_error cfg env cur 0 = Some err ->
    fst (admitRequest cfg env w0) = Ok None /\
    hs (snd (admitRequest cfg env w0)) = s0 /\
    effects (run (admitRequest cfg env) w0) =
      [OnClose id; LaunchOrSwitchContext cur; SendError 503 msg_crashed] /\
    map at_state (run (admitRequest cfg env) w0) =
      [bumped; set_isSystemBusy true bumped; s0]) /\
   (isSystemBusy s0 = false -> connected env 0 = false ->
    session_error cfg env cur 0 = None ->
    fst (admitRequest cfg env w0) = Ok (Some id) /\
    hs (snd (admitRequest cfg env w0)) = bumped /\
    effects (run (admitRequest cfg env) w0) = [OnClose id; LaunchOrSwitchContext cur] /\
    map at_state (run (admitRequest cfg env) w0) = [bumped; set_isSystemBusy true bumped]) /\
   (isSystemBusy s0 = false -> connected env 0 = true ->
    fst (admitRequest cfg env w0) = Ok (Some id) /\
    hs (snd (admitRequest cfg env w0)) = bumped /\
    effects (run (admitRequest cfg env) w0) = [OnClose id] /\
    map at_state (run (admitRequest cfg env) w0) = [bumped])).
Proof.
  destruct s0 as [u a p sw busy cur0]. cbv zeta. split.
  - intros Hg. cbn in Hg. split.
    + unfold run. destruct p, sw; try discriminate Hg; mrun; repeat split.
    + intros req. unfold run, processOpenAIRequest.
      destruct p, sw; try discriminate Hg; mrun; repeat split.
  - intros Hg. cbn in Hg. apply orb_false_iff in Hg as [-> ->].
    split; [|split; [|split]].
    + cbn [isSystemBusy]. intros ->. unfold run. mrun.
      destruct (connected env 0); mrun; rewrite ?Z.add_simpl_r; repeat split.
    + cbn [isSystemBusy]. intros -> Hc err He. unfold run. mrun. rewrite Hc. mrun.
      unfold session_error in He. cbn [currentAuthIndex] in He.
      destruct (JS.includes (availableIndices cfg) cur0); mrun.
      * rewrite He. mrun. rewrite ?Z.add_simpl_r. repeat split.
      * rewrite ?Z.add_simpl_r. repeat split.
    + cbn [isSystemBusy]. intros -> Hc He. unfold run. mrun. rewrite Hc. mrun.
      unfold session_error in He. cbn [currentAuthIndex] in He.
      destruct (JS.includes (availableIndices cfg) cur0); [|discriminate]. mrun.
      rewrite He. mrun. repeat split.
    + cbn [isSystemBusy]. intros -> Hc. unfold run. mrun. rewrite Hc. mrun.
      repeat split.
Qed.

(** C2 as stated fails: a request turned away for want of a backchannel
    was counted as active first. *)
Lemma rejection_after_counting :
  ~ (forall cfg env s0 q,
        fst (admitRequest cfg env (start s0 fresh_response q)) = Ok None ->
        counters_untouched s0 (run (admitRequest cfg env) (start s0 fresh_response q))).
Proof.
  intros H.
  specialize (H Scenario.cfg Scenario.env_down (initial 1) [] eq_refl).
  vm_compute in H. inversion H as [|x l [_ Hx] _]. discriminate Hx.
Qed.

Lemma admission_rules_witness :
  let s0 := {| usageCount := 40; activeRequestCount := 2; pendingSwitch := true;
               isAuthSwitching := false; isSystemBusy := false;
               currentAuthIndex := 1 |} in
  (pendingSwitch s0 || isAuthSwitching s0)%bool = true /\
  effects (run (admitRequest Scenario.cfg Scenario.env) (start s0 fresh_response [])) =
    [SendError 503 msg_rotating] /\
  isSystemBusy (initial 1) = false /\
  connected Scenario.env_down 0 = false /\
  hs (snd (admitRequest Scenario.cfg Scenario.env_down
             (start (initial 1) fresh_response []))) = initial 1.
Proof.
  cbv zeta. split; [reflexivity|].
  split.
  - destruct (admission_rules Scenario.cfg Scenario.env
                {| usageCount := 40; activeRequestCount := 2; pendingSwitch := true;
                   isAuthSwitching := false; isSystemBusy := false;
                   currentAuthIndex := 1 |} []) as [H _].
    destruct (H eq_refl) as [[_ [_ [E _]]] _]. exact E.
  - split; [reflexivity|]. split; [reflexivity|].
    destruct (admission_rules Scenario.cfg Scenario.env_down (initial 1) [])
      as [_ H].
    destruct (H eq_refl) as [_ [H2 _]].
    destruct (H2 eq_refl eq_refl "crashed" eq_refl) as [_ [E _]]. exact E.
Defined.

(** *** The immediate switch *)

Ltac give_parts :=
  match goal with
  | |- immediate_switch_order _ _ _ (?a :: ?b :: ?c :: ?post) =>
      exists [a; b], [c], post
  end;
  split; [reflexivity|];
  split; [repeat constructor|];
  split; [left; split; [reflexivity | repeat constructor]|];
  split; [repeat constructor|];
  first [reflexivity | eexists; reflexivity].

Lemma is_error_frame m : event_type m = Some "error" -> is_error (Frame m) = true.
Proof. intros H. unfold is_error. now rewrite H. Qed.

Lemma deliverOpenAI_immediate cfg env pr s0 m rest isStream model id i l b :
  event_type m = Some "error" -> is_immediate cfg (status m) = true ->
  connected env l = true ->
  immediate_switch_order (userMsg (status m)) (isAuthSwitching s0)
    (_getNextAuthIndex (availableIndices cfg) (currentAuthIndex s0))
    (run (deliverOpenAI cfg env isStream model id pr)
         (delivering i l b s0 (Arrives (Frame m) :: rest))).
Proof.
  intros He Hi Hc. destruct s0 as [u a p sw busy cur].
  unfold deliverOpenAI. mrun. rewrite Hc. mrun.
  rewrite (is_error_frame m He). cbn [fields]. rewrite Hi. mrun.
  destruct sw; mrun; case_oracles; give_parts.
Qed.

Lemma user_aborted_fields m : user_aborted (fields (Frame m)) = user_aborted m.
Proof. reflexivity. Qed.

Lemma realStream_immediate cfg env pr s0 m rest i l b :
  event_type m = Some "error" -> is_immediate cfg (status m) = true ->
  connected env l = true -> user_aborted m = false ->
  immediate_switch_order (userMsg (status m)) (isAuthSwitching s0)
    (_getNextAuthIndex (availableIndices cfg) (currentAuthIndex s0))
    (run (_handleRealStreamResponse cfg env pr)
         (delivering i l b s0 (Arrives (Frame m) :: rest))).
Proof.
  intros He Hi Hc Ha. destruct s0 as [u a p sw busy cur].
  unfold _handleRealStreamResponse. mrun. rewrite Hc. mrun.
  rewrite (is_error_frame m He). cbn [fields]. rewrite Ha, Hi. mrun.
  destruct sw; mrun; case_oracles; give_parts.
Qed.

Lemma nonStream_immediate cfg env pr s0 m rest i l b :
  event_type m = Some "error" -> is_immediate cfg (status m) = true ->
  connected env l = true -> user_aborted m = false ->
  immediate_switch_order (userMsg (status m)) (isAuthSwitching s0)
    (_getNextAuthIndex (availableIndices cfg) (currentAuthIndex s0))
    (run (_handleNonStreamResponse cfg env pr)
         (delivering i l b s0 (Arrives (Frame m) :: rest))).
Proof.
  intros He Hi Hc Ha. destruct s0 as [u a p sw busy cur].
  unfold _handleNonStreamResponse. mrun. rewrite Hc. mrun.
  rewrite (is_error_frame m He). cbn [fields]. rewrite Ha, Hi. mrun.
  destruct sw; mrun; case_oracles; give_parts.
Qed.

(** The keep-alive interval firing [n] times on an open response. *)
Lemma repeat_ticks_open n : forall w,
  writableEnded (res w) = false ->
  exists snaps,
    List.length snaps = n /\
    Forall (fun x => effect x = Write KeepAlive /\ at_state x = hs w /\
                     writableEnded (at_response x) = false) snaps /\
    repeat_ticks n w =
    (Ok tt,
     {| hs := hs w;
        res := {| statusCode := statusCode (res w);
                  headersSent := (headersSent (res w) || (0 <? n)%nat)%bool;
                  writableEnded := false |};
        queue := queue w; ids_used := ids_used w; looks := looks w;
        browser_calls := browser_calls w;
        trace := (trace w ++ snaps)%list |}).
Proof.
  induction n as [|n IH]; intros [s [sc hsent ended] q i l b t] Hopen;
    cbn [res writableEnded] in Hopen; subst ended.
  - exists []. cbn. rewrite app_nil_r, orb_false_r. repeat split. constructor.
  - cbn [repeat_ticks]. mrun.
    match goal with
    | |- context [repeat_ticks n ?w1] =>
        destruct (IH w1 eq_refl) as [snaps [Hlen [Hall Heq]]]; rewrite Heq
    end.
    cbn [hs res queue ids_used looks browser_calls trace statusCode headersSent] in *.
    exists ({| at_state := s;
               at_response := {| statusCode := sc; headersSent := hsent;
                                 writableEnded := false |};
               effect := Write KeepAlive |} :: snaps).
    split; [cbn; now rewrite Hlen|].
    split.
    + constructor; [cbn; auto | exact Hall].
    + rewrite <- app_assoc. cbn [app Nat.ltb Nat.leb orb].
      destruct hsent; reflexivity.
Qed.

Lemma pseudoStream_immediate cfg env pr s0 m rest i l b :
  event_type m = Some "error" -> is_immediate cfg (status m) = true ->
  connected env l = true -> user_aborted m = false ->
  immediate_switch_order (userMsg (status m)) (isAuthSwitching s0)
    (_getNextAuthIndex (availableIndices cfg) (currentAuthIndex s0))
    (run (_handlePseudoStreamResponse cfg env pr)
         (delivering i l b s0 (Arrives (Frame m) :: rest))).
Proof.
  intros He Hi Hc Ha. destruct s0 as [u a p sw busy cur].
  unfold _handlePseudoStreamResponse. mrun. rewrite Hc. mrun.
  match goal with
  | |- context [repeat_ticks ?n ?w1] =>
      destruct (repeat_ticks_open n w1 eq_refl) as [snaps [Hlen [Hall Heq]]];
      rewrite Heq; clear Heq
  end.
  mrun. rewrite (is_error_frame m He). cbn [fields]. rewrite Ha, Hi. mrun.
  assert (Hpre : Forall (fun x => is_rotation (effect x) = false /\
                                  writableEnded (at_response x) = false) snaps).
  { eapply Forall_impl; [|exact Hall]. cbn. intros x [E [_ W]]. rewrite E. auto. }
  destruct (ticks env 0) as [|k].
  - destruct snaps; [|discriminate Hlen]. cbn [app Nat.ltb Nat.leb].
    destruct sw; mrun; case_oracles;
      (match goal with
       | |- immediate_switch_order _ _ _ (?a :: ?b :: ?c :: ?d :: ?post) =>
           exists [a; b; c], [d], post
       end;
       split; [reflexivity|];
       split; [repeat constructor|];
       split; [left; split; [reflexivity | repeat constructor]|];
       split; [repeat constructor|];
       first [reflexivity | eexists; reflexivity]).
  - cbn [Nat.ltb Nat.leb].
    destruct sw; mrun; case_oracles;
      (rewrite <- ?app_assoc; cbn [app];
       match goal with
       | |- immediate_switch_order _ _ _
              (?a :: ?b :: ?c :: (?sn ++ ?d :: ?e :: ?post)%list) =>
           exists (a :: b :: c :: sn), [d; e], post
       end;
       split; [cbn [app]; rewrite <- ?app_assoc; reflexivity|];
       split; [repeat (constructor; [cbn; auto|]); exact Hpre|];
       split; [right; split; [reflexivity | repeat constructor]|];
       split; [repeat constructor|];
       first [reflexivity | eexists; reflexivity]).
Qed.

(** The model list is another matter: its handler answers any upstream
    error with a 500 and never calls [_handleRequestFailureAndSwitch]. *)
Lemma modelList_error_no_switch cfg env req s0 m rest i l b :
  event_type m = Some "error" -> connected env l = true ->
  let w0 := delivering i l b s0 (Arrives (Frame m) :: rest) in
  let id := requestIds env i in
  effects (run (processModelListRequest cfg env req) w0) =
    [CreateMessageQueue id;
     Forward {| pr_path := "/v1beta/models"; pr_method := "GET"; pr_body := None;
                pr_request_id := id; pr_streaming_mode := "fake";
                pr_is_generative := false |};
     Dequeue MessageQueue.defaultTimeout;
     SendError 500 "Failed to fetch model list.";
     RemoveMessageQueue id] /\
  rotations (run (processModelListRequest cfg env req) w0) = 0%nat /\
  hs (snd (processModelListRequest cfg env req w0)) = s0.
Proof.
  intros He Hc. cbv zeta. unfold processModelListRequest. mrun.
  rewrite Hc. mrun.
  unfold is_error. rewrite He. cbn [String.eqb Ascii.eqb Bool.eqb].
  destruct (message (fields (Frame m))) as [msg|]; [destruct (JS.truthy msg)|];
    mrun; auto.
Qed.

(** C3, as the code has it. When the first upstream event of a request
    dispatched by [processOpenAIRequest] or [processRequest] is an error
    whose status is in the immediate-switch set (on the three
    native-dialect handlers: and whose message does not say the user
    aborted the request), the client is first sent the 503, or the
    error chunk and the end of the stream if a keep-alive already went
    out; only then does the rotation start, whatever the number of active
    requests, unless a switch is already in progress. A model-list request
    is answered with the 500 "Failed to fetch model list." instead, and no
    rotation starts. *)
Theorem immediate_switch_responds_then_rotates cfg env pr s0 m rest i l b :
  event_type m = Some "error" -> is_immediate cfg (status m) = true ->
  connected env l = true ->
  let w0 := delivering i l b s0 (Arrives (Frame m) :: rest) in
  let ordered :=
    immediate_switch_order (userMsg (status m)) (isAuthSwitching s0)
      (_getNextAuthIndex (availableIndices cfg) (currentAuthIndex s0)) in
  (forall isStream model id,
      ordered (run (deliverOpenAI cfg env isStream model id pr) w0)) /\
  (user_aborted m = false ->
   ordered (run (_handleRealStreamResponse cfg env pr) w0) /\
   ordered (run (_handleNonStreamResponse cfg env pr) w0) /\
   ordered (run (_handlePseudoStreamResponse cfg env pr) w0)) /\
  (forall req,
      let id := requestIds env i in
      effects (run (processModelListRequest cfg env req) w0) =
        [CreateMessageQueue id;
         Forward {| pr_path := "/v1beta/models"; pr_method := "GET";
                    pr_body := None; pr_request_id := id;
                    pr_streaming_mode := "fake"; pr_is_generative := false |};
         Dequeue MessageQueue.defaultTimeout;
         SendError 500 "Failed to fetch model list.";
         RemoveMessageQueue id] /\
      rotations (run (processModelListRequest cfg env req) w0) = 0%nat /\
      hs (snd (processModelListRequest cfg env req w0)) = s0).
Proof.
  intros He Hi Hc. cbv zeta. split; [|split].
  - intros isStream model id. now apply deliverOpenAI_immediate.
  - intros Ha. split; [|split].
    + now apply realStream_immediate.
    + now apply nonStream_immediate.
    + now apply pseudoStream_immediate.
  - intros req. now apply modelList_error_no_switch.
Qed.

Lemma immediate_switch_responds_then_rotates_witness :
  let m := fields (Scenario.error_frame 429 "quota exceeded") in
  event_type m = Some "error" /\
  is_immediate Scenario.cfg (status m) = true /\
  connected Scenario.env 0 = true /\
  user_aborted m = false /\
  immediate_switch_order (userMsg (status m)) false (Some 3)
    (run (_handleNonStreamResponse Scenario.cfg Scenario.env Scenario.envelope)
         (delivering 0 0 0 (initial 1)
                [Arrives (Scenario.error_frame 429 "quota exceeded")])).
Proof.
  cbv zeta.
  repeat (split; [reflexivity|]).
  destruct (immediate_switch_responds_then_rotates Scenario.cfg Scenario.env
              Scenario.envelope (initial 1)
              (fields (Scenario.error_frame 429 "quota exceeded")) []
              O O O eq_refl eq_refl eq_refl) as [_ [H _]].
  destruct (H eq_refl) as [_ [Hn _]]. exact Hn.
Defined.

(** C3 as stated fails: an error in the immediate-switch set whose message
    says the user aborted the request is passed on with its own status,
    and no rotation follows. *)
Lemma aborted_error_is_not_switched :
  ~ (forall cfg env pr s0 m rest i l b,
        event_type m = Some "error" -> is_immediate cfg (status m) = true ->
        connected env l = true ->
        immediate_switch_order (userMsg (status m)) (isAuthSwitching s0)
          (_getNextAuthIndex (availableIndices cfg) (currentAuthIndex s0))
          (run (_handleNonStreamResponse cfg env pr)
               (delivering i l b s0 (Arrives (Frame m) :: rest)))).
Proof.
  intros H.
  specialize (H Scenario.cfg40 Scenario.env Scenario.envelope (initial 1)
                (fields (Scenario.error_frame 429 "The user aborted a request."))
                [] O O O eq_refl eq_refl eq_refl).
  destruct H as [pre [resp [post [Htr [_ [Hresp _]]]]]].
  apply (f_equal effects) in Htr. unfold effects in Htr, Hresp.
  rewrite !map_app in Htr. vm_compute in Htr.
  assert (Hin : forall e, In e (map effect resp) ->
                  In e [Forward Scenario.envelope; Dequeue 600000;
                        SendError 429 "The user aborted a request."]).
  { intros e He. change Scenario.envelope with
      {| pr_path := "/v1beta/models/gemini-pro:generateContent";
         pr_method := "POST"; pr_body := Some "{}"; pr_request_id := "r1";
         pr_streaming_mode := "fake"; pr_is_generative := true |}.
    rewrite Htr. apply in_or_app. right. apply in_or_app. now left. }
  destruct Hresp as [[E _]|[E _]]; rewrite E in Hin.
  - destruct (Hin _ (or_introl eq_refl)) as [D|[D|[D|[]]]]; discriminate D.
  - destruct (Hin _ (or_introl eq_refl)) as [D|[D|[D|[]]]]; discriminate D.
Qed.

(** *** The model list *)


























End HandlerProofs.

(** ** Sequences of calls on one queue *)

Section QueueRunsProofs.
Import MessageQueue Observe QueueRuns.

Lemma calls_cons q c cs :
  calls q (c :: cs) =
  (fst (calls (call q c) cs), (actions_of q c ++ snd (calls (call q c) cs))%list).
Proof. cbn [calls]. now destruct (calls (call q c) cs). Qed.

Lemma deliveries_app a b : deliveries (a ++ b) = (deliveries a ++ deliveries b)%list.
Proof. unfold deliveries. now rewrite flat_map_app. Qed.

Lemma fifo_from q cs :
  closed q = false ->
  messages q = [] \/ waitingResolvers q = [] ->
  forallb is_traffic cs = true ->
  deliveries (snd (calls q cs)) =
  combine (waiting q ++ promised cs) (messages q ++ enqueued cs).
Proof.
  revert q. induction cs as [|c cs IH]; intros q Hc Hq Ht.
  - cbn. rewrite !app_nil_r. unfold waiting.
    destruct Hq as [-> | ->]; cbn; [now rewrite combine_nil|reflexivity].
  - cbn [forallb] in Ht. apply andb_prop in Ht as [Hc1 Ht].
    rewrite calls_cons. cbn [snd]. rewrite deliveries_app.
    destruct q as [M W cl]. cbn in Hc. subst cl.
    cbn [messages waitingResolvers] in Hq.
    destruct c as [m|t p timer|p|]; try discriminate Hc1.
    + (* enqueue *)
      cbn [call actions_of enqueue closed waitingResolvers messages fst snd].
      destruct W as [|r W'].
      * cbn [fst snd]. rewrite IH; [|reflexivity|now right|exact Ht].
        unfold waiting. cbn [messages waitingResolvers map app].
        now rewrite <- app_assoc.
      * cbn [fst snd]. rewrite IH; [|reflexivity| |exact Ht].
        -- destruct Hq as [-> |Hq]; [|discriminate Hq].
           reflexivity.
        -- destruct Hq as [Hq|Hq]; [now left | discriminate Hq].
    + (* dequeue *)
      cbn [call actions_of dequeue closed waitingResolvers messages].
      destruct M as [|m M'].
      * cbn. rewrite IH; [|reflexivity|now left|exact Ht].
        unfold waiting. cbn [messages waitingResolvers].
        rewrite map_app, <- app_assoc. reflexivity.
      * cbn. rewrite IH; [|reflexivity| |exact Ht].
        -- destruct Hq as [Hq| ->]; [discriminate Hq|]. reflexivity.
        -- destruct Hq as [Hq|Hq]; [discriminate Hq | now right].
Qed.

(** X1. The queue is first in, first out, whatever the interleaving of
    producers and consumers: over any sequence of [enqueue] and [dequeue]
    calls on a new queue, the i-th promise returned by [dequeue] is
    resolved with the i-th message enqueued, and the deliveries happen in
    that order. *)
Theorem queue_is_fifo cs :
  forallb is_traffic cs = true ->
  deliveries (snd (calls create cs)) = combine (promised cs) (enqueued cs).
Proof.
  intros Ht. rewrite (fifo_from create cs); [reflexivity|reflexivity|now left|exact Ht].
Qed.

Lemma queue_is_fifo_witness :
  let m1 := Frame {| request_id := Some "r1"; event_type := Some "chunk";
                     status := None; data := Some "a"; message := None |} in
  let cs := [Dequeue 1000 7 8; Enqueue m1; Enqueue STREAM_END; Dequeue 1000 9 10] in
  forallb is_traffic cs = true /\
  deliveries (snd (calls create cs)) = [(7%nat, m1); (9%nat, STREAM_END)].
Proof.
  cbv zeta. split; [reflexivity|].
  rewrite queue_is_fifo; reflexivity.
Defined.

(** *** Each promise is settled at most once *)

Lemma settlements_app a b :
  settlements (a ++ b) = (settlements a ++ settlements b)%list.
Proof. unfold settlements. now rewrite flat_map_app. Qed.

Lemma splice_promises p l :
  forall x, In x (map promise (splice_resolver p l)) -> In x (map promise l).
Proof.
  induction l as [|r l IH]; intros x Hin; [exact Hin|].
  cbn [splice_resolver] in Hin. destruct (is_resolver p r).
  - now right.
  - destruct Hin as [<-|Hin]; [now left | right; now apply IH].
Qed.

Lemma splice_removes p l :
  NoDup (map promise l) -> ~ In p (map promise (splice_resolver p l)).
Proof.
  induction l as [|r l IH]; intros Hnd Hin; [exact Hin|].
  cbn [map] in Hnd. apply NoDup_cons_iff in Hnd as [Hr Hnd].
  cbn [splice_resolver] in Hin. unfold is_resolver in Hin.
  destruct (Nat.eqb_spec (promise r) p) as [E|E].
  - subst p. contradiction.
  - destruct Hin as [Hin|Hin]; [contradiction | now apply IH].
Qed.

Lemma splice_NoDup p l :
  NoDup (map promise l) -> NoDup (map promise (splice_resolver p l)).
Proof.
  induction l as [|r l IH]; intros Hnd; [exact Hnd|].
  cbn [map] in Hnd. apply NoDup_cons_iff in Hnd as [Hr Hnd].
  cbn [splice_resolver]. destruct (is_resolver p r); [exact Hnd|].
  cbn [map]. apply NoDup_cons; [|now apply IH].
  intros Hin. apply Hr. now apply (splice_promises p).
Qed.

Lemma close_rejects l :
  map fst
    (settlements
       (flat_map (fun resolver =>
                    [ClearTimeout (timeoutId resolver);
                     Reject (promise resolver) "Queue closed"]) l)) =
  map promise l.
Proof.
  induction l as [|r l IH]; [reflexivity|].
  cbn [flat_map]. rewrite settlements_app, map_app, IH. reflexivity.
Qed.

Lemma existsb_is_resolver p l :
  existsb (is_resolver p) l = true -> In p (map promise l).
Proof.
  intros H. apply existsb_exists in H as [r [Hin Hr]].
  unfold is_resolver in Hr. apply Nat.eqb_eq in Hr. subst p.
  now apply in_map.
Qed.

Lemma NoDup_app_inv {A} (l1 l2 : list A) :
  NoDup (l1 ++ l2) ->
  NoDup l1 /\ NoDup l2 /\ forall a, In a l1 -> ~ In a l2.
Proof.
  intros H. split; [now apply NoDup_app_remove_r in H|].
  split; [now apply NoDup_app_remove_l in H|].
  induction l1 as [|x l1 IH]; intros a Hin; [destruct Hin|].
  cbn [app] in H. apply NoDup_cons_iff in H as [Hx H].
  destruct Hin as [<-|Hin].
  - intros Hin2. apply Hx. apply in_or_app. now right.
  - now apply IH.
Qed.

Lemma settled_once_from cs : forall q,
  NoDup (waiting q ++ promised cs) ->
  let s := map fst (settlements (snd (calls q cs))) in
  NoDup s /\ forall p, In p s -> In p (waiting q ++ promised cs).
Proof.
  induction cs as [|c cs IH]; intros q Hnd; cbv zeta.
  - cbn. split; [constructor | intros p []].
  - rewrite calls_cons. cbn [snd]. rewrite settlements_app, map_app.
    destruct q as [M W cl]. unfold waiting in *. cbn [waitingResolvers] in *.
    destruct c as [m|t p timer|p|].
    + (* enqueue *)
      cbn [promised flat_map app] in *.
      cbn [call actions_of enqueue closed waitingResolvers messages].
      destruct cl.
      * cbn [fst snd settlements flat_map map app].
        apply (IH {| messages := M; waitingResolvers := W; closed := true |}). exact Hnd.
      * destruct W as [|r W'].
        -- cbn [fst snd settlements flat_map map app].
           apply (IH {| messages := (M ++ [m])%list; waitingResolvers := [];
                        closed := false |}). exact Hnd.
        -- cbn [fst snd settlements flat_map map app].
           cbn [map app] in Hnd. apply NoDup_cons_iff in Hnd as [Hr Hnd].
           destruct (IH {| messages := M; waitingResolvers := W'; closed := false |} Hnd)
             as [N1 S1]. cbn [waitingResolvers] in S1.
           split.
           ++ apply NoDup_cons; [|exact N1]. intros Hin. apply Hr. now apply S1.
           ++ intros x [<-|Hin]; [now left | right; now apply S1].
    + (* dequeue *)
      cbn [promised flat_map app] in *.
      cbn [call actions_of dequeue closed waitingResolvers messages].
      assert (Hp : ~ In p (map promise W) /\ ~ In p (promised cs) /\
                   NoDup (map promise W ++ promised cs)).
      { apply NoDup_remove in Hnd as [Hnd Hp]. repeat split; [| |exact Hnd];
          intros Hin; apply Hp; apply in_or_app; auto. }
      destruct Hp as [HpW [HpD Hnd']].
      destruct cl.
      * cbn [fst snd settlements flat_map map app].
        destruct (IH {| messages := M; waitingResolvers := W; closed := true |} Hnd')
          as [N1 S1]. cbn [waitingResolvers] in S1.
        split; [exact N1|]. intros x Hin. specialize (S1 x Hin).
        apply in_app_or in S1 as [S1|S1]; apply in_or_app; [now left | right; now right].
      * destruct M as [|m M'].
        -- cbn [fst snd settlements flat_map map app].
           assert (Hnd2 : NoDup (map promise (W ++ [{| promise := p; timeoutId := timer |}])
                                 ++ promised cs)).
           { rewrite map_app, <- app_assoc. exact Hnd. }
           destruct (IH {| messages := [];
                           waitingResolvers := (W ++ [{| promise := p; timeoutId := timer |}])%list;
                           closed := false |} Hnd2) as [N1 S1].
           cbn [waitingResolvers] in S1.
           split; [exact N1|]. intros x Hin. specialize (S1 x Hin).
           rewrite map_app, <- app_assoc in S1. exact S1.
        -- cbn [fst snd settlements flat_map map app].
           destruct (IH {| messages := M'; waitingResolvers := W; closed := false |} Hnd')
             as [N1 S1]. cbn [waitingResolvers] in S1.
           split.
           ++ apply NoDup_cons; [|exact N1]. intros Hin. specialize (S1 p Hin).
              apply in_app_or in S1 as [S1|S1]; contradiction.
           ++ intros x [<-|Hin].
              ** apply in_or_app. right. now left.
              ** specialize (S1 x Hin).
                 apply in_app_or in S1 as [S1|S1]; apply in_or_app;
                   [now left | right; now right].
    + (* the timer of the consumer of [p] fires *)
      cbn [promised flat_map app] in *.
      cbn [call actions_of]. unfold on_timeout.
      cbn [waitingResolvers messages closed].
      destruct (existsb (is_resolver p) W) eqn:Ex.
      * cbn [fst snd settlements flat_map map app].
        assert (HW : NoDup (map promise W)) by (now apply NoDup_app_remove_r in Hnd).
        assert (Hnd2 : NoDup (map promise (splice_resolver p W) ++ promised cs)).
        { apply NoDup_app_inv in Hnd as [_ [HD Hdis]].
          apply NoDup_app; [now apply splice_NoDup | exact HD |].
          intros x Hx. apply Hdis. now apply (splice_promises p). }
        destruct (IH {| messages := M; waitingResolvers := splice_resolver p W;
                        closed := cl |} Hnd2) as [N1 S1].
        cbn [waitingResolvers] in S1.
        split.
        -- apply NoDup_cons; [|exact N1]. intros Hin. specialize (S1 p Hin).
           apply in_app_or in S1 as [S1|S1].
           ++ now apply (splice_removes p W).
           ++ apply NoDup_app_inv in Hnd as [_ [_ Hdis]].
              apply (Hdis p); [now apply existsb_is_resolver | exact S1].
        -- intros x [<-|Hin].
           ++ apply in_or_app. left. now apply existsb_is_resolver.
           ++ specialize (S1 x Hin). apply in_app_or in S1 as [S1|S1];
                apply in_or_app; [left; now apply (splice_promises p) | now right].
      * cbn [fst snd settlements flat_map map app].
        apply (IH {| messages := M; waitingResolvers := W; closed := cl |}). exact Hnd.
    + (* close *)
      cbn [promised flat_map app] in *.
      cbn [call actions_of close waitingResolvers messages closed fst snd].
      rewrite close_rejects.
      assert (Hnd2 : NoDup (map promise (@nil Resolver) ++ promised cs)).
      { cbn. now apply NoDup_app_remove_l in Hnd. }
      destruct (IH {| messages := []; waitingResolvers := []; closed := true |} Hnd2)
        as [N1 S1]. cbn [waitingResolvers map app] in S1.
      split.
      * apply NoDup_app_inv in Hnd as [HW [HD Hdis]].
        apply NoDup_app; [exact HW | exact N1 |].
        intros x Hx Hs. apply (Hdis x Hx). now apply S1.
      * intros x Hin. apply in_app_or in Hin as [Hin|Hin]; apply in_or_app;
          [now left | right; now apply S1].
Qed.

(** X2. No promise is settled twice: over any sequence of [enqueue],
    [dequeue], timer and [close] calls on a new queue whose [dequeue]
    calls return distinct promises, the promises resolved or rejected by
    the queue are pairwise distinct, and each is one a [dequeue] returned. *)
Theorem promise_settled_at_most_once cs :
  NoDup (promised cs) ->
  let s := map fst (settlements (snd (calls create cs))) in
  NoDup s /\ forall p, In p s -> In p (promised cs).
Proof.
  intros Hnd. exact (settled_once_from cs create Hnd).
Qed.

Lemma promise_settled_at_most_once_witness :
  let cs := [Dequeue 1000 1 2; Dequeue 1000 3 4; Enqueue STREAM_END;
             Timeout 1; Timeout 3; Close; Timeout 3] in
  NoDup (promised cs) /\
  NoDup (map fst (settlements (snd (calls create cs)))).
Proof.
  cbv zeta.
  assert (Hnd : NoDup (promised [Dequeue 1000 1 2; Dequeue 1000 3 4; Enqueue STREAM_END;
                                 Timeout 1; Timeout 3; Close; Timeout 3])).
  { cbn. repeat constructor; cbn; intuition discriminate. }
  split; [exact Hnd|].
  exact (proj1 (promise_settled_at_most_once _ Hnd)).
Defined.

(** *** What a queue never holds *)

Lemma call_keeps_shape q c :
  (messages q = [] \/ waitingResolvers q = []) /\
  (closed q = true -> messages q = [] /\ waitingResolvers q = []) ->
  (messages (call q c) = [] \/ waitingResolvers (call q c) = []) /\
  (closed (call q c) = true ->
   messages (call q c) = [] /\ waitingResolvers (call q c) = []).
Proof.
  destruct q as [M W cl]. cbn [messages waitingResolvers closed].
  intros [H1 H2]. destruct c as [m|t p timer|p|];
    cbn [call enqueue dequeue on_timeout close closed messages waitingResolvers fst].
  - destruct cl; cbn [fst messages waitingResolvers closed]; [auto|].
    destruct W as [|r W']; cbn [fst messages waitingResolvers closed].
    + split; [now right | discriminate].
    + destruct H1 as [-> |H1]; [|discriminate H1]. split; [now left | discriminate].
  - destruct cl; cbn [messages waitingResolvers closed]; [auto|].
    destruct M as [|m M']; cbn [messages waitingResolvers closed].
    + split; [now left | discriminate].
    + destruct H1 as [H1| ->]; [discriminate H1|]. split; [now right | discriminate].
  - unfold on_timeout. cbn [messages waitingResolvers closed].
    destruct (existsb (is_resolver p) W) eqn:Ex;
      cbn [fst messages waitingResolvers closed]; [|auto].
    split.
    + destruct H1 as [-> | ->]; [now left | cbn in Ex; discriminate Ex].
    + intros Hc. destruct (H2 Hc) as [_ ->]. cbn in Ex. discriminate Ex.
  - split; [now left | auto].
Qed.

(** X3. A queue never buffers a message while a consumer waits, and a closed
    queue holds neither: after any sequence of calls on a new queue,
    the buffer or the list of waiting consumers is empty, and both are
    when the queue is closed. *)
Theorem queue_never_buffers_while_waited cs :
  let q := fst (calls create cs) in
  (messages q = [] \/ waitingResolvers q = []) /\
  (closed q = true -> messages q = [] /\ waitingResolvers q = []).
Proof.
  cbv zeta.
  assert (H : forall q,
             (messages q = [] \/ waitingResolvers q = []) /\
             (closed q = true -> messages q = [] /\ waitingResolvers q = []) ->
             (messages (fst (calls q cs)) = [] \/
              waitingResolvers (fst (calls q cs)) = []) /\
             (closed (fst (calls q cs)) = true ->
              messages (fst (calls q cs)) = [] /\
              waitingResolvers (fst (calls q cs)) = [])).
  { induction cs as [|c cs IH]; intros q Hq; [exact Hq|].
    rewrite calls_cons. cbn [fst]. apply IH. now apply call_keeps_shape. }
  apply H. cbn. split; [now left | discriminate].
Qed.

(** X4. A consumer that times out leaves no trace: on an open queue with an
    empty buffer, a [dequeue] followed by the firing of its own timer
    rejects that consumer's promise with "Queue timeout", nobody else's,
    and the queue is as it was before the [dequeue], so the next message
    is buffered for the next consumer. *)
Theorem timed_out_consumer_is_forgotten q timeoutMs p timer :
  closed q = false -> messages q = [] -> ~ In p (waiting q) ->
  calls q [Dequeue timeoutMs p timer; Timeout p] =
  (q, [SetTimeout timer timeoutMs p; Reject p "Queue timeout"]).
Proof.
  destruct q as [M W cl]. unfold waiting. cbn [closed messages waitingResolvers].
  intros -> -> Hp.
  assert (Hs : splice_resolver p (W ++ [{| promise := p; timeoutId := timer |}]) = W).
  { induction W as [|r W IH]; cbn [app splice_resolver].
    - unfold is_resolver. cbn. now rewrite Nat.eqb_refl.
    - unfold is_resolver. destruct (Nat.eqb_spec (promise r) p) as [E|E].
      + exfalso. apply Hp. left. exact E.
      + fold (is_resolver p). f_equal. apply IH. intros Hin. apply Hp. now right. }
  assert (He : existsb (is_resolver p) (W ++ [{| promise := p; timeoutId := timer |}]) = true).
  { rewrite existsb_app. cbn [existsb]. unfold is_resolver at 2.
    cbn [promise]. rewrite Nat.eqb_refl. now rewrite !orb_true_r. }
  cbn [calls call actions_of dequeue closed messages waitingResolvers fst snd].
  unfold on_timeout. cbn [waitingResolvers messages closed].
  rewrite He, Hs. reflexivity.
Qed.

Lemma timed_out_consumer_is_forgotten_witness :
  closed create = false /\ messages create = [] /\ ~ In 1%nat (waiting create) /\
  calls create [Dequeue 600000 1 2; Timeout 1] =
  (create, [SetTimeout 2 600000 1; Reject 1 "Queue timeout"]).
Proof.
  split; [reflexivity|]. split; [reflexivity|].
  split; [intros H; exact H|].
  apply timed_out_consumer_is_forgotten; [reflexivity | reflexivity | intros H; exact H].
Defined.

End QueueRunsProofs.

(** ** Frames and the queue table *)

Section RoutingProofs.
Import Registry Observe Routing.

Lemma map_get_set m k v : map_get (map_set m k v) k = Some v.
Proof.
  induction m as [|[k' v'] m IH]; cbn [map_set map_get].
  - now rewrite String.eqb_refl.
  - destruct (String.eqb k' k) eqn:E; cbn [map_get].
    + now rewrite String.eqb_refl.
    + now rewrite E.
Qed.

Lemma map_get_delete m k : map_get (map_delete m k) k = None.
Proof.
  unfold map_delete. induction m as [|[k' v'] m IH]; [reflexivity|].
  cbn [filter fst]. destruct (String.eqb k' k) eqn:E; cbn [negb]; [exact IH|].
  cbn [map_get]. now rewrite E.
Qed.

Lemma lookup_new h q s :
  Forall (fun qs : nat * MessageQueue.t => (fst qs < q)%nat) h ->
  lookup_queue (h ++ [(q, s)]) q = Some s.
Proof.
  induction h as [|[k v] h IH]; intros Hn; cbn [app lookup_queue].
  - now rewrite Nat.eqb_refl.
  - apply Forall_cons_iff in Hn as [Hk Hn]. cbn [fst] in Hk.
    destruct (Nat.eqb_spec k q) as [E|E]; [lia | now apply IH].
Qed.

Lemma routed_event et :
  In et frame_events ->
  (String.eqb et "response_headers" || String.eqb et "chunk" ||
   String.eqb et "error")%bool = true.
Proof. intros [<-|[<-|[<-|[]]]]; reflexivity. Qed.

(** X5. A frame that arrives before its consumer is kept for it, whole: after
    [createMessageQueue] for a request id, a frame carrying that id and
    one of the three frame event types is buffered, and the next
    [dequeue] on the request's queue returns a promise already resolved
    with that very frame, without setting a timer. A [stream_close] frame
    is delivered as the end-of-stream sentinel instead. *)
Theorem frame_waits_for_its_consumer w requestId m et timeoutMs :
  heap_named w -> JS.truthy requestId = true ->
  request_id m = Some requestId -> event_type m = Some et ->
  let w1 := fst (createMessageQueue requestId w) in
  let q := snd (createMessageQueue requestId w) in
  let w2 := _handleIncomingMessage (Some m) w1 in
  let w3 := fst (queue_dequeue q timeoutMs w2) in
  let p := fresh w2 in
  (In et frame_events ->
   snd (queue_dequeue q timeoutMs w2) = inr p /\
   settled w3 = (settled w ++ [(p, Resolved (Frame m))])%list /\
   timers w3 = timers w) /\
  (et = "stream_close" ->
   snd (queue_dequeue q timeoutMs w2) = inr p /\
   settled w3 = (settled w ++ [(p, Resolved STREAM_END)])%list /\
   timers w3 = timers w).
Proof.
  intros Hn Ht Hr He. cbv zeta.
  assert (Hl : lookup_queue (heap w ++ [(fresh w, MessageQueue.create)]) (fresh w) =
               Some MessageQueue.create) by (now apply lookup_new).
  assert (Hroute : forall x,
    let w2 := queue_enqueue (snd (createMessageQueue requestId w)) x
                (fst (createMessageQueue requestId w)) in
    snd (queue_dequeue (snd (createMessageQueue requestId w)) timeoutMs w2) =
      inr (fresh w2) /\
    settled (fst (queue_dequeue (snd (createMessageQueue requestId w)) timeoutMs w2)) =
      (settled w ++ [(fresh w2, Resolved x)])%list /\
    timers (fst (queue_dequeue (snd (createMessageQueue requestId w)) timeoutMs w2)) =
      timers w).
  { intros x. cbv zeta. unfold queue_enqueue, on_queue, createMessageQueue.
    cbn [fst snd heap set_messageQueues set_heap set_fresh].
    rewrite Hl. cbn [MessageQueue.enqueue MessageQueue.create MessageQueue.closed
                     MessageQueue.waitingResolvers MessageQueue.messages app
                     apply_actions fold_left].
    unfold queue_dequeue. cbn [heap set_heap set_messageQueues set_fresh fresh].
    rewrite lookup_store, Nat.eqb_refl.
    cbn. repeat split; reflexivity. }
  unfold _handleIncomingMessage, _routeMessage. rewrite Hr, Ht, He.
  assert (Hg : map_get (messageQueues (fst (createMessageQueue requestId w))) requestId =
               Some (snd (createMessageQueue requestId w))).
  { cbn. apply map_get_set. }
  rewrite Hg. split.
  - intros Hin. rewrite (routed_event et Hin). apply Hroute.
  - intros ->. cbn [String.eqb Ascii.eqb Bool.eqb orb andb]. apply Hroute.
Qed.

Lemma frame_waits_for_its_consumer_witness :
  let m := {| request_id := Some "r1"; event_type := Some "chunk";
              status := None; data := Some "{}"; message := None |} in
  heap_named init /\
  settled
    (fst (queue_dequeue 0 600000
            (_handleIncomingMessage (Some m)
               (fst (createMessageQueue "r1" init))))) =
  [(1%nat, Resolved (Frame m))].
Proof.
  cbv zeta. split; [constructor|].
  destruct (frame_waits_for_its_consumer init "r1"
              {| request_id := Some "r1"; event_type := Some "chunk";
                 status := None; data := Some "{}"; message := None |}
              "chunk" 600000 (Forall_nil _) eq_refl eq_refl eq_refl) as [H _].
  destruct (H (or_intror (or_introl eq_refl))) as [_ [Hs _]]. exact Hs.
Defined.

(** X6. A consumer that waits is served by the next frame of its request, and
    its timer is left pending: after [createMessageQueue] and a [dequeue]
    on the empty queue, a frame carrying the request id resolves the
    promise that [dequeue] returned with that frame; the timer set by the
    [dequeue] is not cleared, and when it fires nothing is settled. *)
Theorem waiting_consumer_is_served w requestId m et timeoutMs :
  heap_named w -> JS.truthy requestId = true ->
  request_id m = Some requestId -> event_type m = Some et ->
  In et frame_events ->
  let w1 := fst (createMessageQueue requestId w) in
  let q := snd (createMessageQueue requestId w) in
  let p := fresh w1 in
  let timer := {| timer_id := S p; deadline := now w + timeoutMs;
                  callback := DequeueTimeout q p |} in
  let w2 := fst (queue_dequeue q timeoutMs w1) in
  let w3 := _handleIncomingMessage (Some m) w2 in
  snd (queue_dequeue q timeoutMs w1) = inr p /\
  settled w3 = (settled w ++ [(p, Resolved (Frame m))])%list /\
  timers w3 = (timers w ++ [timer])%list /\
  settled (fire timer w3) = settled w3.
Proof.
  intros Hn Ht Hr He Hin. cbv zeta.
  assert (Hl : lookup_queue (heap w ++ [(fresh w, MessageQueue.create)]) (fresh w) =
               Some MessageQueue.create) by (now apply lookup_new).
  unfold createMessageQueue. cbn [fst snd].
  unfold queue_dequeue. cbn [heap set_messageQueues set_heap set_fresh fresh].
  rewrite Hl.
  cbn [MessageQueue.dequeue MessageQueue.create MessageQueue.closed
       MessageQueue.messages MessageQueue.waitingResolvers app fst snd
       apply_actions fold_left apply_action].
  split; [reflexivity|].
  unfold _handleIncomingMessage, _routeMessage. rewrite Hr, Ht, He.
  cbn [messageQueues setTimeout set_timers set_heap set_fresh set_messageQueues].
  rewrite map_get_set, (routed_event et Hin).
  unfold queue_enqueue, on_queue.
  cbn [heap setTimeout set_timers set_heap set_fresh set_messageQueues].
  rewrite lookup_store, Nat.eqb_refl.
  cbn [MessageQueue.enqueue MessageQueue.closed MessageQueue.waitingResolvers
       MessageQueue.messages MessageQueue.promise app fst snd
       apply_actions fold_left apply_action settle set_settled set_heap
       settled timers heap now fresh].
  split; [reflexivity|]. split; [reflexivity|].
  unfold fire.
  match goal with |- context [existsb ?f ?l] => destruct (existsb f l) end;
    [|reflexivity].
  cbn [callback timer_id deadline].
  unfold on_queue.
  cbn [heap clearTimeout set_timers set_now settled settle set_settled
       set_heap setTimeout].
  rewrite lookup_store, Nat.eqb_refl.
  unfold MessageQueue.on_timeout.
  cbn [MessageQueue.waitingResolvers existsb fst snd apply_actions fold_left
       set_heap settled].
  reflexivity.
Qed.

Lemma waiting_consumer_is_served_witness :
  let m := {| request_id := Some "r1"; event_type := Some "chunk";
              status := None; data := Some "{}"; message := None |} in
  heap_named init /\
  settled
    (_handleIncomingMessage (Some m)
       (fst (queue_dequeue 0 600000 (fst (createMessageQueue "r1" init))))) =
  [(1%nat, Resolved (Frame m))].
Proof.
  cbv zeta. split; [constructor|].
  destruct (waiting_consumer_is_served init "r1"
              {| request_id := Some "r1"; event_type := Some "chunk";
                 status := None; data := Some "{}"; message := None |}
              "chunk" 600000 (Forall_nil _) eq_refl eq_refl eq_refl
              (or_intror (or_introl eq_refl))) as [_ [Hs _]].
  exact Hs.
Defined.

(** X7. A frame that comes after its request is over changes nothing: once
    [removeMessageQueue] ran for a request id, [_handleIncomingMessage]
    leaves the registry, the queues, the timers and the promises as they
    are for every frame carrying that id; and so it does in any registry
    whose queue table has no entry for the id of the frame. *)
Theorem late_frame_is_dropped w requestId m :
  request_id m = Some requestId ->
  _handleIncomingMessage (Some m) (removeMessageQueue requestId w) =
  removeMessageQueue requestId w /\
  (map_get (messageQueues w) requestId = None ->
   _handleIncomingMessage (Some m) w = w).
Proof.
  intros Hr. unfold _handleIncomingMessage. rewrite Hr.
  destruct (JS.truthy requestId); [|split; reflexivity].
  assert (Hg : map_get (messageQueues (removeMessageQueue requestId w)) requestId = None).
  { unfold removeMessageQueue.
    destruct (map_get (messageQueues w) requestId) as [q|] eqn:E; [|exact E].
    cbn [messageQueues set_messageQueues]. apply map_get_delete. }
  rewrite Hg. split; [reflexivity|]. now intros ->.
Qed.

Lemma late_frame_is_dropped_witness :
  let m := {| request_id := Some "r1"; event_type := Some "chunk";
              status := None; data := Some "{}"; message := None |} in
  _handleIncomingMessage (Some m) (removeMessageQueue "r1" one_waiting_request) =
  removeMessageQueue "r1" one_waiting_request.
Proof.
  cbv zeta.
  exact (proj1 (late_frame_is_dropped one_waiting_request "r1"
                  {| request_id := Some "r1"; event_type := Some "chunk";
                     status := None; data := Some "{}"; message := None |}
                  eq_refl)).
Defined.

Lemma apply_actions_no_timer q acts : forall w,
  (forall id d p, ~ In (MessageQueue.SetTimeout id d p) acts) ->
  (forall id, ~ In (MessageQueue.ClearTimeout id) acts) ->
  timers (apply_actions q acts w) = timers w /\
  connections (apply_actions q acts w) = connections w /\
  reconnectGraceTimer (apply_actions q acts w) = reconnectGraceTimer w /\
  fresh (apply_actions q acts w) = fresh w /\
  now (apply_actions q acts w) = now w.
Proof.
  induction acts as [|a acts IH]; intros w Hs Hc; [cbn; auto|].
  cbn [apply_actions fold_left]. fold (apply_actions q acts (apply_action q a w)).
  destruct (IH (apply_action q a w)) as [H1 [H2 [H3 [H4 H5]]]].
  { intros id d p Hin. apply (Hs id d p). now right. }
  { intros id Hin. apply (Hc id). now right. }
  rewrite H1, H2, H3, H4, H5.
  destruct a as [p m|p err|id|id d p]; cbn; auto.
  - exfalso. apply (Hc id). now left.
  - exfalso. apply (Hs id d p). now left.
Qed.

(** X8. A frame touches the queue of its own request and nothing else: for
    every frame, [_handleIncomingMessage] leaves every other queue object,
    the queue table, the connections and the timers as they were. *)
Theorem frame_touches_only_its_queue w parsed :
  let w' := _handleIncomingMessage parsed w in
  messageQueues w' = messageQueues w /\
  connections w' = connections w /\
  timers w' = timers w /\
  emitted w' = emitted w /\
  close_calls w' = close_calls w /\
  forall q', (forall m requestId, parsed = Some m ->
                request_id m = Some requestId ->
                map_get (messageQueues w) requestId <> Some q') ->
             lookup_queue (heap w') q' = lookup_queue (heap w) q'.
Proof.
  cbv zeta. unfold _handleIncomingMessage.
  destruct parsed as [m|]; [|repeat split].
  destruct (request_id m) as [rid|] eqn:Er; [|repeat split].
  destruct (JS.truthy rid); [|repeat split].
  destruct (map_get (messageQueues w) rid) as [q|] eqn:Eg; [|repeat split].
  assert (H : forall x,
    let w' := queue_enqueue q x w in
    messageQueues w' = messageQueues w /\ connections w' = connections w /\
    timers w' = timers w /\ emitted w' = emitted w /\
    close_calls w' = close_calls w /\
    forall q', (forall m0 requestId, Some m = Some m0 ->
                  request_id m0 = Some requestId ->
                  map_get (messageQueues w) requestId <> Some q') ->
               lookup_queue (heap w') q' = lookup_queue (heap w) q').
  { intros x. cbv zeta. unfold queue_enqueue, on_queue.
    destruct (lookup_queue (heap w) q) as [s|] eqn:El; [|repeat split].
    destruct (MessageQueue.enqueue s x) as [s' acts] eqn:Ee.
    assert (Hacts : (forall id d p, ~ In (MessageQueue.SetTimeout id d p) acts) /\
                    (forall id, ~ In (MessageQueue.ClearTimeout id) acts)).
    { unfold MessageQueue.enqueue in Ee.
      destruct (MessageQueue.closed s); [injection Ee as <- <-; split; intros; intros []|].
      destruct (MessageQueue.waitingResolvers s); injection Ee as <- <-;
        split; intros; intros Hin; try destruct Hin as [D|[]]; try discriminate D;
        destruct Hin. }
    destruct Hacts as [Hs Hc].
    destruct (apply_actions_fields q acts (set_heap (store_queue (heap w) q s') w))
      as [F1 [F2 [F3 [F4 _]]]].
    destruct (apply_actions_no_timer q acts
                (set_heap (store_queue (heap w) q s') w) Hs Hc) as [T1 [T2 _]].
    rewrite F1, F2, F3, F4, T1, T2. cbn [messageQueues set_heap connections timers
                                         emitted close_calls heap].
    repeat split. intros q' Hq'. rewrite lookup_store.
    destruct (Nat.eqb_spec q q') as [E|E]; [|reflexivity].
    subst q'. exfalso. apply (Hq' m rid eq_refl Er). exact Eg. }
  unfold _routeMessage. destruct (event_type m) as [et|]; [|repeat split].
  destruct (_ || _ || _)%bool; [apply H|].
  destruct (String.eqb et "stream_close"); [apply H | repeat split].
Qed.

End RoutingProofs.

(** ** What the handlers keep *)

Section KeepsProofs.
Import Handler Operator Keeps Returning.

(** *** The rules *)

Lemma keeps_ret {A} I (a : A) : keeps I (ret a).
Proof. intros w H. exact H. Qed.

Lemma keeps_throw {A} I e : keeps I (@throw A e).
Proof. intros w H. exact H. Qed.

Lemma keeps_bind {A B} I (m : M A) (k : A -> M B) :
  keeps I m -> (forall a, keeps I (k a)) -> keeps I (bind m k).
Proof.
  intros Hm Hk w H. unfold bind. specialize (Hm w H).
  destruct (m w) as [[a|e] w1]; cbn in *; [now apply Hk | exact Hm].
Qed.

Lemma keeps_try_catch {A} I (m : M A) (h : string -> M A) :
  keeps I m -> (forall e, keeps I (h e)) -> keeps I (try_catch m h).
Proof.
  intros Hm Hh w H. unfold try_catch. specialize (Hm w H).
  destruct (m w) as [[a|e] w1]; cbn in *; [exact Hm | now apply Hh].
Qed.

Lemma keeps_try_finally {A} I (m : M A) (f : M unit) :
  keeps I m -> keeps I f -> keeps I (try_finally m f).
Proof.
  intros Hm Hf w H. unfold try_finally. specialize (Hm w H).
  destruct (m w) as [r w1]. cbn in Hm. specialize (Hf w1 Hm).
  destruct (f w1) as [[u|e] w2]; exact Hf.
Qed.

Lemma keeps_get I : keeps I get.
Proof. intros w H. exact H. Qed.

Lemma keeps_get_res I : keeps I get_res.
Proof. intros w H. exact H. Qed.


Lemma triple_bind {A B} P (m : M A) (k : A -> M B) Q1 Q T :
  triple P m Q1 T -> (forall a, triple (Q1 a) (k a) Q T) ->
  triple P (bind m k) Q T.
Proof.
  intros Hm Hk w H. unfold bind. specialize (Hm w H).
  destruct (m w) as [[a|e] w1]; cbn in *; [now apply Hk | exact Hm].
Qed.


Lemma triple_try_finally {A} P (m : M A) (f : M unit) Q1 T1 Q T :
  triple P m Q1 T1 ->
  (forall a, triple (Q1 a) f (fun _ => Q a) T) ->
  triple T1 f (fun _ => T) T ->
  triple P (try_finally m f) Q T.
Proof.
  intros Hm Hf1 Hf2 w H. unfold try_finally. specialize (Hm w H).
  destruct (m w) as [[a|e] w1]; cbn in Hm.
  - specialize (Hf1 a w1 Hm). destruct (f w1) as [[u|e] w2]; exact Hf1.
  - specialize (Hf2 w1 Hm). destruct (f w1) as [[u|e'] w2]; exact Hf2.
Qed.

Lemma triple_keeps {A} I (c : M A) : keeps I c -> triple I c (fun _ => I) I.
Proof.
  intros Hk w H. specialize (Hk w H). now destruct (fst (c w)).
Qed.

Lemma triple_weaken {A} (P P' : World -> Prop) (c : M A)
  (Q Q' : A -> World -> Prop) (T T' : World -> Prop) :
  triple P' c Q' T' ->
  (forall w, P w -> P' w) -> (forall a w, Q' a w -> Q a w) ->
  (forall w, T' w -> T w) -> triple P c Q T.
Proof.
  intros Hc HP HQ HT w H. specialize (Hc w (HP w H)).
  destruct (fst (c w)); auto.
Qed.

Lemma triple_snd {A} P (c : M A) Q T I :
  triple P c Q T -> (forall a w, Q a w -> I w) -> (forall w, T w -> I w) ->
  forall w, P w -> I (snd (c w)).
Proof.
  intros Hc HQ HT w H. specialize (Hc w H). destruct (fst (c w)); eauto.
Qed.

(** *** The leaves *)

Ltac open_world :=
  let w := fresh "w" in let H := fresh "H" in
  intros w H;
  destruct w as [[u a p sw busy cur] [sc hsent wend] q i l b t];
  unfold ended, unsent_or_ended, active_is in H;
  unfold on_hs, on_res, guards_free in H;
  cbn in H.

Lemma hs_emit P e : keeps (on_hs P) (emit e).
Proof. intros w H. exact H. Qed.

Lemma hs_modify_res P f : keeps (on_hs P) (modify_res f).
Proof. intros w H. exact H. Qed.

Lemma hs_modify (P : HandlerState -> Prop) f :
  (forall s, P s -> P (f s)) -> keeps (on_hs P) (modify f).
Proof. intros Hf w H. apply Hf. exact H. Qed.

Lemma hs_pop P e : keeps (on_hs P) (pop e).
Proof.
  intros w H. unfold pop. destruct (queue w) as [|[m|err] rest]; exact H.
Qed.

Lemma hs_generateRequestId P env : keeps (on_hs P) (_generateRequestId env).
Proof. intros w H. exact H. Qed.

Lemma hs_hasActiveConnections P env : keeps (on_hs P) (hasActiveConnections env).
Proof. intros w H. exact H. Qed.

Lemma hs_establish_session P env : keeps (on_hs P) (establish_session env).
Proof.
  intros w H. unfold establish_session. destruct (browser env (browser_calls w)); exact H.
Qed.








(** *** Walking through a method *)

Ltac structure :=
  first
    [ apply keeps_ret | apply keeps_throw | apply keeps_get | apply keeps_get_res
    | apply keeps_bind; [|intros ?]
    | apply keeps_try_catch; [|intros ?]
    | apply keeps_try_finally
    | progress cbv beta zeta
    | match goal with
      | |- keeps _ (if ?b then _ else _) => destruct b eqn:?
      | |- keeps _ (match ?x with _ => _ end) => destruct x eqn:?
      end ].

Ltac head_of t :=
  match t with
  | ?f _ => head_of f
  | _ => t
  end.

(** Unfold the method at the head of the computation, and only that one. *)
Ltac open_head :=
  match goal with
  | |- keeps _ ?c => let h := head_of c in progress unfold h
  end.

(** Run a method symbolically. *)
Ltac mrun :=
  cbv beta iota zeta delta
    [bind ret throw try_catch try_finally when get get_res modify modify_res emit
     incr_active decr_active clamp_active res_write res_end res_set res_send
     _sendErrorResponse _sendErrorChunkToClient keepAlive_tick
     _generateRequestId hasActiveConnections _forwardRequest pop dequeue
     dequeue_ticking establish_session launchOrSwitchContext switchAccount
     createMessageQueue removeMessageQueue
     _switchToNextAuth _tryExecutePendingSwitch _handleRequestFailureAndSwitch
     _handleRequestError count_usage
     completeRequest completeOpenAIRequest admitRequest
     _switchToSpecificAuth switch_account
     keeps triple on_hs on_res guards_free ended unsent_or_ended
     hs res queue ids_used looks browser_calls trace
     usageCount activeRequestCount pendingSwitch isAuthSwitching isSystemBusy
     currentAuthIndex statusCode headersSent writableEnded
     set_usageCount set_activeRequestCount set_pendingSwitch set_isAuthSwitching
     set_isSystemBusy set_currentAuthIndex
     success fallback newIndex reason
     fst snd negb andb orb]; cbn [app map].

Ltac case_oracles :=
  repeat (match goal with
    | |- context [match _getNextAuthIndex ?a ?c with _ => _ end] =>
        destruct (_getNextAuthIndex a c)
    | |- context [if JS.includes ?a ?c then _ else _] =>
        destruct (JS.includes a c) eqn:?
    | |- context [match browser ?e ?n with _ => _ end] =>
        destruct (browser e n) eqn:?
    | |- context [if connected ?e ?n then _ else _] =>
        destruct (connected e n) eqn:?
    end; mrun).

Lemma keeps_repeat_ticks I n :
  keeps I keepAlive_tick -> keeps I (repeat_ticks n).
Proof.
  intros Hk. induction n as [|n IH]; cbn [repeat_ticks].
  - apply keeps_ret.
  - apply keeps_bind; [exact Hk | intros _; exact IH].
Qed.

Lemma keeps_drain {S : Type} I fuel t (step : S -> ParsedMessage -> M S) :
  keeps I (dequeue t) -> (forall acc f, keeps I (step acc f)) ->
  forall acc, keeps I (drain fuel t step acc).
Proof.
  intros Hd Hs. induction fuel as [|n IH]; intros acc; cbn [drain].
  - apply keeps_throw.
  - apply keeps_bind; [exact Hd|]. intros [f|].
    + apply keeps_bind; [apply Hs | intros a; apply IH].
    + apply keeps_ret.
Qed.

Lemma keeps_drain_queue {S : Type} I t (step : S -> ParsedMessage -> M S) acc :
  keeps I (dequeue t) -> (forall acc f, keeps I (step acc f)) ->
  keeps I (drain_queue t step acc).
Proof.
  intros Hd Hs w H. unfold drain_queue. now apply keeps_drain.
Qed.

(** *** The current credential stays a valid one *)

Ltac hs_leaf :=
  first
    [ apply hs_emit | apply hs_modify_res | apply hs_pop
    | apply hs_generateRequestId | apply hs_hasActiveConnections
    | apply hs_establish_session
    | apply keeps_repeat_ticks | apply keeps_drain_queue; [|intros ? ?] ].

Ltac keep_field :=
  apply hs_modify;
  let s := fresh "s" in let Hs := fresh "Hs" in
  intros s Hs; cbn;
  try match goal with |- context [if ?b then _ else _] => destruct b end;
  exact Hs.

Lemma current_valid_handlers cfg env :
  let I := on_hs (fun s => In (currentAuthIndex s) (availableIndices cfg)) in
  (forall req, keeps I (processRequest cfg env req)) /\
  (forall req, keeps I (processOpenAIRequest cfg env req)) /\
  (forall req, keeps I (processModelListRequest cfg env req)) /\
  (forall target, keeps I (switch_account cfg env target)).
Proof.
  cbv zeta.
  assert (Hset : forall i, JS.includes (availableIndices cfg) i = true ->
            keeps (on_hs (fun s => In (currentAuthIndex s) (availableIndices cfg)))
                  (modify (set_currentAuthIndex i))).
  { intros i Hi. apply hs_modify. intros s _. cbn. now apply includes_In. }
  split; [|split; [|split]]; intros ?;
    repeat first [ structure | hs_leaf | keep_field
                 | (apply Hset; assumption) | open_head ].
Qed.

(** *** The guards are released *)

Lemma guards_switchToNextAuth cfg env :
  keeps (on_hs guards_free) (_switchToNextAuth cfg env).
Proof.
  open_world. destruct H as [-> ->]. mrun. case_oracles; auto.
Qed.

Lemma guards_switchToSpecificAuth cfg env target :
  keeps (on_hs guards_free) (_switchToSpecificAuth cfg env target).
Proof.
  open_world. destruct H as [-> ->]. mrun. case_oracles; auto.
Qed.

Lemma guards_admitRequest cfg env :
  keeps (on_hs guards_free) (admitRequest cfg env).
Proof.
  open_world. destruct H as [-> ->]. mrun.
  destruct p; mrun; [destruct hsent; mrun; auto|].
  case_oracles; auto; destruct hsent; mrun; auto.
Qed.

Lemma guards_handlers cfg env :
  let I := on_hs guards_free in
  (forall req, keeps I (processRequest cfg env req)) /\
  (forall req, keeps I (processOpenAIRequest cfg env req)) /\
  (forall req, keeps I (processModelListRequest cfg env req)) /\
  (forall target, keeps I (switch_account cfg env target)).
Proof.
  cbv zeta.
  split; [|split; [|split]]; intros ?;
    repeat first [ apply guards_switchToNextAuth
                 | apply guards_switchToSpecificAuth
                 | apply guards_admitRequest
                 | structure | hs_leaf | keep_field | open_head ].
Qed.

(** *** The count of active requests *)



Lemma triple_ret {A} (P : World -> Prop) (a : A) (Q : A -> World -> Prop) T :
  (forall w, P w -> Q a w) -> triple P (ret a) Q T.
Proof. intros HQ w H. cbn. now apply HQ. Qed.








(** *** Every request is answered *)






Lemma triple_kept {A} I (c : M A) T :
  keeps I c -> (forall w, I w -> T w) -> triple I c (fun _ => I) T.
Proof.
  intros Hk HT w H. specialize (Hk w H). destruct (fst (c w)); auto.
Qed.









Lemma triple_from {A} (P : World -> Prop) (c : M A) I :
  (forall w, P w -> I (snd (c w))) -> triple P c (fun _ => I) I.
Proof. intros Hc w H. specialize (Hc w H). now destruct (fst (c w)). Qed.










(** *** The queue of a request *)










(** *** Counting uses *)

Lemma count_n_pending cfg k w :
  pendingSwitch (hs w) = true -> count_n cfg k w = (Ok tt, w).
Proof.
  intros Hp. induction k as [|k IH]; [reflexivity|].
  cbn [count_n]. unfold bind at 1.
  assert (E : count_usage cfg true w = (Ok tt, w)).
  { destruct w as [[u a p sw busy cur] r q i l b t]. cbn in Hp. subst p. mrun.
    destruct (0 <? switchOnUses cfg); reflexivity. }
  rewrite E. exact IH.
Qed.

Lemma count_once cfg w :
  0 < switchOnUses cfg -> pendingSwitch (hs w) = false ->
  count_usage cfg true w =
  (Ok tt,
   {| hs := {| usageCount := usageCount (hs w) + 1;
               activeRequestCount := activeRequestCount (hs w);
               pendingSwitch := switchOnUses cfg <=? usageCount (hs w) + 1;
               isAuthSwitching := isAuthSwitching (hs w);
               isSystemBusy := isSystemBusy (hs w);
               currentAuthIndex := currentAuthIndex (hs w) |};
      res := res w; queue := queue w; ids_used := ids_used w; looks := looks w;
      browser_calls := browser_calls w; trace := trace w |}).
Proof.
  intros HN Hp. destruct w as [[u a p sw busy cur] r q i l b t].
  cbn in Hp. subst p. mrun.
  apply Z.ltb_lt in HN. rewrite HN. mrun.
  destruct (switchOnUses cfg <=? u + 1); reflexivity.
Qed.

(** *** The operator's switch *)

(** X9. The outcomes of [_switchToSpecificAuth]. While a switch is in
    progress, and for a target that is not an available index, the call
    reports a failure and changes nothing, without a call to the browser.
    Otherwise it asks the browser for the target once: on success the
    usage counter is 0, the pending flag is cleared, the target is current
    and the result reports success; on failure the error is thrown, with no
    fallback to the previous index, and the counter, the pending flag and
    the current index are as before. Both guards are released in either
    case, and the count of active requests is untouched. *)
Theorem specific_switch_outcomes cfg env w target :
  let r := fst (_switchToSpecificAuth cfg env target w) in
  let w' := snd (_switchToSpecificAuth cfg env target w) in
  (isAuthSwitching (hs w) = true ->
   r = Ok {| success := false; fallback := false; newIndex := None;
             reason := Some "Switch already in progress." |} /\ w' = w) /\
  (isAuthSwitching (hs w) = false ->
   JS.includes (availableIndices cfg) target = false ->
   success_of r = Some false /\ w' = w) /\
  (isAuthSwitching (hs w) = false ->
   JS.includes (availableIndices cfg) target = true ->
   isAuthSwitching (hs w') = false /\ isSystemBusy (hs w') = false /\
   activeRequestCount (hs w') = activeRequestCount (hs w) /\
   effects (trace w') =
     (effects (trace w) ++
      [SwitchAccount (Some target); LaunchOrSwitchContext (Some target)])%list /\
   match browser env (browser_calls w) with
   | None =>
       r = Ok {| success := true; fallback := false; newIndex := Some target;
                 reason := None |} /\
       usageCount (hs w') = 0 /\ pendingSwitch (hs w') = false /\
       currentAuthIndex (hs w') = target
   | Some err =>
       r = Throw err /\
       usageCount (hs w') = usageCount (hs w) /\
       pendingSwitch (hs w') = pendingSwitch (hs w) /\
       currentAuthIndex (hs w') = currentAuthIndex (hs w)
   end).
Proof.
  destruct w as [[u a p sw busy cur] r q i l b t]. cbv zeta.
  split; [|split].
  - cbn [hs isAuthSwitching]. intros ->. split; reflexivity.
  - cbn [hs isAuthSwitching]. intros -> Hi. unfold _switchToSpecificAuth.
    mrun. rewrite Hi. mrun. split; reflexivity.
  - cbn [hs isAuthSwitching]. intros -> Hi. unfold _switchToSpecificAuth.
    mrun. rewrite Hi. mrun. rewrite ?Hi. mrun.
    destruct (browser env b); mrun; unfold effects;
      rewrite !map_app, <- ?app_assoc; repeat split; reflexivity.
Qed.

Lemma specific_switch_outcomes_witness :
  let w := start (initial 1) fresh_response [] in
  isAuthSwitching (hs w) = false /\
  JS.includes (availableIndices Scenario.cfg) 7 = true /\
  currentAuthIndex
    (hs (snd (_switchToSpecificAuth Scenario.cfg Scenario.env 7 w))) = 7 /\
  usageCount (hs (snd (_switchToSpecificAuth Scenario.cfg Scenario.env 7 w))) = 0.
Proof.
  cbv zeta. split; [reflexivity|]. split; [reflexivity|].
  destruct (specific_switch_outcomes Scenario.cfg Scenario.env
              (start (initial 1) fresh_response []) 7) as [_ [_ H]].
  destruct (H eq_refl eq_refl) as [_ [_ [_ [_ [_ [Hu [_ Hc]]]]]]].
  split; [exact Hc | exact Hu].
Defined.

Lemma next_is_available l c :
  match _getNextAuthIndex l c with
  | Some z => JS.includes l z = true
  | None => l = []
  end.
Proof.
  unfold _getNextAuthIndex. destruct l as [|x l]; [reflexivity|].
  destruct (JS.indexOf (x :: l) c) as [k|].
  - destruct (nth_error (x :: l) (Nat.modulo (k + 1) (List.length (x :: l)))) as [z|] eqn:E.
    + apply includes_In. now apply nth_error_In in E.
    + apply nth_error_None in E.
      pose proof (Nat.mod_upper_bound (k + 1) (List.length (x :: l))) as Hb.
      cbn [List.length] in *. lia.
  - cbn [nth_error]. apply includes_In. now left.
Qed.

(** X10. [POST /api/switch-account] always answers. The handler never
    throws; its status is 200, 400, 409 or 500. It is 409 only for a
    next-account switch met by a switch in progress, and 500 only when the
    browser failed on the requested index (and, for a next-account switch,
    on the fallback too). With at most one account, a next-account switch
    is refused with 400 and nothing is touched. *)
Theorem switch_account_always_answers cfg env target w :
  exists status text,
    fst (switch_account cfg env target w) = Ok (status, text) /\
    In status [200; 400; 409; 500] /\
    (status = 409 -> target = None /\ isAuthSwitching (hs w) = true) /\
    (status = 500 -> isAuthSwitching (hs w) = false /\
                     browser env (browser_calls w) <> None) /\
    (target = None -> (List.length (availableIndices cfg) <= 1)%nat ->
     status = 400 /\ snd (switch_account cfg env target w) = w).
Proof.
  destruct w as [[u a p sw busy cur] r q i l b t].
  destruct target as [target|].
  - unfold switch_account, _switchToSpecificAuth. mrun.
    destruct sw; mrun.
    { do 2 eexists. split; [reflexivity|]. split; [cbn; auto|].
      repeat split; try discriminate. }
    destruct (JS.includes (availableIndices cfg) target) eqn:Hi; mrun.
    2:{ do 2 eexists. split; [reflexivity|]. split; [cbn; auto|].
        repeat split; try discriminate. }
    rewrite ?Hi. mrun.
    destruct (browser env b) eqn:Hb; mrun;
      do 2 eexists; (split; [reflexivity|]); (split; [cbn; auto|]);
      repeat split; try discriminate.
  - unfold switch_account. mrun.
    destruct (List.length (availableIndices cfg) <=? 1)%nat eqn:Hl; mrun.
    { do 2 eexists. split; [reflexivity|]. split; [cbn; auto|].
      repeat split; try discriminate. }
    apply Nat.leb_gt in Hl.
    destruct sw; mrun.
    { do 2 eexists. split; [reflexivity|]. split; [cbn; auto 6|].
      repeat split; try discriminate; try lia. }
    pose proof (next_is_available (availableIndices cfg) cur) as Hn.
    destruct (_getNextAuthIndex (availableIndices cfg) cur) as [z|];
      [|rewrite Hn in Hl; cbn in Hl; lia].
    mrun. rewrite Hn. mrun.
    case_oracles;
      do 2 eexists; (split; [reflexivity|]); (split; [cbn; auto|]);
      repeat split; try discriminate; try lia; try congruence.
Qed.

Lemma switch_account_always_answers_witness :
  let w := start (initial 1) fresh_response [] in
  let cfg1 := {| switchOnUses := 40; immediateSwitchStatusCodes := [429];
                 availableIndices := [1]; streamingMode := "real";
                 redirect25to30 := false; enableReasoning := false |} in
  (List.length (availableIndices cfg1) <= 1)%nat /\
  exists text, fst (switch_account cfg1 Scenario.env None w) = Ok (400, text).
Proof.
  cbv zeta. split; [cbn; lia|].
  destruct (switch_account_always_answers
              {| switchOnUses := 40; immediateSwitchStatusCodes := [429];
                 availableIndices := [1]; streamingMode := "real";
                 redirect25to30 := false; enableReasoning := false |}
              Scenario.env None (start (initial 1) fresh_response []))
    as [status [text [Hr [_ [_ [_ H]]]]]].
  destruct (H eq_refl (le_n 1)) as [Hs _].
  exists text. rewrite <- Hs. exact Hr.
Defined.

(** *** The guarantees *)

(** X11. An error always closes the response. [_handleRequestError] never
    throws and leaves the response ended and the handler state alone.
    With the headers unsent it sends one error response, with status 504
    when the message mentions a timeout and 500 otherwise; with the headers
    sent it only writes to the stream and ends it, and sends no second
    status. *)
Theorem request_error_closes_response cfg error w :
  let w' := snd (_handleRequestError cfg error w) in
  fst (_handleRequestError cfg error w) = Ok tt /\
  writableEnded (res w') = true /\ hs w' = hs w /\
  (headersSent (res w) = false ->
   effects (trace w') =
     (effects (trace w) ++
      [SendError (if JS.str_includes error "超时" then 504 else 500)
                 ("代理错误: " ++ error)])%list) /\
  (headersSent (res w) = true ->
   exists new, effects (trace w') = (effects (trace w) ++ new)%list /\
               forallb is_stream_effect new = true).
Proof.
  destruct w as [[u a p sw busy cur] [sc hsent wend] q i l b t]. cbv zeta.
  unfold _handleRequestError. mrun. destruct hsent; mrun.
  - destruct (String.eqb (streamingMode cfg) "fake"); mrun; destruct wend; mrun;
      (split; [reflexivity|]); (split; [reflexivity|]); (split; [reflexivity|]);
      (split; [discriminate|]); intros _; unfold effects;
      rewrite ?map_app, <- ?app_assoc; cbn [map effect app];
      first [ exists []; split; [now rewrite app_nil_r | reflexivity]
            | eexists; split; reflexivity ].
  - repeat split; try discriminate.
    unfold effects. rewrite map_app. cbn [map effect].
    destruct (JS.str_includes error "超时"); reflexivity.
Qed.

Lemma request_error_closes_response_witness :
  let w := start (initial 1) fresh_response [] in
  headersSent (res w) = false /\
  effects (trace (snd (_handleRequestError Scenario.cfg "Queue timeout" w))) =
  [SendError 500 "代理错误: Queue timeout"].
Proof.
  cbv zeta. split; [reflexivity|].
  destruct (request_error_closes_response Scenario.cfg "Queue timeout"
              (start (initial 1) fresh_response [])) as [_ [_ [_ [H _]]]].
  exact (H eq_refl).
Defined.






(** *** The guards at the return of a handler *)

Lemma with_deferred_is_handler cfg env :
  (forall req, processRequest_with cfg env (_tryExecutePendingSwitch cfg env) req =
               processRequest cfg env req) /\
  (forall req, processOpenAIRequest_with cfg env (_tryExecutePendingSwitch cfg env) req =
               processOpenAIRequest cfg env req).
Proof. split; reflexivity. Qed.

Lemma begun_guards cfg w :
  guards_free (hs w) ->
  let s := hs (snd (_tryExecutePendingSwitch_begun cfg w)) in
  guards_free s \/ rotation_running s.
Proof.
  destruct w as [[u a p sw busy cur] r q i l b t]. intros [Hs Hb].
  cbn in Hs, Hb. subst sw busy. cbv zeta.
  unfold _tryExecutePendingSwitch_begun. mrun.
  destruct p; mrun; [|left; split; reflexivity].
  destruct (Z.eqb_spec a 0) as [->|Ha]; mrun.
  - right. repeat split.
  - left. split; reflexivity.
Qed.

Lemma guards_until_deferred cfg env (deferred : M unit) (Q : World -> Prop) :
  (forall w, on_hs guards_free w -> Q w) ->
  (forall w, on_hs guards_free w -> Q (snd (deferred w))) ->
  (forall req w, on_hs guards_free w ->
                 Q (snd (processRequest_with cfg env deferred req w))) /\
  (forall req w, on_hs guards_free w ->
                 Q (snd (processOpenAIRequest_with cfg env deferred req w))).
Proof.
  intros HQ Hd.
  assert (Hk : forall A (c : M A), keeps (on_hs guards_free) c ->
                 triple (on_hs guards_free) c (fun _ => on_hs guards_free) Q).
  { intros A c Hc. apply triple_kept; assumption. }
  assert (Hlast : triple (on_hs guards_free) deferred (fun _ => Q) Q).
  { apply triple_from. exact Hd. }
  assert (Hret : triple (on_hs guards_free) (ret tt) (fun _ => Q) Q).
  { apply triple_ret. exact HQ. }
  split; intros req.
  - apply (triple_snd (on_hs guards_free) _ (fun _ => Q) Q); auto.
    unfold processRequest_with.
    eapply triple_bind; [apply Hk, guards_admitRequest|].
    intros [requestId|]; [|exact Hret]. cbv zeta.
    eapply triple_bind; [apply Hk|intros ?].
    { repeat first [structure | hs_leaf | keep_field | open_head]. }
    eapply triple_bind; [apply Hk, hs_emit|intros ?].
    eapply triple_try_finally with (Q1 := fun _ => on_hs guards_free)
                                   (T1 := on_hs guards_free).
    + apply triple_keeps.
      repeat first [ apply guards_switchToNextAuth
                   | structure | hs_leaf | keep_field | open_head ].
    + intros _. unfold completeRequest_with.
      eapply triple_bind; [apply Hk, hs_emit|intros ?].
      eapply triple_bind; [apply Hk; unfold decr_active; keep_field|intros ?].
      eapply triple_bind; [apply Hk; unfold clamp_active; keep_field|intros ?].
      exact Hlast.
    + unfold completeRequest_with.
      eapply triple_bind; [apply Hk, hs_emit|intros ?].
      eapply triple_bind; [apply Hk; unfold decr_active; keep_field|intros ?].
      eapply triple_bind; [apply Hk; unfold clamp_active; keep_field|intros ?].
      exact Hlast.
  - apply (triple_snd (on_hs guards_free) _ (fun _ => Q) Q); auto.
    unfold processOpenAIRequest_with.
    eapply triple_bind; [apply Hk, keeps_get|intros s].
    destruct (pendingSwitch s || isAuthSwitching s)%bool.
    { eapply triple_weaken; [apply Hk|auto|intros ? ? H; exact (HQ _ H)|auto].
      repeat first [structure | hs_leaf | keep_field | open_head]. }
    eapply triple_bind; [apply Hk; unfold incr_active; keep_field|intros ?].
    eapply triple_bind; [apply Hk|intros ?].
    { repeat first [structure | hs_leaf | keep_field | open_head]. }
    eapply triple_bind; [apply Hk, hs_generateRequestId|intros requestId].
    cbv zeta. destruct (chat req) as [body|].
    2:{ eapply triple_weaken; [apply Hk|auto|intros ? ? H; exact (HQ _ H)|auto].
        repeat first [structure | hs_leaf | keep_field | open_head]. }
    eapply triple_bind; [apply Hk, hs_emit|intros ?].
    eapply triple_try_finally with (Q1 := fun _ => on_hs guards_free)
                                   (T1 := on_hs guards_free).
    + apply triple_keeps.
      repeat first [ apply guards_switchToNextAuth
                   | structure | hs_leaf | keep_field | open_head ].
    + intros _. unfold completeOpenAIRequest_with.
      eapply triple_bind; [apply Hk, hs_emit|intros ?].
      eapply triple_bind; [apply Hk, keeps_get_res|intros ?].
      eapply triple_bind; [apply Hk|intros ?].
      { repeat first [structure | hs_leaf | keep_field | open_head]. }
      eapply triple_bind; [apply Hk; unfold decr_active; keep_field|intros ?].
      eapply triple_bind; [apply Hk; unfold clamp_active; keep_field|intros ?].
      exact Hlast.
    + unfold completeOpenAIRequest_with.
      eapply triple_bind; [apply Hk, hs_emit|intros ?].
      eapply triple_bind; [apply Hk, keeps_get_res|intros ?].
      eapply triple_bind; [apply Hk|intros ?].
      { repeat first [structure | hs_leaf | keep_field | open_head]. }
      eapply triple_bind; [apply Hk; unfold decr_active; keep_field|intros ?].
      eapply triple_bind; [apply Hk; unfold clamp_active; keep_field|intros ?].
      exact Hlast.
Qed.

(** X15. The guards are released when the rotation is over, not when the
    handler returns. With neither guard held at entry: when
    [processRequest] or [processOpenAIRequest] returns, either both
    guards are free, or the call of [_tryExecutePendingSwitch] that its
    [finally] block does not await has started a rotation, and then both
    guards are held, the switch is still pending and no request is
    active; once that rotation has run to its end both guards are free
    again, whatever the browser answers. [processModelListRequest] and
    the handler of [POST /api/switch-account] await all they start and
    return with both guards free. *)
Theorem guards_are_released cfg env w :
  guards_free (hs w) ->
  (forall req,
      let s := hs (snd (processRequest_returns cfg env req w)) in
      guards_free s \/ rotation_running s) /\
  (forall req,
      let s := hs (snd (processOpenAIRequest_returns cfg env req w)) in
      guards_free s \/ rotation_running s) /\
  (forall req, guards_free (hs (snd (processRequest cfg env req w)))) /\
  (forall req, guards_free (hs (snd (processOpenAIRequest cfg env req w)))) /\
  (forall req, guards_free (hs (snd (processModelListRequest cfg env req w)))) /\
  (forall target, guards_free (hs (snd (switch_account cfg env target w)))).
Proof.
  intros H. destruct (guards_handlers cfg env) as [G1 [G2 [G3 G4]]].
  destruct (guards_until_deferred cfg env (_tryExecutePendingSwitch_begun cfg)
              (on_hs (fun s => guards_free s \/ rotation_running s)))
    as [R1 R2].
  { intros w0 H0. left. exact H0. }
  { intros w0 H0. now apply begun_guards. }
  split; [|split; [|split; [|split; [|split]]]]; intros x.
  - exact (R1 x w H).
  - exact (R2 x w H).
  - exact (G1 x w H).
  - exact (G2 x w H).
  - exact (G3 x w H).
  - exact (G4 x w H).
Qed.

Lemma guards_are_released_witness :
  let w := start (initial 1) fresh_response [] in
  guards_free (hs w) /\
  rotation_running
    (hs (snd (processRequest_returns Scenario.cfg Scenario.env Scenario.generate w))) /\
  guards_free
    (hs (snd (processRequest Scenario.cfg Scenario.env Scenario.generate w))).
Proof.
  cbv zeta.
  assert (H : guards_free (hs (start (initial 1) fresh_response [])))
    by (split; reflexivity).
  split; [exact H|].
  destruct (guards_are_released Scenario.cfg Scenario.env _ H) as [R1 [_ [G1 _]]].
  split; [|exact (G1 Scenario.generate)].
  destruct (R1 Scenario.generate) as [[F _]|R]; [|exact R].
  vm_compute in F. discriminate F.
Defined.

(** X16. The credential in use stays a valid one. When the current index is
    an available index, it still is after each request handler and after
    the operator's switch: no rotation, fallback or recovery makes an index
    current that is not in the list. *)
Theorem credential_in_use_stays_valid cfg env w :
  In (currentAuthIndex (hs w)) (availableIndices cfg) ->
  (forall req,
      In (currentAuthIndex (hs (snd (processRequest cfg env req w))))
         (availableIndices cfg)) /\
  (forall req,
      In (currentAuthIndex (hs (snd (processOpenAIRequest cfg env req w))))
         (availableIndices cfg)) /\
  (forall req,
      In (currentAuthIndex (hs (snd (processModelListRequest cfg env req w))))
         (availableIndices cfg)) /\
  (forall target,
      In (currentAuthIndex (hs (snd (switch_account cfg env target w))))
         (availableIndices cfg)).
Proof.
  intros H. destruct (current_valid_handlers cfg env) as [G1 [G2 [G3 G4]]].
  split; [|split; [|split]]; intros x.
  - exact (G1 x w H).
  - exact (G2 x w H).
  - exact (G3 x w H).
  - exact (G4 x w H).
Qed.

Lemma credential_in_use_stays_valid_witness :
  let w := start (initial 1) fresh_response
             [Arrives (Scenario.error_frame 429 "quota exceeded")] in
  In (currentAuthIndex (hs w)) (availableIndices Scenario.cfg) /\
  In (currentAuthIndex
        (hs (snd (processRequest Scenario.cfg Scenario.env Scenario.generate w))))
     (availableIndices Scenario.cfg).
Proof.
  cbv zeta.
  assert (H : In (currentAuthIndex
                    (hs (start (initial 1) fresh_response
                           [Arrives (Scenario.error_frame 429 "quota exceeded")])))
                 (availableIndices Scenario.cfg)) by (left; reflexivity).
  split; [exact H|].
  exact (proj1 (credential_in_use_stays_valid Scenario.cfg Scenario.env _ H)
               Scenario.generate).
Defined.

(** X17. The use counter and its threshold. With a positive
    [switchOnUses], no switch pending and a counter below the threshold,
    [k] counted requests leave the counter at the smaller of its value plus
    [k] and the threshold, and the pending flag is raised exactly when the
    threshold was reached: the counter never passes the threshold, and
    later requests are not counted. Nothing else changes. *)
Theorem usage_stops_at_threshold cfg w k :
  0 < switchOnUses cfg -> pendingSwitch (hs w) = false ->
  usageCount (hs w) < switchOnUses cfg ->
  let w' := snd (count_n cfg k w) in
  usageCount (hs w') = Z.min (usageCount (hs w) + Z.of_nat k) (switchOnUses cfg) /\
  pendingSwitch (hs w') = (switchOnUses cfg <=? usageCount (hs w) + Z.of_nat k) /\
  activeRequestCount (hs w') = activeRequestCount (hs w) /\
  currentAuthIndex (hs w') = currentAuthIndex (hs w) /\
  res w' = res w /\ trace w' = trace w.
Proof.
  intros HN. revert w. induction k as [|k IH]; intros w Hp Hu; cbv zeta.
  - cbn [count_n ret snd]. rewrite Z.add_0_r.
    rewrite Z.min_l by lia. rewrite Hp.
    repeat split; try reflexivity. symmetry. apply Z.leb_gt. lia.
  - cbn [count_n]. unfold bind at 1 2 3 4 5 6.
    rewrite (count_once cfg w HN Hp).
    destruct (switchOnUses cfg <=? usageCount (hs w) + 1) eqn:E.
    + apply Z.leb_le in E.
      rewrite count_n_pending by reflexivity. cbn [snd hs res trace usageCount
        pendingSwitch activeRequestCount currentAuthIndex].
      repeat split; try reflexivity.
      * rewrite Z.min_r by lia. lia.
      * symmetry. apply Z.leb_le. lia.
    + apply Z.leb_gt in E.
      match goal with |- context [count_n cfg k ?w1] =>
        destruct (IH w1 eq_refl) as [H1 [H2 [H3 [H4 [H5 H6]]]]]; [cbn; lia|];
        cbv zeta in H1, H2, H3, H4, H5, H6;
        rewrite H1, H2, H3, H4, H5, H6
      end.
      cbn [hs res trace usageCount pendingSwitch activeRequestCount currentAuthIndex].
      replace (usageCount (hs w) + 1 + Z.of_nat k)
        with (usageCount (hs w) + Z.of_nat (S k)) by lia.
      repeat split; reflexivity.
Qed.

Lemma usage_stops_at_threshold_witness :
  let w := start (initial 1) fresh_response [] in
  0 < switchOnUses Scenario.cfg40 /\ pendingSwitch (hs w) = false /\
  usageCount (hs w) < switchOnUses Scenario.cfg40 /\
  usageCount (hs (snd (count_n Scenario.cfg40 45 w))) = 40 /\
  pendingSwitch (hs (snd (count_n Scenario.cfg40 45 w))) = true.
Proof.
  cbv zeta.
  assert (H1 : 0 < switchOnUses Scenario.cfg40) by (cbn; lia).
  assert (H2 : usageCount (hs (start (initial 1) fresh_response [])) <
               switchOnUses Scenario.cfg40) by (cbn; lia).
  split; [exact H1|]. split; [reflexivity|]. split; [exact H2|].
  destruct (usage_stops_at_threshold Scenario.cfg40
              (start (initial 1) fresh_response []) 45 H1 eq_refl H2)
    as [Hu [Hp _]].
  split; [exact Hu | exact Hp].
Defined.

End KeepsProofs.

(** ** Start-up and the sources *)

Section StartupProofs.
Import Startup.

Lemma filter_neq_perm (l : list Z) i :
  NoDup l -> In i l -> Permutation (i :: filter (fun j => negb (j =? i)) l) l.
Proof.
  induction l as [|x l IH]; intros Hnd Hin; [destruct Hin|].
  apply NoDup_cons_iff in Hnd as [Hx Hnd]. cbn [filter].
  destruct (Z.eqb_spec x i) as [->|Hne]; cbn [negb].
  - assert (E : filter (fun j => negb (j =? i)) l = l).
    { clear IH Hin Hnd. induction l as [|y l IH]; [reflexivity|].
      cbn [filter]. destruct (Z.eqb_spec y i) as [->|Hy]; cbn [negb].
      - exfalso. apply Hx. now left.
      - f_equal. apply IH. intros H. apply Hx. now right. }
    now rewrite E.
  - destruct Hin as [E|Hin]; [congruence|].
    rewrite perm_swap. apply perm_skip. now apply IH.
Qed.

(** X18. The start-up order loses no account. For the list the
    constructor of [AuthSource] leaves, the order in which [start] tries
    the indices is a rearrangement of that list, with no index twice; it
    begins with the requested index when that one is available, and is the
    list itself otherwise. *)
Theorem startup_order_covers_every_account parses indices initialAuthIndex :
  let available := AuthSource.availableIndices parses indices in
  let order := startupOrder available initialAuthIndex in
  Permutation order available /\ NoDup order /\
  (forall i, initialAuthIndex = Some i -> i <> 0 -> In i available ->
             hd_error order = Some i) /\
  (forall i, initialAuthIndex = Some i -> ~ In i available -> order = available) /\
  (initialAuthIndex = None -> order = available).
Proof.
  cbv zeta.
  pose proof (strict_NoDup _ (availableIndices_sorted parses indices)) as Hnd.
  set (available := AuthSource.availableIndices parses indices) in *.
  assert (Hp : Permutation (startupOrder available initialAuthIndex) available).
  { unfold startupOrder. destruct initialAuthIndex as [i|]; [|reflexivity].
    destruct (negb (i =? 0) && JS.includes available i)%bool eqn:E; [|reflexivity].
    apply andb_prop in E as [_ E]. apply includes_In in E.
    now apply filter_neq_perm. }
  split; [exact Hp|]. split.
  { apply (Permutation_NoDup (Permutation_sym Hp)). exact Hnd. }
  split; [|split].
  - intros i -> Hi Hin. unfold startupOrder.
    apply includes_In in Hin. rewrite Hin.
    apply Z.eqb_neq in Hi. rewrite Hi. reflexivity.
  - intros i -> Hin. unfold startupOrder.
    destruct (JS.includes available i) eqn:E.
    + apply includes_In in E. contradiction.
    + now rewrite andb_false_r.
  - intros ->. reflexivity.
Qed.

Lemma startup_order_covers_every_account_witness :
  let parses := fun i => negb (i =? 3) in
  let indices := [7; 1; 3; 1] in
  7 <> 0 /\ In 7 (AuthSource.availableIndices parses indices) /\
  hd_error (startupOrder (AuthSource.availableIndices parses indices) (Some 7)) =
  Some 7.
Proof.
  cbv zeta.
  assert (Hin : In 7 (AuthSource.availableIndices (fun i => negb (i =? 3)) [7; 1; 3; 1]))
    by (vm_compute; auto).
  assert (Hnz : 7 <> 0) by discriminate.
  split; [exact Hnz|]. split; [exact Hin|].
  destruct (startup_order_covers_every_account (fun i => negb (i =? 3)) [7; 1; 3; 1]
              (Some 7)) as [_ [_ [H _]]].
  exact (H 7 eq_refl Hnz Hin).
Defined.

Lemma try_each_spec launch order : forall n,
  match try_each launch n order with
  | Some (index, k) =>
      exists pre post,
        order = (pre ++ index :: post)%list /\ k = (n + List.length pre)%nat /\
        launch k index = None /\
        forall j x, nth_error pre j = Some x -> launch (n + j)%nat x <> None
  | None =>
      forall j x, nth_error order j = Some x -> launch (n + j)%nat x <> None
  end.
Proof.
  induction order as [|x order IH]; intros n; cbn [try_each].
  - intros [|j] y H; discriminate H.
  - destruct (launch n x) as [err|] eqn:E.
    + specialize (IH (S n)). destruct (try_each launch (S n) order) as [[index k]|].
      * destruct IH as [pre [post [Ho [Hk [Hl Hpre]]]]].
        exists (x :: pre), post. cbn [app List.length].
        split; [now rewrite Ho|]. split; [lia|]. split; [exact Hl|].
        intros [|j] y Hy; cbn [nth_error] in Hy.
        -- injection Hy as <-. rewrite Nat.add_0_r. congruence.
        -- replace (n + S j)%nat with (S n + j)%nat by lia. now apply Hpre.
      * intros [|j] y Hy; cbn [nth_error] in Hy.
        -- injection Hy as <-. rewrite Nat.add_0_r. congruence.
        -- replace (n + S j)%nat with (S n + j)%nat by lia. now apply IH.
    + exists [], order. cbn [app List.length].
      split; [reflexivity|]. split; [lia|]. split; [exact E|].
      intros [|j] y H; discriminate H.
Qed.

(** X19. The service starts with the first account that works. [start]
    refuses only for an empty list, or when the browser failed on every
    index of the start-up order; otherwise it starts with the first index
    of that order on which the browser succeeds, after one failed attempt
    on each index before it and none after it. *)
Theorem start_takes_first_working_account available initialAuthIndex launch :
  let order := startupOrder available initialAuthIndex in
  match start available initialAuthIndex launch with
  | Started index failed =>
      exists pre post,
        order = (pre ++ index :: post)%list /\ failed = List.length pre /\
        launch failed index = None /\
        forall j x, nth_error pre j = Some x -> launch j x <> None
  | Refused err =>
      (available = [] /\ err = "没有任何可用的认证源，无法启动。") \/
      (available <> [] /\ err = "所有认证源均尝试失败，服务器无法启动。" /\
       forall j x, nth_error order j = Some x -> launch j x <> None)
  end.
Proof.
  cbv zeta. unfold start. destruct available as [|a available]; [left; auto|].
  pose proof (try_each_spec launch (startupOrder (a :: available) initialAuthIndex) 0)
    as H.
  destruct (try_each launch 0 (startupOrder (a :: available) initialAuthIndex))
    as [[index k]|].
  - destruct H as [pre [post [Ho [Hk [Hl Hpre]]]]].
    exists pre, post. cbn in Hk. subst k. auto.
  - right. split; [discriminate|]. split; [reflexivity|]. exact H.
Qed.

Lemma includes_in_filter (parses : Z -> bool) l i :
  In i l -> JS.includes (filter parses l) i = parses i.
Proof.
  intros Hin. destruct (parses i) eqn:E.
  - apply includes_In. apply filter_In. auto.
  - destruct (JS.includes (filter parses l) i) eqn:E2; [|reflexivity].
    apply includes_In in E2. apply filter_In in E2 as [_ E2]. congruence.
Qed.

(** X20. The status report accounts for every discovered source. The
    indices [GET /api/status] lists as invalid are exactly the discovered
    ones that failed the pre-validation, in order; together with the
    available ones they make up the discovered list; and the account
    details have one entry per discovered index, in order, which reads
    "format error" for an invalid index and the stored name (or "unnamed")
    for an available one. *)
Theorem status_accounts_for_every_source parses indices names :
  let initial := AuthSource._discoverAvailableIndices indices in
  let available := AuthSource._preValidateAndFilter parses initial in
  let invalid := invalidIndices initial available in
  invalid = filter (fun i => negb (parses i)) initial /\
  Permutation initial (available ++ invalid) /\
  accountDetails initial available names =
    map (fun i => (i, if parses i
                      then match names i with
                           | Some n => if JS.truthy n then n else "N/A (未命名)"
                           | None => "N/A (未命名)"
                           end
                      else "N/A (JSON格式错误)")) initial.
Proof.
  cbv zeta. set (initial := AuthSource._discoverAvailableIndices indices).
  unfold AuthSource._preValidateAndFilter.
  assert (Hinv : invalidIndices initial (filter parses initial) =
                 filter (fun i => negb (parses i)) initial).
  { unfold invalidIndices. apply filter_ext_in. intros i Hin.
    now rewrite includes_in_filter. }
  split; [exact Hinv|]. split.
  { rewrite Hinv. clear Hinv. induction initial as [|x l IH]; [constructor|].
    cbn [filter]. destruct (parses x); cbn [negb app].
    - now apply perm_skip.
    - apply Permutation_cons_app. exact IH. }
  unfold accountDetails. apply map_ext_in. intros i Hi. cbv zeta.
  rewrite Hinv, (includes_in_filter (fun i => negb (parses i)) initial i Hi).
  now destruct (parses i).
Qed.

Lemma in_set_of l x : In x (AuthSource.set_of l) <-> In x l.
Proof.
  unfold AuthSource.set_of. rewrite dedup_from_spec. cbn. tauto.
Qed.

(** X21. A source that passed the pre-validation can be loaded. With the
    contents of the sources unchanged since the constructor ran,
    [getAuth(index)] returns null for every index outside
    [availableIndices], whatever its content; for an index of
    [availableIndices] its content is there and parses, and [getAuth]
    returns the parsed value, which is null only when the content is the
    JSON text of null. *)
Theorem getAuth_returns_the_validated_source (J : Type) content
  (parse : string -> option (option J)) indices index :
  let available :=
    AuthSource.availableIndices (validates J content parse) indices in
  (~ In index available -> getAuth J content parse available index = None) /\
  (In index available ->
   exists jsonString,
     content index = Some jsonString /\ JS.truthy jsonString = true /\
     parse jsonString = Some (getAuth J content parse available index)).
Proof.
  cbv zeta. unfold getAuth.
  destruct (JS.includes _ index) eqn:E; cbn [negb].
  - apply includes_In in E. split; [contradiction|]. intros _.
    apply availableIndices_In in E as [Hin Hv]. unfold validates in Hv.
    destruct (content index) as [text|]; [|discriminate Hv].
    apply andb_prop in Hv as [Ht Hp]. exists text. rewrite Ht.
    destruct (parse text) as [v|]; [|discriminate Hp]. auto.
  - split; [reflexivity|]. intros H. exfalso.
    apply includes_In in H. congruence.
Qed.

Lemma getAuth_returns_the_validated_source_witness :
  let content := fun index => if index =? 2 then Some "null" else None in
  let parse := fun text : string =>
                 if String.eqb text "null" then Some (@None nat) else None in
  In 2 (AuthSource.availableIndices (validates nat content parse) [2; 5]) /\
  getAuth nat content parse
    (AuthSource.availableIndices (validates nat content parse) [2; 5]) 2 = None /\
  getAuth nat content parse
    (AuthSource.availableIndices (validates nat content parse) [2; 5]) 5 = None.
Proof.
  cbv zeta.
  assert (Hin : In 2 (AuthSource.availableIndices
                        (validates nat
                           (fun index => if index =? 2 then Some "null" else None)
                           (fun text : string =>
                              if String.eqb text "null" then Some (@None nat)
                              else None)) [2; 5])).
  { left. reflexivity. }
  assert (Hout : ~ In 5 (AuthSource.availableIndices
                        (validates nat
                           (fun index => if index =? 2 then Some "null" else None)
                           (fun text : string =>
                              if String.eqb text "null" then Some (@None nat)
                              else None)) [2; 5])).
  { intros [H|[]]. discriminate H. }
  split; [exact Hin|]. split.
  - reflexivity.
  - exact (proj1 (getAuth_returns_the_validated_source nat _ _ [2; 5] 5) Hout).
Defined.

End StartupProofs.

(** ** Response translation and headers *)

Section StreamProofs.
Import StreamTranslator.

Lemma append_empty_r s : (s ++ "")%string = s.
Proof. induction s as [|c s IH]; cbn; [reflexivity | now rewrite IH]. Qed.

Lemma append_assoc_s (a b c : string) : ((a ++ b) ++ c)%string = (a ++ b ++ c)%string.
Proof. induction a as [|x a IH]; cbn; [reflexivity | now rewrite IH]. Qed.

Lemma gather_spec ps : forall content reasoning,
  gather ps content reasoning =
  ((content ++ concat_text (map visible ps))%string,
   (reasoning ++ concat_text (map hidden ps))%string).
Proof.
  induction ps as [|p ps IH]; intros c r; cbn [gather map concat_text fold_right].
  - now rewrite !append_empty_r.
  - fold (concat_text (map visible ps)). fold (concat_text (map hidden ps)).
    unfold visible at 1, hidden at 1.
    destruct (inlineData p) as [image|].
    + rewrite IH, append_assoc_s. reflexivity.
    + destruct (thought p); rewrite IH, append_assoc_s; reflexivity.
Qed.

(** X22. Thoughts never reach the visible content. For a response with a
    candidate whose parts are [ps], the chunk carries as [content] the
    texts of the parts that are not thoughts and the images (as markdown
    data URIs), in order, and as [reasoning_content] the texts of the
    thought parts, each left out when empty; and nothing is emitted exactly
    when both are empty and there is no finish reason. *)
Theorem thoughts_stay_out_of_content resp c ps modelName :
  candidate resp = Some c -> parts c = Some ps ->
  let content := concat_text (map visible ps) in
  let reasoning := concat_text (map hidden ps) in
  (JS.truthy content = false -> JS.truthy reasoning = false ->
   Config.opt_truthy (finishReason c) = false ->
   of_response resp modelName = Skipped) /\
  (JS.truthy content = true \/ JS.truthy reasoning = true \/
   Config.opt_truthy (finishReason c) = true ->
   exists out, of_response resp modelName = Emitted out /\
     model out = modelName /\
     StreamTranslator.content (delta out) = truthy_or_none content /\
     reasoning_content (delta out) = truthy_or_none reasoning).
Proof.
  intros Hc Hp. cbv zeta. unfold of_response. rewrite Hc, Hp, gather_spec.
  cbn [append]. split.
  - intros -> -> ->. reflexivity.
  - intros H.
    destruct (negb (JS.truthy (concat_text (map visible ps))) &&
              negb (JS.truthy (concat_text (map hidden ps))) &&
              negb (Config.opt_truthy (finishReason c)))%bool eqn:E.
    + apply andb_prop in E as [E E3]. apply andb_prop in E as [E1 E2].
      apply negb_true_iff in E1, E2, E3.
      destruct H as [H|[H|H]]; congruence.
    + eexists. split; [reflexivity|]. cbn. auto.
Qed.

Lemma thoughts_stay_out_of_content_witness :
  let ps := [ {| inlineData := None; thought := true; text := Some "let me think" |};
              {| inlineData := None; thought := false; text := Some "42" |} ] in
  let c := {| parts := Some ps; finishReason := None |} in
  let resp := {| candidate := Some c; promptFeedback := None |} in
  JS.truthy (concat_text (map visible ps)) = true /\
  exists out, of_response resp "gemini-pro" = Emitted out /\
    StreamTranslator.content (delta out) = Some "42" /\
    reasoning_content (delta out) = Some "let me think".
Proof.
  cbv zeta. split; [reflexivity|].
  destruct (thoughts_stay_out_of_content
              {| candidate :=
                   Some {| parts :=
                             Some [ {| inlineData := None; thought := true;
                                       text := Some "let me think" |};
                                    {| inlineData := None; thought := false;
                                       text := Some "42" |} ];
                           finishReason := None |};
                 promptFeedback := None |}
              _ _ "gemini-pro" eq_refl eq_refl) as [_ H].
  destruct (H (or_introl eq_refl)) as [out [Ho [_ [H1 H2]]]].
  exists out. split; [exact Ho|]. split; [exact H1 | exact H2].
Defined.

(** X23. An image sent to the client is accepted back. The markdown the
    stream translation writes for an inline image of an image type is
    "![Generated Image](url)" where [url] is a data URI that the request
    translation decodes into the same mime type and the same payload. *)
Theorem generated_image_round_trip subtype payload :
  JS.str_includes subtype ";base64," = false ->
  Translator.no_line_terminator subtype = true ->
  Translator.no_line_terminator payload = true ->
  let p := {| inlineData := Some ("image/" ++ subtype, payload)%string;
              thought := false; text := None |} in
  let url := ("data:image/" ++ subtype ++ ";base64," ++ payload)%string in
  visible p = ("![Generated Image](" ++ url ++ ")")%string /\
  Translator.translate_part (Translator.ImageUrlPart (Some url)) =
  [Translator.GInlineData ("image/" ++ subtype) payload].
Proof.
  intros Hs Hx Hp. cbv zeta. split.
  - unfold visible, image_markdown. cbn [inlineData fst snd].
    cbn [append]. rewrite append_assoc_s. reflexivity.
  - cbn [Translator.translate_part].
    now rewrite (match_data_url_decodes subtype payload Hs Hx Hp).
Qed.

Lemma generated_image_round_trip_witness :
  JS.str_includes "png" ";base64," = false /\
  Translator.no_line_terminator "png" = true /\
  Translator.no_line_terminator "iVBORw0KGgo=" = true /\
  Translator.translate_part
    (Translator.ImageUrlPart (Some "data:image/png;base64,iVBORw0KGgo=")) =
  [Translator.GInlineData "image/png" "iVBORw0KGgo="].
Proof.
  split; [reflexivity|]. split; [reflexivity|]. split; [reflexivity|].
  exact (proj2 (generated_image_round_trip "png" "iVBORw0KGgo="
                  eq_refl eq_refl eq_refl)).
Defined.

End StreamProofs.

Section HeaderProofs.
Import Headers.

Lemma header_of_app sets1 sets2 name :
  header_of (sets1 ++ sets2) name =
  match header_of sets2 name with
  | Some v => Some v
  | None => header_of sets1 name
  end.
Proof.
  induction sets1 as [|[n v] sets1 IH]; cbn [app header_of].
  - now destruct (header_of sets2 name).
  - rewrite IH. destruct (header_of sets2 name); [reflexivity|].
    reflexivity.
Qed.

(** X24. What the response headers never carry. Whatever the upstream
    headers are, [_setResponseHeaders] never sets a Content-Length (in any
    case of letters); in stream mode the response ends up with Content-Type
    "text/event-stream", Cache-Control "no-cache" and Connection
    "keep-alive" whatever the upstream sent for them; and without stream
    mode every other upstream header is set, in order. *)
Theorem response_headers_are_sanitised status headers isStream :
  let sets := snd (_setResponseHeaders status headers isStream) in
  (forall name value, In (name, value) sets ->
                      toLowerCase name <> "content-length") /\
  (isStream = true ->
   header_of sets "Content-Type" = Some "text/event-stream" /\
   header_of sets "Cache-Control" = Some "no-cache" /\
   header_of sets "Connection" = Some "keep-alive") /\
  (isStream = false ->
   sets = filter (fun entry =>
                    negb (String.eqb (toLowerCase (fst entry)) "content-length"))
                 headers).
Proof.
  cbv zeta. unfold _setResponseHeaders. cbn [snd]. split; [|split].
  - intros name value Hin. apply in_app_or in Hin as [Hin|Hin].
    + apply filter_In in Hin as [_ Hf]. cbn [fst] in Hf.
      apply andb_prop in Hf as [Hf _]. apply negb_true_iff in Hf.
      now apply String.eqb_neq in Hf.
    + destruct isStream; [|destruct Hin].
      destruct Hin as [E|[E|[E|[]]]]; injection E as <- <-; discriminate.
  - intros ->. rewrite !header_of_app. cbn. auto.
  - intros ->. rewrite app_nil_r. apply filter_ext. intros entry.
    cbn [andb negb]. now rewrite andb_true_r.
Qed.

Lemma response_headers_are_sanitised_witness :
  let headers := [("content-type", "application/json"); ("CONTENT-LENGTH", "12");
                  ("cache-control", "max-age=60")] in
  header_of (snd (_setResponseHeaders (Some 200) headers true)) "Cache-Control" =
  Some "no-cache".
Proof.
  cbv zeta.
  exact (proj1 (proj2 (proj1 (proj2
           (response_headers_are_sanitised (Some 200)
              [("content-type", "application/json"); ("CONTENT-LENGTH", "12");
               ("cache-control", "max-age=60")] true)) eq_refl))).
Defined.

End HeaderProofs.

(** ** Numbers of the configuration *)

Section NumbersProofs.
Import Numbers.

Lemma read_digits_uint d : forall acc,
  read_digits (NilEmpty.string_of_uint d) (Some acc) = Some (uint_value d acc).
Proof.
  induction d; intros acc; cbn [NilEmpty.string_of_uint read_digits uint_value];
    try reflexivity;
    (change (is_digit _) with true; cbv iota; rewrite IHd; reflexivity).
Qed.

Lemma read_digits_uint_first d :
  d <> Decimal.Nil ->
  read_digits (NilEmpty.string_of_uint d) None = Some (uint_value d 0).
Proof.
  destruct d; intros Hd; [congruence| ..];
    cbn [NilEmpty.string_of_uint read_digits uint_value];
    change (is_digit _) with true; cbv iota; rewrite read_digits_uint;
    reflexivity.
Qed.

Lemma uint_value_pos d : forall p,
  uint_value d (Z.pos p) = Z.pos (Pos.of_uint_acc d p).
Proof.
  induction d; intros p; cbn [uint_value Pos.of_uint_acc];
    try reflexivity; rewrite <- IHd; f_equal; lia.
Qed.

Lemma uint_value_zero d : uint_value d 0 = Z.of_N (Pos.of_uint d).
Proof.
  induction d; cbn [uint_value Pos.of_uint]; try reflexivity;
    try exact IHd;
    (change (10 * 0 + _) with (Z.pos 1) || change (10 * 0 + _) with (Z.pos 2)
     || idtac);
    cbn [Z.mul Z.add]; rewrite uint_value_pos; reflexivity.
Qed.

Lemma to_uint_not_nil p : Pos.to_uint p <> Decimal.Nil.
Proof.
  intros E. pose proof (DecimalPos.Unsigned.of_to p) as H.
  rewrite E in H. discriminate H.
Qed.

Lemma starts_with_digit d :
  d <> Decimal.Nil ->
  exists c s, NilEmpty.string_of_uint d = String c s /\ is_digit c = true.
Proof.
  destruct d; intros Hd; [congruence| ..]; cbn [NilEmpty.string_of_uint];
    eexists; eexists; split; reflexivity.
Qed.

Lemma parseInt_digits sign d :
  d <> Decimal.Nil ->
  parseInt (match sign with
            | true => String "-" (NilEmpty.string_of_uint d)
            | false => NilEmpty.string_of_uint d
            end) =
  Some ((if sign then -1 else 1) * uint_value d 0).
Proof.
  intros Hd. unfold parseInt. destruct sign.
  - cbn [Config.trimStart]. change (Config.is_whitespace "-") with false.
    cbv iota. rewrite (read_digits_uint_first d Hd). reflexivity.
  - destruct (starts_with_digit d Hd) as [c [s [E Hc]]].
    pose proof (read_digits_uint_first d Hd) as Hr. rewrite E in *.
    assert (Hw : Config.is_whitespace c = false).
    { revert Hc. unfold is_digit, Config.is_whitespace.
      destruct (nat_of_ascii c) as [|n] eqn:En; [discriminate|].
      do 47 (destruct n as [|n]; [discriminate|]).
      do 10 (destruct n as [|n]; [reflexivity|]). discriminate. }
    cbn [Config.trimStart]. rewrite Hw.
    assert (Hm : c <> "-"%char /\ c <> "+"%char).
    { split; intros ->; discriminate Hc. }
    destruct Hm as [Hm Hp].
    assert (Hs : match String c s with
                 | String "-" r => (-1, r)
                 | String "+" r => (1, r)
                 | _ => (1, String c s)
                 end = (1, String c s)).
    { destruct c as [[] [] [] [] [] [] [] []]; try reflexivity; congruence. }
    rewrite Hs, Hr. reflexivity.
Qed.

(** Reading back a printed integer. *)
Lemma parseInt_toString n : parseInt (toString n) = Some n.
Proof.
  unfold toString. destruct n as [|p|p]; [reflexivity| |].
  - cbn [Z.to_int NilZero.string_of_int].
    pose proof (to_uint_not_nil p) as Hd.
    assert (E : NilZero.string_of_uint (Pos.to_uint p) =
                NilEmpty.string_of_uint (Pos.to_uint p)).
    { unfold NilZero.string_of_uint. destruct (Pos.to_uint p); congruence. }
    rewrite E, (parseInt_digits false _ Hd), uint_value_zero,
      DecimalPos.Unsigned.of_to. reflexivity.
  - cbn [Z.to_int NilZero.string_of_int].
    pose proof (to_uint_not_nil p) as Hd.
    assert (E : NilZero.string_of_uint (Pos.to_uint p) =
                NilEmpty.string_of_uint (Pos.to_uint p)).
    { unfold NilZero.string_of_uint. destruct (Pos.to_uint p); congruence. }
    rewrite E, (parseInt_digits true _ Hd), uint_value_zero,
      DecimalPos.Unsigned.of_to. reflexivity.
Qed.

Lemma toString_truthy n : JS.truthy (toString n) = true.
Proof.
  pose proof (parseInt_toString n) as H.
  destruct (toString n); [discriminate H | reflexivity].
Qed.

Lemma toNumber_zero n : n <> 0 -> toNumber n <> Int 0.
Proof.
  intros Hn. unfold toNumber. destruct (Z.abs n <? 2 ^ 53).
  - intros E. injection E as E. contradiction.
  - discriminate.
Qed.

(** X25. The numbers of the configuration. The rotation threshold and the
    port are never 0: an unset or empty variable, one that does not start
    with a number, and one whose number is 0 all leave the default (40,
    7860); a nonzero integer below 2^53 in absolute value, written in
    decimal, is taken as it is, negative ones included; and a longer number
    gives a number of at least 2^53 in absolute value, of the same sign. *)
Theorem configured_numbers_are_never_zero V :
  _loadConfiguration_switchOnUses V <> Int 0 /\
  _loadConfiguration_httpPort V <> Int 0 /\
  (Config.opt_truthy V = false ->
   _loadConfiguration_switchOnUses V = Int 40 /\
   _loadConfiguration_httpPort V = Int 7860) /\
  (forall s, V = Some s -> parseInt s = None \/ parseInt s = Some 0 ->
             _loadConfiguration_switchOnUses V = Int 40 /\
             _loadConfiguration_httpPort V = Int 7860) /\
  (forall n, n <> 0 -> - 2 ^ 53 < n < 2 ^ 53 -> V = Some (toString n) ->
             _loadConfiguration_switchOnUses V = Int n /\
             _loadConfiguration_httpPort V = Int n) /\
  (forall s n, V = Some s -> parseInt s = Some n -> 2 ^ 53 <= Z.abs n ->
               _loadConfiguration_switchOnUses V = Huge (n <? 0) /\
               _loadConfiguration_httpPort V = Huge (n <? 0)).
Proof.
  unfold _loadConfiguration_switchOnUses, _loadConfiguration_httpPort, number_or.
  assert (Hnz : forall default, default <> 0 ->
            match V with
            | Some s =>
                if JS.truthy s
                then match parseInt s with
                     | Some n => if n =? 0 then Int default else toNumber n
                     | None => Int default
                     end
                else Int default
            | None => Int default
            end <> Int 0).
  { intros default Hd.
    assert (Hi : Int default <> Int 0) by (intros E; injection E as E; contradiction).
    destruct V as [s|]; [|exact Hi].
    destruct (JS.truthy s); [|exact Hi].
    destruct (parseInt s) as [n|]; [|exact Hi].
    destruct (Z.eqb_spec n 0); [exact Hi | now apply toNumber_zero]. }
  split; [apply Hnz; discriminate|].
  split; [apply Hnz; discriminate|].
  split; [|split; [|split]].
  - destruct V as [s|]; cbn [Config.opt_truthy]; [|split; reflexivity].
    intros ->. split; reflexivity.
  - intros s -> [E|E]; rewrite E; destruct (JS.truthy s); split; reflexivity.
  - intros n Hn Hb ->. rewrite toString_truthy, parseInt_toString.
    destruct (Z.eqb_spec n 0); [contradiction|].
    unfold toNumber.
    destruct (Z.ltb_spec (Z.abs n) (2 ^ 53)); [split; reflexivity | lia].
  - intros s n -> Hp Hb. rewrite Hp.
    assert (Ht : JS.truthy s = true).
    { destruct s; [discriminate Hp | reflexivity]. }
    rewrite Ht.
    destruct (Z.eqb_spec n 0) as [->|_]; [cbn in Hb; lia|].
    unfold toNumber.
    destruct (Z.ltb_spec (Z.abs n) (2 ^ 53)); [lia | split; reflexivity].
Qed.

Lemma configured_numbers_are_never_zero_witness :
  _loadConfiguration_switchOnUses (Some "0") = Int 40 /\
  _loadConfiguration_switchOnUses (Some "-1") = Int (-1) /\
  _loadConfiguration_switchOnUses (Some "9007199254740993") = Huge false.
Proof.
  split; [|split].
  - destruct (configured_numbers_are_never_zero (Some "0")) as [_ [_ [_ [H _]]]].
    exact (proj1 (H "0" eq_refl (or_intror eq_refl))).
  - destruct (configured_numbers_are_never_zero (Some "-1")) as [_ [_ [_ [_ [H _]]]]].
    assert (Hn : -1 <> 0) by discriminate.
    assert (Hb : - 2 ^ 53 < -1 < 2 ^ 53) by (split; reflexivity).
    exact (proj1 (H (-1) Hn Hb eq_refl)).
  - destruct (configured_numbers_are_never_zero (Some "9007199254740993"))
      as [_ [_ [_ [_ [_ H]]]]].
    assert (Hb : 2 ^ 53 <= Z.abs 9007199254740993) by (vm_compute; discriminate).
    exact (proj1 (H "9007199254740993" 9007199254740993 eq_refl eq_refl Hb)).
Defined.

Lemma split_comma_no_comma s :
  JS.str_includes s "," = false -> Config.split_comma s = [s].
Proof.
  induction s as [|c s IH]; [reflexivity|].
  cbn [JS.str_includes Config.split_comma]. intros H.
  apply orb_false_iff in H as [Hp Hs].
  destruct (Ascii.eqb_spec c ","%char) as [->|Hc].
  - destruct s; vm_compute in Hp; discriminate Hp.
  - now rewrite (IH Hs).
Qed.

Lemma split_comma_app s t :
  JS.str_includes s "," = false ->
  Config.split_comma (s ++ "," ++ t) = s :: Config.split_comma t.
Proof.
  induction s as [|c s IH]; intros H.
  - reflexivity.
  - cbn [JS.str_includes] in H. apply orb_false_iff in H as [Hp Hs].
    cbn [append Config.split_comma].
    destruct (Ascii.eqb_spec c ","%char) as [->|Hc]; [destruct s; vm_compute in Hp; discriminate Hp|].
    change (s ++ String "," t)%string with (s ++ "," ++ t)%string.
    now rewrite (IH Hs).
Qed.

(** The codes 400 to 599, printed, hold no comma and no white space at
    either end. *)
Lemma code_text n :
  400 <= n <= 599 ->
  JS.str_includes (toString n) "," = false /\
  Config.trim (toString n) = toString n.
Proof.
  intros Hn.
  assert (H : forallb (fun k =>
                (negb (JS.str_includes (toString (400 + Z.of_nat k)) ",") &&
                 String.eqb (Config.trim (toString (400 + Z.of_nat k)))
                            (toString (400 + Z.of_nat k)))%bool)
              (seq 0 200) = true) by (vm_compute; reflexivity).
  rewrite forallb_forall in H.
  specialize (H (Z.to_nat (n - 400))).
  replace (400 + Z.of_nat (Z.to_nat (n - 400))) with n in H by lia.
  assert (Hin : In (Z.to_nat (n - 400)) (seq 0 200)) by (apply in_seq; lia).
  apply H in Hin. apply andb_prop in Hin as [H1 H2].
  apply negb_true_iff in H1. apply String.eqb_eq in H2. auto.
Qed.

Lemma parse_codes_In l code : In code (parse_codes l) -> 400 <= code <= 599.
Proof.
  induction l as [|s l IH]; cbn [parse_codes]; [intros []|].
  destruct (parseInt (Config.trim s)) as [n|]; [|exact IH].
  destruct ((400 <=? n) && (n <=? 599))%bool eqn:E; [|exact IH].
  intros [<-|H]; [|exact (IH H)].
  apply andb_prop in E as [E1 E2]. lia.
Qed.

Lemma parse_codes_printed l :
  Forall (fun code => 400 <= code <= 599) l ->
  l <> [] ->
  parse_codes (Config.split_comma (JS.join "," (map toString l))) = l.
Proof.
  induction 1 as [|n l Hn Hl IH]; [congruence|]. intros _.
  destruct (code_text n Hn) as [Hc Ht].
  assert (Hone : forall rest, parse_codes (toString n :: rest) = n :: parse_codes rest).
  { intros rest. cbn [parse_codes]. rewrite Ht, parseInt_toString.
    replace ((400 <=? n) && (n <=? 599))%bool with true; [reflexivity|].
    symmetry. apply andb_true_intro. split; apply Z.leb_le; lia. }
  destruct l as [|m l].
  - cbn [map JS.join]. rewrite (split_comma_no_comma _ Hc). apply Hone.
  - change (JS.join "," (map toString (n :: m :: l)))
      with (toString n ++ "," ++ JS.join "," (map toString (m :: l)))%string.
    rewrite (split_comma_app _ _ Hc), Hone, IH; [reflexivity | discriminate].
Qed.

(** X26. The status codes that switch at once. Every loaded code lies
    between 400 and 599; an unset or empty variable gives the default codes
    401, 403 and 429; and a non-empty list of codes between 400 and 599,
    printed with commas, is loaded as it is, in order and with its
    repetitions. *)
Theorem immediate_codes_are_loaded_in_range raw :
  (forall code,
      In code (_loadConfiguration_immediateSwitchStatusCodes raw) ->
      400 <= code <= 599) /\
  (Config.opt_truthy raw = false ->
   _loadConfiguration_immediateSwitchStatusCodes raw = [401; 403; 429]) /\
  (forall codes,
      codes <> [] -> Forall (fun code => 400 <= code <= 599) codes ->
      raw = Some (JS.join "," (map toString codes)) ->
      _loadConfiguration_immediateSwitchStatusCodes raw = codes).
Proof.
  unfold _loadConfiguration_immediateSwitchStatusCodes. split; [|split].
  - intros code.
    match goal with
    | |- In _ (if ?b then _ else _) -> _ => destruct b
    end; [apply parse_codes_In | intros []].
  - intros ->. reflexivity.
  - intros codes Hne Hall ->.
    assert (Ht : JS.truthy (JS.join "," (map toString codes)) = true).
    { destruct codes as [|n l]; [congruence|].
      pose proof (toString_truthy n) as Hn.
      destruct l; cbn [map JS.join];
        destruct (toString n); try discriminate Hn; reflexivity. }
    cbn [Config.opt_truthy]. rewrite !Ht.
    now apply parse_codes_printed.
Qed.

Lemma immediate_codes_are_loaded_in_range_witness :
  _loadConfiguration_immediateSwitchStatusCodes (Some "500,429,500") =
  [500; 429; 500].
Proof.
  destruct (immediate_codes_are_loaded_in_range (Some "500,429,500"))
    as [_ [_ H]].
  assert (Hne : [500; 429; 500] <> []) by discriminate.
  assert (Hall : Forall (fun code => 400 <= code <= 599) [500; 429; 500]).
  { repeat constructor; lia. }
  exact (H [500; 429; 500] Hne Hall eq_refl).
Defined.

End NumbersProofs.

(** ** Fairness of the rotation *)

Section RotationOrder.

Lemma next_at_position available i :
  NoDup available -> (i < List.length available)%nat ->
  _getNextAuthIndex available (nth i available 0) =
  Some (nth (Nat.modulo (i + 1) (List.length available)) available 0).
Proof.
  intros Hnd Hi. unfold _getNextAuthIndex.
  destruct available as [|a l] eqn:E; [cbn in Hi; lia|].
  rewrite <- E in *. rewrite indexOf_nth by assumption.
  apply nth_error_nth'. apply Nat.mod_upper_bound. lia.
Qed.

Lemma rotate_n_position available k : forall i,
  NoDup available -> (i < List.length available)%nat ->
  rotate_n available k (nth i available 0) =
  Some (nth (Nat.modulo (i + k) (List.length available)) available 0).
Proof.
  induction k as [|k IH]; intros i Hnd Hi; cbn [rotate_n].
  - rewrite Nat.add_0_r, Nat.mod_small by assumption. reflexivity.
  - rewrite next_at_position by assumption.
    rewrite IH by (auto; apply Nat.mod_upper_bound; lia).
    rewrite Nat.Div0.add_mod_idemp_l.
    do 3 f_equal. lia.
Qed.

(** X27. Rotation is fair. Over a list of accounts without repetition, and
    starting from an account of the list, as many successful rotations as
    there are accounts lead back to the account they started from, and
    every account of the list is reached after fewer rotations than
    that. *)
Theorem rotation_visits_every_account available current :
  NoDup available -> In current available ->
  rotate_n available (List.length available) current = Some current /\
  (forall target, In target available ->
     exists k, (k < List.length available)%nat /\
               rotate_n available k current = Some target).
Proof.
  intros Hnd Hin.
  destruct (In_nth _ _ 0 Hin) as [i [Hi <-]].
  split.
  - rewrite rotate_n_position by assumption.
    rewrite <- (Nat.mul_1_l (List.length available)) at 1.
    rewrite Nat.Div0.mod_add, Nat.mod_small by assumption. reflexivity.
  - intros target Ht. destruct (In_nth _ _ 0 Ht) as [j [Hj <-]].
    destruct (Nat.le_gt_cases i j) as [Hle|Hgt].
    + exists (j - i)%nat. split; [lia|].
      rewrite rotate_n_position by assumption.
      replace (i + (j - i))%nat with j by lia.
      rewrite Nat.mod_small by assumption. reflexivity.
    + exists (j + List.length available - i)%nat. split; [lia|].
      rewrite rotate_n_position by assumption.
      replace (i + (j + List.length available - i))%nat
        with (j + 1 * List.length available)%nat by lia.
      rewrite Nat.Div0.mod_add, Nat.mod_small by assumption. reflexivity.
Qed.

Lemma rotation_visits_every_account_witness :
  rotate_n [1; 3; 7] 3 3 = Some 3 /\
  exists k, (k < 3)%nat /\ rotate_n [1; 3; 7] k 3 = Some 1.
Proof.
  assert (Hnd : NoDup [1; 3; 7]).
  { repeat constructor; cbn; intros H; repeat destruct H as [H|H];
      try discriminate H; exact H. }
  assert (Hin : In 3 [1; 3; 7]) by (right; left; reflexivity).
  assert (Hone : In 1 [1; 3; 7]) by (left; reflexivity).
  destruct (rotation_visits_every_account [1; 3; 7] 3 Hnd Hin) as [Hback Hall].
  split; [exact Hback | exact (Hall 1 Hone)].
Defined.

End RotationOrder.

(** ** The log buffer and the console *)

Section LoggingProofs.
Import LoggingService.

Lemma tl_skipn {A} (l : list A) k : tl (skipn k l) = skipn (S k) l.
Proof.
  revert l. induction k as [|k IH]; intros [|x l]; try reflexivity.
  cbn [skipn]. apply IH.
Qed.

Lemma log_fields svc e :
  serviceName (log svc e) = serviceName svc /\
  maxBufferSize (log svc e) = maxBufferSize svc.
Proof. destruct e as [[level timestamp] message]. split; reflexivity. Qed.

Lemma log_all_spec es : forall (svc : t) (seen : list Entry),
  logBuffer svc =
    skipn (List.length seen - maxBufferSize svc) (map (line_of svc) seen) ->
  logBuffer (fold_left log es svc) =
    skipn (List.length (seen ++ es) - maxBufferSize svc)
          (map (line_of svc) (seen ++ es)).
Proof.
  induction es as [|e es IH]; intros svc seen Hb.
  - rewrite app_nil_r. exact Hb.
  - cbn [fold_left].
    replace (seen ++ e :: es)%list with ((seen ++ [e]) ++ es)%list
      by (rewrite <- app_assoc; reflexivity).
    destruct (log_fields svc e) as [Hn Hm].
    assert (Hl : forall x, line_of (log svc e) x = line_of svc x).
    { intros [[l t0] m]. unfold line_of, formatted. now rewrite Hn. }
    rewrite <- Hm, <- (map_ext _ _ Hl). apply IH.
    rewrite (map_ext _ _ Hl), Hm.
    destruct e as [[level timestamp] message].
    unfold log, _formatMessage. cbn [fst logBuffer].
    rewrite Hb, map_app. cbn [map line_of].
    set (lines := map (line_of svc) seen).
    set (line := formatted svc level timestamp message).
    assert (Hlen : List.length lines = List.length seen)
      by (unfold lines; apply length_map).
    rewrite !length_app, length_skipn, Hlen. cbn [List.length].
    destruct (Nat.ltb_spec (maxBufferSize svc)
                (List.length seen - (List.length seen - maxBufferSize svc) + 1)).
    + replace (List.length seen + 1 - maxBufferSize svc)%nat
        with (S (List.length seen - maxBufferSize svc)) by lia.
      rewrite <- tl_skipn, skipn_app, Hlen.
      replace (List.length seen - maxBufferSize svc - List.length seen)%nat
        with 0%nat by lia.
      reflexivity.
    + replace (List.length seen + 1 - maxBufferSize svc)%nat with 0%nat by lia.
      replace (List.length seen - maxBufferSize svc)%nat with 0%nat by lia.
      reflexivity.
Qed.

(** X28. The log buffer holds the latest hundred lines. After any sequence
    of logged messages on a new service, the buffer is the lines of the
    last 100 of them, in the order they were logged: it never holds more
    than 100 lines, and it drops the oldest line first. *)
Theorem log_buffer_keeps_latest_lines serviceName (es : list Entry) :
  let svc := create serviceName in
  logBuffer (fold_left log es svc) =
    skipn (List.length es - 100) (map (line_of svc) es) /\
  (List.length (logBuffer (fold_left log es svc)) <= 100)%nat.
Proof.
  cbv zeta.
  assert (H : logBuffer (fold_left log es (create serviceName)) =
              skipn (List.length es - 100)
                    (map (line_of (create serviceName)) es)).
  { apply (log_all_spec es (create serviceName) []). reflexivity. }
  split; [exact H|]. rewrite H, length_skipn, length_map. lia.
Qed.

End LoggingProofs.

Section ConsoleProofs.
Import Console.

(** X29. The console is closed without a login. For a session that is not
    authenticated, as long as none of its requests is a login with a
    configured key, every [POST] route of the console answers with a
    redirection to the login page and the settings stay as they are; and a
    login with a configured key authenticates the session and changes no
    setting. *)
Theorem console_needs_login apiKeys rs p :
  forallb (fun r => negb (good_login apiKeys r)) rs = true ->
  serve apiKeys rs false p =
    (false, p,
     map (fun r => match r with
                   | Login _ => Redirect "/login?error=1"
                   | _ => Redirect "/login"
                   end) rs) /\
  (forall r, good_login apiKeys r = true ->
             handle apiKeys r false p = (true, p, Redirect "/")).
Proof.
  intros Hrs. split.
  - induction rs as [|r rs IH]; [reflexivity|].
    cbn [forallb] in Hrs. apply andb_prop in Hrs as [Hr Hrs].
    apply negb_true_iff in Hr. cbn [serve map].
    assert (E : handle apiKeys r false p =
                (false, p, match r with
                           | Login _ => Redirect "/login?error=1"
                           | _ => Redirect "/login"
                           end)).
    { destruct r as [[k|]|m| | |limit| ];
        cbn [good_login handle isAuthenticated] in *;
        try reflexivity. now rewrite Hr. }
    rewrite E, (IH Hrs). reflexivity.
  - intros [[k|]|m| | |limit| ]; cbn [good_login handle]; try discriminate.
    now intros ->.
Qed.

Lemma console_needs_login_witness :
  let apiKeys := Config._loadConfiguration_apiKeys None in
  serve apiKeys [SetMode (Some "fake"); Login (Some "guess"); ToggleReasoning]
        false (initial "real") =
  (false, initial "real",
   [Redirect "/login"; Redirect "/login?error=1"; Redirect "/login"]) /\
  handle apiKeys (Login (Some "123456")) false (initial "real") =
  (true, initial "real", Redirect "/").
Proof.
  cbv zeta.
  destruct (console_needs_login (Config._loadConfiguration_apiKeys None)
              [SetMode (Some "fake"); Login (Some "guess"); ToggleReasoning]
              (initial "real") eq_refl) as [H1 H2].
  split; [exact H1|].
  exact (H2 (Login (Some "123456")) eq_refl).
Defined.

(** X30. What an authenticated session can set. Whatever requests a session
    sends, the streaming mode is the configured one or one of "fake" and
    "real", the resume limit never becomes negative, and once a resume
    limit was accepted, resuming is enabled exactly when the limit is
    positive. *)
Theorem console_settings_stay_valid apiKeys rs authenticated p :
  let p' := snd (fst (serve apiKeys rs authenticated p)) in
  (streamingMode p' = streamingMode p \/
   streamingMode p' = "fake" \/ streamingMode p' = "real") /\
  (0 <= resumeLimit p -> 0 <= resumeLimit p') /\
  ((resumeLimit p' = resumeLimit p /\ enableResume p' = enableResume p) \/
   enableResume p' = (0 <? resumeLimit p')).
Proof.
  cbv zeta. revert authenticated p.
  induction rs as [|r rs IH]; intros authenticated p.
  - cbn. auto.
  - cbn [serve].
    destruct (handle apiKeys r authenticated p) as [[a1 p1] answer] eqn:E.
    specialize (IH a1 p1).
    destruct (serve apiKeys rs a1 p1) as [[a2 p2] answers]. cbn [fst snd] in *.
    assert (H1 : (streamingMode p1 = streamingMode p \/
                  streamingMode p1 = "fake" \/ streamingMode p1 = "real") /\
                 (0 <= resumeLimit p -> 0 <= resumeLimit p1) /\
                 ((resumeLimit p1 = resumeLimit p /\
                   enableResume p1 = enableResume p) \/
                  enableResume p1 = (0 <? resumeLimit p1))).
    { clear IH.
      assert (Hset : forall next,
                 (forall q, (streamingMode (fst (next q)) = streamingMode q \/
                             streamingMode (fst (next q)) = "fake" \/
                             streamingMode (fst (next q)) = "real") /\
                            (0 <= resumeLimit q -> 0 <= resumeLimit (fst (next q))) /\
                            ((resumeLimit (fst (next q)) = resumeLimit q /\
                              enableResume (fst (next q)) = enableResume q) \/
                             enableResume (fst (next q)) =
                               (0 <? resumeLimit (fst (next q))))) ->
                 isAuthenticated authenticated p next = (a1, p1, answer) ->
                 (streamingMode p1 = streamingMode p \/
                  streamingMode p1 = "fake" \/ streamingMode p1 = "real") /\
                 (0 <= resumeLimit p -> 0 <= resumeLimit p1) /\
                 ((resumeLimit p1 = resumeLimit p /\
                   enableResume p1 = enableResume p) \/
                  enableResume p1 = (0 <? resumeLimit p1))).
      { intros next Hn. unfold isAuthenticated.
        destruct authenticated; intros H; injection H as <- <- <-;
          [apply Hn | auto]. }
      destruct r as [[k|]|m| | |limit| ]; cbn [handle] in E.
      - destruct (JS.truthy k && JS.includes_str apiKeys k)%bool;
          injection E as <- <- <-; auto.
      - injection E as <- <- <-; auto.
      - eapply Hset; [|exact E]; intros q. unfold set_mode.
        destruct m as [m|]; [|cbn; auto].
        destruct (String.eqb m "fake" || String.eqb m "real")%bool eqn:Em;
          [|cbn; auto].
        apply orb_prop in Em as [Em|Em]; apply String.eqb_eq in Em; cbn; auto.
      - eapply Hset; [|exact E]; intros q. cbn. auto.
      - eapply Hset; [|exact E]; intros q. cbn. auto.
      - eapply Hset; [|exact E]; intros q.
        unfold set_resume_config.
        destruct (Numbers.parseInt limit) as [n|]; [|cbn; auto].
        destruct (Z.ltb_spec n 0); cbn; [auto|].
        split; [auto|]. split; [auto|]. right. reflexivity.
      - eapply Hset; [|exact E]; intros q. cbn. auto. }
    destruct H1 as [S1 [L1 R1]]. destruct IH as [S2 [L2 R2]].
    split; [|split].
    + destruct S2 as [S2|S2]; [rewrite S2; exact S1 | auto].
    + auto.
    + destruct R2 as [[R2 R2']|R2]; [|auto].
      rewrite R2, R2'. exact R1.
Qed.

End ConsoleProofs.
